(** * Lepton wallet core: a shallow embedding and its checked properties

    The development follows the TypeScript sources:
    - [Prover] (prover/index.ts): [hashInputs], [privateToPublicInputs],
      [formatPrivateInputs], [verify], [prove];
    - [Bech32Encode] (keyderivation/bech32-encode.ts): [encode], [decode];
    - [Wallet] (wallet/index.ts): [scanIndex], [TXOs], [balances],
      [balancesByTree], [scanLeaves], [scan];
    - [ERC20Transaction] (transaction/erc20.ts): [generateInputs], [prove];
    - [aes] (utils/encryption.ts) and the constants (utils/constants.ts).

    Asynchronous functions run in a state-and-exception monad [M] over a
    [World] (key-value store, persisted wallet details, scan locks, entropy
    counter, files).  External libraries (snarkjs, the native witness
    calculator, bech32-buffer, node crypto, circomlib) are interfaces. *)

From Stdlib Require Import ZArith NArith Lia List Bool Ascii String.
From Stdlib.Strings Require Import Byte.
From Stdlib Require Import DecimalString DecimalZ.
From stdpp Require Import base option list gmap strings sorting.

Local Open Scope Z_scope.

(** ** Byte data *)

(** A byte vector.  Hex strings and [ArrayLike<number>] values of the
    TypeScript union [BytesData] are both kept in this canonical form. *)
Abbreviation Bytes := (list byte).

#[global] Instance byte_eq_dec : EqDecision byte := Byte.byte_eq_dec.
#[global] Instance byte_countable : Countable byte :=
  inj_countable Byte.to_N Byte.of_N Byte.of_to_N.

(** [BytesData = ArrayLike<number> | string | BN]: a byte vector or a [BN]. *)
Inductive BytesData : Type :=
  | BStr (bs : Bytes)
  | BBN (n : Z).

#[global] Instance BytesData_eq_dec : EqDecision BytesData.
Proof. solve_decision. Defined.

Module bytes.

Definition byte_of_N (n : N) : byte := default x00 (Byte.of_N n).
Definition byte_val (b : byte) : Z := Z.of_N (Byte.to_N b).

(** Base-256 digits of [n], least significant first; [fuel] bounds the
    number of digits. *)
Fixpoint le_digits (fuel : nat) (n : N) : Bytes :=
  match fuel with
  | O => []
  | S f =>
      if (n =? 0)%N then []
      else byte_of_N (n mod 256)%N :: le_digits f (n / 256)%N
  end.

(** Value of base-256 digits given least significant first. *)
Definition le_value (l : Bytes) : Z :=
  fold_right (fun b acc => byte_val b + 256 * acc) 0 l.

(** Modelled from the spec: utils/bytes.ts is not among the sources.
    [BN.toString('hex')] padded to whole bytes: the big-endian bytes of
    the magnitude (zero is one zero byte; a sign has no byte form). *)
Definition bn_bytes (n : Z) : Bytes :=
  let m := Z.abs_N n in
  if (m =? 0)%N then [x00] else rev (le_digits (S (N.to_nat (N.log2 m))) m).

(** Modelled from the spec: [bytes.hexlify], the canonical byte vector of
    a [BytesData] (section 9, "single canonical byte-vector value"). *)
Definition hexlify (d : BytesData) : Bytes :=
  match d with
  | BStr bs => bs
  | BBN n => bn_bytes n
  end.

(** Modelled from the spec: [bytes.numberify], big-endian value of the
    bytes; a [BN] is returned as it is. *)
Definition numberify (d : BytesData) : Z :=
  match d with
  | BStr bs => fold_left (fun acc b => acc * 256 + byte_val b) bs 0
  | BBN n => n
  end.

(** Modelled from the spec: [bytes.padToLength(data, length)], left
    padding with zero bytes ("padTo32"); longer data is left as it is. *)
Definition padToLength (d : BytesData) (len : nat) : Bytes :=
  let bs := hexlify d in
  repeat x00 (len - length bs) ++ bs.

(** Modelled from the spec: [bytes.combine], concatenation ("||"). *)
Definition combine (ds : list BytesData) : Bytes :=
  concat (map hexlify ds).

(** [x !== undefined]. *)
Definition defined {A} (o : option A) : bool :=
  match o with Some _ => true | None => false end.

(** A JavaScript string is falsy exactly when it is empty. *)
Definition truthy (bs : Bytes) : bool :=
  match bs with [] => false | _ :: _ => true end.

End bytes.

(** ** Decimal strings of bn.js *)

(** [bn.toString(10)]. *)
Definition BN_toString10 (n : Z) : string :=
  NilZero.string_of_int (Z.to_int n).

(** [new BN(s)] for a decimal string (anything else is read as zero). *)
Definition BN_of_decimal (s : string) : Z :=
  match NilZero.int_of_string s with
  | Some i => Z.of_int i
  | None => 0
  end.

(** ** Constants (utils/constants.ts) *)

Module constants.
Definition SNARK_PRIME : Z :=
  21888242871839275222246405745257275088548364400416034343698204186575808495617.
Definition VERSION : Z := 1.
End constants.

(** ** Outcomes and errors *)

(** The exceptions the sources throw, by message, and the failures of the
    collaborators that the specification names. *)
Inductive Error : Type :=
  | ProofGenerationFailed       (* 'Proof generation failed' *)
  | IncorrectAddressVersion     (* 'Incorrect address version' *)
  | AddressPrefixUnrecognized   (* 'Address prefix unrecognized' *)
  | TooManyOutputs              (* 'Too many outputs specified' *)
  | TokenIDMismatch (output : nat) (* 'TokenID mismatch on output i' *)
  | WalletBalanceTooLow         (* 'Wallet balance too low' *)
  | NeedsConsolidation          (* 'Balances need to be consolidated ...' *)
  | WithdrawAddressNotSet       (* 'Withdraw address not set' *)
  | WithdrawShouldntBeSet       (* "Withdraw shouldn't be set" *)
  | WrongEncryptionKey          (* 'Wrong encryption key' *)
  | TypeError                   (* property access on undefined *)
  | InvalidPoint
  | MalformedNote
  | External (what : string).

#[global] Instance Error_eq_dec : EqDecision Error.
Proof. solve_decision. Defined.

(** Result of a call: a value, a thrown exception, or (for the loops that
    are run on fuel) not finished within the fuel. *)
Inductive Res (A : Type) : Type :=
  | Ok (a : A)
  | Throw (e : Error)
  | OutOfFuel.
Arguments Ok {A} a.
Arguments Throw {A} e.
Arguments OutOfFuel {A}.

(** ** Notes, commitments, stored records *)

(** utils/encryption.ts, [Ciphertext]. *)
Record Ciphertext : Type := {
  iv : BytesData;
  data : list BytesData;
}.

(** Modelled from the spec: the note class (note/erc20.ts is not among the
    sources), section 3: pubkey, random, amount, token.  The amount is kept
    as the number [bytes.numberify] reads from it. *)
Record ERC20Note : Type := {
  pubkey : Bytes;
  random : Bytes;
  amount : Z;
  token : Bytes;
}.

#[global] Instance ERC20Note_eq_dec : EqDecision ERC20Note.
Proof. solve_decision. Defined.

(** Modelled from the spec: [new ERC20Note(pubkey, random, amount, token)];
    the token is the 32-byte zero-padded address (section 3). *)
Definition new_ERC20Note (pk rnd amt tok : BytesData) : ERC20Note :=
  {| pubkey := bytes.hexlify pk;
     random := bytes.hexlify rnd;
     amount := bytes.numberify amt;
     token := bytes.padToLength tok 32 |}.

(** Modelled from the spec: the two commitment kinds of the merkle tree
    mirror (section 4.F): a cleartext deposit carries the serialized note,
    an encrypted transfer carries the sender key and the ciphertext. *)
Inductive Commitment : Type :=
  | GeneratedCommitment (hash txid : Bytes) (data : ERC20Note)
  | EncryptedCommitment (hash txid senderPubKey : Bytes) (ciphertext : Ciphertext).

Definition leaf_txid (leaf : Commitment) : Bytes :=
  match leaf with
  | GeneratedCommitment _ t _ => t
  | EncryptedCommitment _ t _ _ => t
  end.

(** wallet/index.ts, [TXO]. *)
Record TXO : Type := {
  txo_tree : nat;
  txo_position : nat;
  txo_index : nat;
  txo_change : bool;
  txo_txid : Bytes;
  txo_spendtxid : option Bytes;      (* [string | false] *)
  txo_dummyKey : option Bytes;       (* [dummyKey?: string] *)
  txo_note : ERC20Note;
}.

(** The value [scanIndex] stores under a TXO key (msgpack of the object). *)
Record StoredTXO : Type := {
  st_index : nat;
  st_change : bool;
  st_spendtxid : option Bytes;
  st_txid : Bytes;
  st_nullifier : Bytes;
  st_decrypted : ERC20Note;
}.

#[global] Instance StoredTXO_eq_dec : EqDecision StoredTXO.
Proof. solve_decision. Defined.

(** wallet/index.ts, [WalletDetails]. *)
Record WalletDetails : Type := {
  treeScannedHeights : list nat;
  primaryHeight : nat;
  changeHeight : nat;
}.

#[global] Instance WalletDetails_eq_dec : EqDecision WalletDetails.
Proof. solve_decision. Defined.

(** A TXO key: chain, tree, position (the fixed-width hex path
    [prefix(chainID) : tree : position] of the store). *)
Abbreviation DBKey := (nat * nat * nat)%type.

(** ** The world the asynchronous code runs in *)

Record World : Type := {
  db : gmap DBKey StoredTXO;          (* TXO records of the wallet *)
  details : option WalletDetails;     (* the encrypted details blob *)
  scanLockPerChain : gset nat;        (* chains whose scan lock is set *)
  entropy : nat;                      (* draws made from the random source *)
  files : gmap string Bytes;          (* files written by the witness tool *)
}.

Definition M (A : Type) : Type := World -> Res A * World.

Definition ret {A} (a : A) : M A := fun w => (Ok a, w).
Definition throw {A} (e : Error) : M A := fun w => (Throw e, w).
Definition bind {A B} (m : M A) (k : A -> M B) : M B :=
  fun w =>
    match m w with
    | (Ok a, w') => k a w'
    | (Throw e, w') => (Throw e, w')
    | (OutOfFuel, w') => (OutOfFuel, w')
    end.
Definition lift {A} (r : Res A) : M A := fun w => (r, w).
Definition gets {A} (f : World -> A) : M A := fun w => (Ok (f w), w).
Definition modify (f : World -> World) : M unit := fun w => (Ok tt, f w).

Notation "'let*' p ':=' c 'in' k" := (bind c (fun p => k))
  (at level 10, p pattern, c at level 100, k at level 200, only parsing).

Definition set_db (f : gmap DBKey StoredTXO -> gmap DBKey StoredTXO) (w : World) : World :=
  {| db := f (db w); details := details w; scanLockPerChain := scanLockPerChain w;
     entropy := entropy w; files := files w |}.
Definition set_details (d : option WalletDetails) (w : World) : World :=
  {| db := db w; details := d; scanLockPerChain := scanLockPerChain w;
     entropy := entropy w; files := files w |}.
Definition set_lock (f : gset nat -> gset nat) (w : World) : World :=
  {| db := db w; details := details w; scanLockPerChain := f (scanLockPerChain w);
     entropy := entropy w; files := files w |}.
Definition set_entropy (n : nat) (w : World) : World :=
  {| db := db w; details := details w; scanLockPerChain := scanLockPerChain w;
     entropy := n; files := files w |}.
Definition set_files (f : gmap string Bytes -> gmap string Bytes) (w : World) : World :=
  {| db := db w; details := details w; scanLockPerChain := scanLockPerChain w;
     entropy := entropy w; files := f (files w) |}.

(** The store only gains keys. *)
Definition db_grows (w w' : World) : Prop :=
  forall k, is_Some (db w !! k) -> is_Some (db w' !! k).

Definition Grows {A} (m : M A) : Prop :=
  forall w r w', m w = (r, w') -> db_grows w w'.

(** The world differs in the store only. *)
Definition store_only (w w' : World) : Prop :=
  details w' = details w
  /\ scanLockPerChain w' = scanLockPerChain w
  /\ entropy w' = entropy w
  /\ files w' = files w.

Definition StoreOnly {A} (m : M A) : Prop :=
  forall w r w', m w = (r, w') -> store_only w w'.

(** ** External collaborators *)

(** Field/curve/hash primitives (section 4.A) and the parts of the note
    class that only the specification describes. *)
Class Crypto : Type := {
  sha256 : Bytes -> Bytes;
  poseidon : list Bytes -> Bytes;
  seedToPrivateKey : Bytes -> Bytes;
  privateKeyToPubKey : Bytes -> Bytes;
  unpackPoint : Bytes -> Res (Bytes * Bytes);       (* fails [InvalidPoint] *)
  ecdh : Bytes -> Bytes -> Res Bytes;               (* fails [InvalidPoint] *)
  babyjubjub_of_seed : Bytes -> Bytes;              (* [babyjubjub.random] from fresh bytes *)
  aes256ctr : Bytes -> Bytes -> list Bytes -> Res (list Bytes); (* key, iv, blocks *)
  randomBytes : nat -> nat -> Bytes;                (* draw number, length *)
  note_decrypt : Ciphertext -> Bytes -> Res ERC20Note;  (* fails [MalformedNote] *)
  note_deserialize : ERC20Note -> Res ERC20Note;        (* fails [MalformedNote] *)
  depths_erc20 : nat;                               (* merkletree [depths.erc20] *)
}.

(** snarkjs proofs: decimal strings; only the affine coordinates the
    adapter reads are kept. *)
Record SnarkProof : Type := {
  pi_a : string * string;
  pi_b : (string * string) * (string * string);
  pi_c : string * string;
}.

(** prover/index.ts, [Artifacts]. *)
Record Artifacts : Type := {
  zkey : Bytes;
  wasm : Bytes;
  vkey : Bytes;
}.


(** ** Prover adapter (prover/index.ts) *)

Module Prover.

Inductive Circuits : Type := erc20small | erc20large.

Record Proof : Type := {
  proof_a : BytesData * BytesData;
  proof_b : (BytesData * BytesData) * (BytesData * BytesData);
  proof_c : BytesData * BytesData;
}.

Record ERC20PrivateInputs : Type := {
  adaptID : BytesData;
  tokenField : BytesData;
  depositAmount : BytesData;
  withdrawAmount : BytesData;
  outputTokenField : BytesData;
  outputEthAddress : BytesData;
  randomIn : list BytesData;
  valuesIn : list BytesData;
  spendingKeys : list BytesData;
  treeNumber : BytesData;
  merkleRoot : BytesData;
  nullifiers : list BytesData;
  pathElements : list (list BytesData);
  pathIndices : list BytesData;
  recipientPK : list BytesData;
  randomOut : list BytesData;
  valuesOut : list BytesData;
  commitmentsOut : list BytesData;
  ciphertextHash : BytesData;
}.

Record ERC20PublicInputs : Type := {
  pub_adaptID : BytesData;
  pub_depositAmount : BytesData;
  pub_withdrawAmount : BytesData;
  pub_outputTokenField : BytesData;
  pub_outputEthAddress : BytesData;
  pub_treeNumber : BytesData;
  pub_merkleRoot : BytesData;
  pub_nullifiers : list BytesData;
  pub_commitmentsOut : list BytesData;
  pub_ciphertextHash : BytesData;
}.

Abbreviation PrivateInputs := ERC20PrivateInputs.
Abbreviation PublicInputs := ERC20PublicInputs.

(** [FormattedCircuitInputs]: the keys the adapter fills in. *)
Record FormattedCircuitInputs : Type := {
  f_hashOfInputs : string;
  f_adaptID : string;
  f_tokenField : string;
  f_depositAmount : string;
  f_withdrawAmount : string;
  f_outputTokenField : string;
  f_outputEthAddress : string;
  f_randomIn : list string;
  f_valuesIn : list string;
  f_spendingKeys : list string;
  f_treeNumber : string;
  f_merkleRoot : string;
  f_nullifiers : list string;
  f_pathElements : list (list string);
  f_pathIndices : list string;
  f_recipientPK : list (list string);
  f_randomOut : list string;
  f_valuesOut : list string;
  f_commitmentsOut : list string;
  f_ciphertextHash : string;
}.

(** snarkjs [groth16] and the native witness calculator; the JSON text
    handed to the calculator is determined by the formatted inputs. *)
Class Snark : Type := {
  native_prove : FormattedCircuitInputs -> Res Bytes;
  groth16_prove : Bytes -> Bytes -> nat -> Res SnarkProof; (* zkey, witness, blinding draw *)
  groth16_verify : Bytes -> list Bytes -> SnarkProof -> Res bool;
}.

Record Prover : Type := {
  artifactsGetter : Circuits -> Res Artifacts;
}.

(** Lower-case hex text of a byte vector, for [bytes.hexlify(x, true)]. *)
Definition hex_digit (n : N) : ascii :=
  ascii_of_N (if (n <? 10)%N then 48 + n else 87 + n)%N.
Fixpoint hex_text (bs : Bytes) : string :=
  match bs with
  | [] => EmptyString
  | b0 :: rest =>
      let n := Byte.to_N b0 in
      String (hex_digit (n / 16)) (String (hex_digit (n mod 16)) (hex_text rest))
  end.

Section WithPrimitives.
Context {cr : Crypto} {sn : Snark}.

(** Lines 143-165. *)
Definition hashInputs (inputs : PublicInputs) : Bytes :=
  let preimage :=
    bytes.combine
      (map (fun el => BStr (bytes.padToLength el 32))
         ([ pub_adaptID inputs;
            pub_depositAmount inputs;
            pub_withdrawAmount inputs;
            pub_outputTokenField inputs;
            pub_outputEthAddress inputs;
            pub_treeNumber inputs;
            pub_merkleRoot inputs ]
          ++ pub_nullifiers inputs
          ++ pub_commitmentsOut inputs
          ++ [ pub_ciphertextHash inputs ])) in
  bytes.hexlify
    (BBN (bytes.numberify (BStr (sha256 preimage)) mod constants.SNARK_PRIME)).

(** The same hash as section 4.G of the specification writes it:
    sha256 of [padTo32(adaptID) || ... || padTo32(ciphertextHash)],
    reduced modulo the SNARK prime. *)
Definition padTo32 (d : BytesData) : Bytes := bytes.padToLength d 32.

Definition spec_hashOfInputs (inputs : PublicInputs) : Z :=
  bytes.numberify
    (BStr (sha256
       (padTo32 (pub_adaptID inputs)
        ++ padTo32 (pub_depositAmount inputs)
        ++ padTo32 (pub_withdrawAmount inputs)
        ++ padTo32 (pub_outputTokenField inputs)
        ++ padTo32 (pub_outputEthAddress inputs)
        ++ padTo32 (pub_treeNumber inputs)
        ++ padTo32 (pub_merkleRoot inputs)
        ++ concat (map padTo32 (pub_nullifiers inputs))
        ++ concat (map padTo32 (pub_commitmentsOut inputs))
        ++ padTo32 (pub_ciphertextHash inputs))))
  mod 21888242871839275222246405745257275088548364400416034343698204186575808495617.

(** Lines 167-184. *)
Definition privateToPublicInputs (inputs : PrivateInputs) : PublicInputs :=
  {| pub_adaptID := adaptID inputs;
     pub_depositAmount := depositAmount inputs;
     pub_withdrawAmount := withdrawAmount inputs;
     pub_outputTokenField := outputTokenField inputs;
     pub_outputEthAddress := outputEthAddress inputs;
     pub_treeNumber := treeNumber inputs;
     pub_merkleRoot := merkleRoot inputs;
     pub_nullifiers := nullifiers inputs;
     pub_commitmentsOut := commitmentsOut inputs;
     pub_ciphertextHash := ciphertextHash inputs |}.

(** [Array.prototype.map] with a callback that may throw. *)
Fixpoint mapRes {A B} (f : A -> Res B) (l : list A) : Res (list B) :=
  match l with
  | [] => Ok []
  | x :: r =>
      match f x with
      | Ok y =>
          match mapRes f r with
          | Ok ys => Ok (y :: ys)
          | Throw e => Throw e
          | OutOfFuel => OutOfFuel
          end
      | Throw e => Throw e
      | OutOfFuel => OutOfFuel
      end
  end.

(** Lines 186-222. *)
Definition formatPrivateInputs (inputs : PrivateInputs) (decimal : bool)
  : Res FormattedCircuitInputs :=
  let publicInputs := privateToPublicInputs inputs in
  let hashOfInputs := hashInputs publicInputs in
  let decimalify (x : BytesData) :=
    BN_toString10 (bytes.numberify (BStr (bytes.hexlify x))) in
  let hexlify (x : BytesData) :=
    String "0" (String "x" (hex_text (bytes.hexlify x))) in
  let convert := if decimal then decimalify else hexlify in
  match
    mapRes (fun el =>
              match unpackPoint (bytes.hexlify el) with
              | Ok (x, y) => Ok [convert (BStr x); convert (BStr y)]
              | Throw e => Throw e
              | OutOfFuel => OutOfFuel
              end) (recipientPK inputs)
  with
  | Ok pks =>
      Ok {| f_hashOfInputs := convert (BStr hashOfInputs);
            f_adaptID := convert (adaptID inputs);
            f_tokenField := convert (tokenField inputs);
            f_depositAmount := convert (depositAmount inputs);
            f_withdrawAmount := convert (withdrawAmount inputs);
            f_outputTokenField := convert (outputTokenField inputs);
            f_outputEthAddress := convert (outputEthAddress inputs);
            f_randomIn := map convert (randomIn inputs);
            f_valuesIn := map convert (valuesIn inputs);
            f_spendingKeys := map convert (spendingKeys inputs);
            f_treeNumber := convert (treeNumber inputs);
            f_merkleRoot := convert (merkleRoot inputs);
            f_nullifiers := map convert (nullifiers inputs);
            f_pathElements := map (map convert) (pathElements inputs);
            f_pathIndices := map convert (pathIndices inputs);
            f_recipientPK := pks;
            f_randomOut := map convert (randomOut inputs);
            f_valuesOut := map convert (valuesOut inputs);
            f_commitmentsOut := map convert (commitmentsOut inputs);
            f_ciphertextHash := convert (ciphertextHash inputs) |}
  | Throw e => Throw e
  | OutOfFuel => OutOfFuel
  end.

(** Lines 90-97: the proof as handed to [groth16.verify]. *)
Definition verifierProof (proof : Proof) : SnarkProof :=
  let dec (x : BytesData) := BN_toString10 (bytes.numberify x) in
  {| pi_a := (dec (fst (proof_a proof)), dec (snd (proof_a proof)));
     pi_b := ((dec (snd (fst (proof_b proof))), dec (fst (fst (proof_b proof)))),
              (dec (snd (snd (proof_b proof))), dec (fst (snd (proof_b proof)))));
     pi_c := (dec (fst (proof_c proof)), dec (snd (proof_c proof))) |}.

(** Lines 82-101. *)
Definition verify (p : Prover) (circuit : Circuits) (inputs : PublicInputs)
    (proof : Proof) : M bool :=
  let* artifacts := lift (artifactsGetter p circuit) in
  let hashOfInputs := hashInputs inputs in
  let proofFormatted := verifierProof proof in
  lift (groth16_verify (vkey artifacts) [hashOfInputs] proofFormatted).

(** Lines 124-131: the proof as stored, from the snarkjs proof. *)
Definition storedProof (proof : SnarkProof) : Proof :=
  let bn (s : string) := BBN (BN_of_decimal s) in
  {| proof_a := (bn (fst (pi_a proof)), bn (snd (pi_a proof)));
     proof_b := ((bn (snd (fst (pi_b proof))), bn (fst (fst (pi_b proof)))),
                 (bn (snd (snd (pi_b proof))), bn (fst (snd (pi_b proof)))));
     proof_c := (bn (fst (pi_c proof)), bn (snd (pi_c proof))) |}.

(** A decimal string as snarkjs prints a coordinate: the [toString(10)]
    of a number. *)
Definition canonicalDecimal (s : string) : Prop :=
  exists n : Z, s = BN_toString10 n.

Definition canonicalProof (proof : SnarkProof) : Prop :=
  canonicalDecimal (fst (fst (pi_b proof)))
  /\ canonicalDecimal (snd (fst (pi_b proof)))
  /\ canonicalDecimal (fst (snd (pi_b proof)))
  /\ canonicalDecimal (snd (snd (pi_b proof))).

Definition out_wtns : string := "out.wtns".

(** Lines 107-131: everything [prove] does before it re-verifies. *)
Definition generate (p : Prover) (circuit : Circuits) (inputs : PrivateInputs)
  : M (Proof * PublicInputs) :=
  let* artifacts := lift (artifactsGetter p circuit) in
  let* formattedInputs := lift (formatPrivateInputs inputs true) in
  let publicInputs := privateToPublicInputs inputs in
  let* wtns := lift (native_prove formattedInputs) in
  let* tt := modify (set_files (insert out_wtns wtns)) in
  let* file := gets (fun w => files w !! out_wtns) in
  let* draw := gets entropy in
  let* tt := modify (set_entropy (S draw)) in
  let* proof := lift (match file with
                      | Some wt => groth16_prove (zkey artifacts) wt draw
                      | None => Throw (External "out.wtns")
                      end) in
  ret (storedProof proof, publicInputs).

(** Lines 103-141. *)
Definition prove (p : Prover) (circuit : Circuits) (inputs : PrivateInputs)
  : M (Proof * PublicInputs) :=
  let* (proofFormatted, publicInputs) := generate p circuit inputs in
  let* valid := verify p circuit publicInputs proofFormatted in
  if negb valid then throw ProofGenerationFailed
  else ret (proofFormatted, publicInputs).

End WithPrimitives.

End Prover.

(** ** JavaScript arrays with holes *)

Module JSArray.

(** A sparse array: [None] is an empty slot. *)
Abbreviation t A := (list (option A)).

(** [arr[i]]: an empty slot and an index past the end both read as
    [undefined]. *)
Definition get {A} (arr : t A) (i : nat) : option A := mjoin (arr !! i).

(** [arr[i] = v]: writing past the end extends the array with holes. *)
Definition set {A} (i : nat) (v : A) (arr : t A) : t A :=
  if decide (i < length arr)%nat then <[i := Some v]> arr
  else arr ++ replicate (i - length arr) None ++ [Some v].

(** [arr.indexOf(x)], from position [i] on; holes never match. *)
Fixpoint indexOf_from {A} `{EqDecision A} (arr : t A) (x : A) (i : nat) : option nat :=
  match arr with
  | [] => None
  | Some y :: rest => if decide (y = x) then Some i else indexOf_from rest x (S i)
  | None :: rest => indexOf_from rest x (S i)
  end.
Definition indexOf {A} `{EqDecision A} (arr : t A) (x : A) : option nat :=
  indexOf_from arr x 0.

(** [arr.includes(x)] for a defined [x]. *)
Definition includes {A} `{EqDecision A} (arr : t A) (x : A) : bool :=
  bool_decide (Some x ∈ arr).

(** [delete arr[i]]: the slot becomes a hole; the length stays. *)
Definition delete {A} (i : nat) (arr : t A) : t A := <[i := None]> arr.

End JSArray.

(** ** Address codec (keyderivation/bech32-encode.ts) *)

Module Bech32Encode.

(** The bech32-buffer library. *)
Class Bech32 : Type := {
  bech32encode : string -> Bytes -> string;
  bech32decode : string -> Res (string * Bytes);
}.

(** Lines 230-235. *)
Definition prefixes : JSArray.t string :=
  JSArray.set 137 "rgpoly"
    (JSArray.set 56 "rgbsc"
       (JSArray.set 5 "rgtestgoerli"
          (JSArray.set 3 "rgtestropsten"
             (JSArray.set 1 "rgeth" []))))%string.

Record Decoded : Type := {
  chainID : option nat;
  d_pubkey : Bytes;
}.

Section WithLibrary.
Context {b32 : Bech32}.

(** Lines 243-256.  [chainID && prefixes[chainID]] is falsy for an
    absent chain, for chain 0 and for a chain without a prefix. *)
Definition encode (pubkey : BytesData) (chainID : option nat) : string :=
  let data := bytes.combine [BBN constants.VERSION; pubkey] in
  match chainID with
  | Some (S c) =>
      match JSArray.get prefixes (S c) with
      | Some prefix => bech32encode prefix data
      | None => bech32encode "rgany" data
      end
  | _ => bech32encode "rgany" data
  end.

(** Lines 258-292. *)
Definition decode (address : string) : Res Decoded :=
  match bech32decode address with
  | Ok (prefix, decoded_data) =>
      let data := bytes.hexlify (BStr decoded_data) in
      let version := bytes.numberify (BStr (take 1 data)) in
      if negb (version =? constants.VERSION) then Throw IncorrectAddressVersion
      else
        let pubkey := drop 1 data in
        if JSArray.includes prefixes prefix then
          Ok {| chainID := JSArray.indexOf prefixes prefix; d_pubkey := pubkey |}
        else if String.eqb prefix "rgany" then
          Ok {| chainID := None; d_pubkey := pubkey |}
        else Throw AddressPrefixUnrecognized
  | Throw e => Throw e
  | OutOfFuel => OutOfFuel
  end.

End WithLibrary.

(** The chains of the prefix table. *)
Definition knownChain (c : nat) : bool :=
  bool_decide (c ∈ [1; 3; 5; 56; 137]%nat).

(** The chain an address is encoded for: a chain of the prefix table, or
    none ('rgany'). *)
Definition addressedChain (chainID : option nat) : option nat :=
  match chainID with
  | Some c => if knownChain c then Some c else None
  | None => None
  end.

End Bech32Encode.

(** ** Promises *)

(** [Promise.all] over promises that were all started before the await:
    every computation runs, in order, and keeps its effects; the result is
    the list of values, or the first failure. *)
Fixpoint promiseAll {A} (ms : list (M A)) : M (list A) :=
  match ms with
  | [] => ret []
  | m :: rest =>
      fun w =>
        let '(r, w1) := m w in
        let '(rs, w2) := promiseAll rest w1 in
        (match r, rs with
         | Ok a, Ok l => Ok (a :: l)
         | Ok _, Throw e => Throw e
         | Ok _, OutOfFuel => OutOfFuel
         | Throw e, _ => Throw e
         | OutOfFuel, _ => OutOfFuel
         end, w2)
  end.

(** ** Wallet (wallet/index.ts) *)

Module Wallet.

Record Keypair : Type := {
  privateKey : Bytes;
  kp_pubkey : Bytes;
}.

(** Modelled from the spec: the merkle tree mirror of one chain (section
    4.D; merkletree/index.ts is not among the sources), as the answers it
    gives to the wallet and to the transaction builder. *)
Record MerkleTree : Type := {
  mt_chainID : nat;
  latestTree : nat;
  getTreeLength : nat -> nat;
  getCommitment : nat -> nat -> option Commitment;
  getNullified : Bytes -> option Bytes;
  getProof : nat -> nat -> Res (list Bytes);      (* the [elements] of the proof *)
  getRoot : nat -> Res Bytes;
}.

(** The wallet object.  The two BIP-32 nodes are given by the key pair
    they derive at each index ([derive(`m/${index}'`).getBabyJubJubKey]). *)
Record Wallet : Type := {
  encryptionKey : BytesData;
  addressNode : nat -> Keypair;
  changeNode : nat -> Keypair;
  gapLimit : nat;
  merkletree : JSArray.t MerkleTree;      (* indexed by chain ID *)
}.

Record TokenBalance : Type := {
  balance : Z;
  utxos : list TXO;
}.

Abbreviation Balances := (gmap Bytes TokenBalance).
Abbreviation BalancesByTree := (gmap Bytes (JSArray.t TokenBalance)).

(** Order of the keys in the store: chain, then tree, then position. *)
Definition key_leb (k1 k2 : DBKey) : bool :=
  let '(c1, t1, p1) := k1 in
  let '(c2, t2, p2) := k2 in
  (c1 <? c2)%nat
  || ((c1 =? c2)%nat && ((t1 <? t2)%nat || ((t1 =? t2)%nat && (p1 <=? p2)%nat))).
Definition key_le (k1 k2 : DBKey) : Prop := key_leb k1 k2 = true.
#[global] Instance key_le_dec k1 k2 : Decision (key_le k1 k2).
Proof. unfold key_le. apply _. Defined.

(** [db.streamNamespace(getWalletDBPrefix(chainID))]: the keys of the
    chain, in the order of the store. *)
Definition streamNamespace (d : gmap DBKey StoredTXO) (chainID : nat) : list DBKey :=
  filter (fun k => k.1.1 = chainID) (merge_sort key_le (map fst (map_to_list d))).

Definition defaultDetails : WalletDetails :=
  {| treeScannedHeights := []; primaryHeight := 0; changeHeight := 0 |}.

(** [db.batch(writeBatch)]: the puts, in order. *)
Definition batch (ops : list (DBKey * StoredTXO)) (d : gmap DBKey StoredTXO)
  : gmap DBKey StoredTXO :=
  fold_left (fun acc op => <[op.1 := op.2]> acc) ops d.

(** [usedIndexes.lastIndexOf(true)]; [None] stands for -1. *)
Fixpoint lastIndexOf_from (l : list bool) (i : nat) (found : option nat) : option nat :=
  match l with
  | [] => found
  | b0 :: rest => lastIndexOf_from rest (S i) (if b0 then Some i else found)
  end.
Definition lastIndexOf_true (l : list bool) : option nat :=
  lastIndexOf_from l 0%nat None.

(** Lines 114-116, [loadTree]: [this.merkletree[merkletree.chainID] =
    merkletree]. *)
Definition loadTree (wallet : Wallet) (mt : MerkleTree) : Wallet :=
  {| encryptionKey := encryptionKey wallet;
     addressNode := addressNode wallet;
     changeNode := changeNode wallet;
     gapLimit := gapLimit wallet;
     merkletree := JSArray.set (mt_chainID mt) mt (merkletree wallet) |}.

(** Lines 122-124, [unloadTree]: [delete this.merkletree[chainID]]. *)
Definition unloadTree (wallet : Wallet) (chainID : nat) : Wallet :=
  {| encryptionKey := encryptionKey wallet;
     addressNode := addressNode wallet;
     changeNode := changeNode wallet;
     gapLimit := gapLimit wallet;
     merkletree := JSArray.delete chainID (merkletree wallet) |}.


Section WithPrimitives.
Context {cr : Crypto}.

(** Modelled from the spec: [ERC20Note.getNullifier], Poseidon over
    (privateKey, treeIndex, leafPosition) (section 4.B). *)
Definition getNullifier (privateKey : Bytes) (tree position : nat) : Bytes :=
  poseidon [privateKey; bytes.hexlify (BBN (Z.of_nat tree));
            bytes.hexlify (BBN (Z.of_nat position))].

(** Lines 155-169. *)
Definition getKeypair (wallet : Wallet) (encKey : BytesData) (index : nat)
    (change : bool) : Res Keypair :=
  if decide (bytes.hexlify encKey = bytes.hexlify (encryptionKey wallet)) then
    if change then Ok (changeNode wallet index) else Ok (addressNode wallet index)
  else Throw WrongEncryptionKey.

(** Lines 176-181. *)
Definition getViewKey (wallet : Wallet) (encKey : BytesData) : Res Bytes :=
  match getKeypair wallet encKey 0 false with
  | Ok keypair => Ok (sha256 (privateKey keypair))
  | Throw e => Throw e
  | OutOfFuel => OutOfFuel
  end.

(** Lines 197-217: a missing or unreadable blob gives the defaults. *)
Definition getWalletDetails : M WalletDetails :=
  gets (fun w => default defaultDetails (details w)).

(** Lines 256-267: the note of a leaf, for the key being scanned. *)
Definition readLeaf (key : Keypair) (leaf : Commitment) : Res ERC20Note :=
  match leaf with
  | EncryptedCommitment _ _ senderPubKey ciphertext =>
      match ecdh (privateKey key) senderPubKey with
      | Ok sharedKey => note_decrypt ciphertext sharedKey
      | Throw e => Throw e
      | OutOfFuel => OutOfFuel
      end
  | GeneratedCommitment _ _ data => note_deserialize data
  end.

(** Lines 252-288: [leaves.forEach] filling [writeBatch]; holes are
    skipped, an exception of the callback ends the loop. *)
Fixpoint writeBatch (key : Keypair) (index : nat) (change : bool)
    (tree chainID : nat) (leaves : JSArray.t Commitment) (position : nat)
  : Res (list (DBKey * StoredTXO)) :=
  match leaves with
  | [] => Ok []
  | None :: rest => writeBatch key index change tree chainID rest (S position)
  | Some leaf :: rest =>
      match readLeaf key leaf with
      | Ok note =>
          match writeBatch key index change tree chainID rest (S position) with
          | Ok ops =>
              if decide (pubkey note = kp_pubkey key) then
                Ok (((chainID, tree, position),
                     {| st_index := index;
                        st_change := change;
                        st_spendtxid := None;
                        st_txid := bytes.hexlify (BStr (leaf_txid leaf));
                        st_nullifier := getNullifier (privateKey key) tree position;
                        st_decrypted := note |}) :: ops)
              else Ok ops
          | Throw e => Throw e
          | OutOfFuel => OutOfFuel
          end
      | Throw e => Throw e
      | OutOfFuel => OutOfFuel
      end
  end.

(** Lines 242-295. *)
Definition scanIndex (wallet : Wallet) (index : nat) (change : bool)
    (leaves : JSArray.t Commitment) (tree chainID : nat) : M bool :=
  let* key := lift (getKeypair wallet (encryptionKey wallet) index change) in
  let* ops := lift (writeBatch key index change tree chainID leaves 0) in
  let* tt := modify (set_db (batch ops)) in
  ret (0 <? length ops)%nat.

(** The write batch [scanIndex] builds for an index (before it is
    written), and the operations in it when the leaves could all be read. *)
Definition indexBatch (wallet : Wallet) (leaves : JSArray.t Commitment)
    (change : bool) (tree chainID index : nat) : Res (list (DBKey * StoredTXO)) :=
  writeBatch (if change then changeNode wallet index else addressNode wallet index)
    index change tree chainID leaves 0.

Definition opsAt (wallet : Wallet) (leaves : JSArray.t Commitment)
    (change : bool) (tree chainID index : nat) : list (DBKey * StoredTXO) :=
  match indexBatch wallet leaves change tree chainID index with
  | Ok ops => ops
  | _ => []
  end.

(** Whether the batch of an index has an operation (what [scanIndex]
    returns), and whether the key of the index reads every leaf. *)
Definition indexMatches (wallet : Wallet) (leaves : JSArray.t Commitment)
    (change : bool) (tree chainID index : nat) : bool :=
  (0 <? length (opsAt wallet leaves change tree chainID index))%nat.
Definition indexReadable (wallet : Wallet) (leaves : JSArray.t Commitment)
    (change : bool) (tree chainID index : nat) : Prop :=
  indexBatch wallet leaves change tree chainID index
  = Ok (opsAt wallet leaves change tree chainID index).

(** The store after the batches of the given indexes, in order. *)
Definition afterBatches (wallet : Wallet) (leaves : JSArray.t Commitment)
    (change : bool) (tree chainID : nat) (indexes : list nat)
    (d : gmap DBKey StoredTXO) : gmap DBKey StoredTXO :=
  fold_left (fun acc i => batch (opsAt wallet leaves change tree chainID i) acc) indexes d.

(** Lines 323-358: what [TXOs] does for one key. *)
Definition readTXO (wallet : Wallet) (chainID : nat) (key : DBKey) : M TXO :=
  let* stored := gets (fun w => db w !! key) in
  match stored with
  | None => throw (External "NotFound")
  | Some UTXO =>
      let* UTXO :=
        (if match st_spendtxid UTXO with Some t => bytes.truthy t | None => false end
         then ret UTXO
         else
           match JSArray.get (merkletree wallet) chainID with
           | None => throw TypeError
           | Some mt =>
               match getNullified mt (st_nullifier UTXO) with
               | Some nullifierTX =>
                   if bytes.truthy nullifierTX then
                     let spent :=
                       {| st_index := st_index UTXO;
                          st_change := st_change UTXO;
                          st_spendtxid := Some nullifierTX;
                          st_txid := st_txid UTXO;
                          st_nullifier := st_nullifier UTXO;
                          st_decrypted := st_decrypted UTXO |} in
                     let* tt := modify (set_db (insert key spent)) in
                     ret spent
                   else ret UTXO
               | None => ret UTXO
               end
           end) in
      let* note := lift (note_deserialize (st_decrypted UTXO)) in
      ret {| txo_tree := key.1.2;
             txo_position := key.2;
             txo_index := st_index UTXO;
             txo_change := st_change UTXO;
             txo_txid := st_txid UTXO;
             txo_spendtxid := st_spendtxid UTXO;
             txo_dummyKey := None;
             txo_note := note |}
  end.

(** Lines 302-360. *)
Definition TXOs (wallet : Wallet) (chainID : nat) : M (list TXO) :=
  let* keys := gets (fun w => streamNamespace (db w) chainID) in
  promiseAll (map (readTXO wallet chainID) keys).

Definition unspent (txOutput : TXO) : bool :=
  negb (match txo_spendtxid txOutput with Some t => bytes.truthy t | None => false end).

(** Lines 372-389: one step of the [forEach] of [balances]. *)
Definition addToBalances (balances : Balances) (txOutput : TXO) : Balances :=
  let tok := token (txo_note txOutput) in
  let balances :=
    match balances !! tok with
    | Some _ => balances
    | None => <[tok := {| balance := 0; utxos := [] |}]> balances
    end in
  if unspent txOutput then
    match balances !! tok with
    | Some entry =>
        <[tok := {| balance := balance entry + amount (txo_note txOutput);
                    utxos := utxos entry ++ [txOutput] |}]> balances
    | None => balances
    end
  else balances.

(** Lines 367-392. *)
Definition balances (wallet : Wallet) (chainID : nat) : M Balances :=
  let* TXOs := TXOs wallet chainID in
  ret (fold_left addToBalances TXOs ∅).

(** Lines 412-422: one step of the inner [forEach] of [balancesByTree]. *)
Definition addToTree (trees : JSArray.t TokenBalance) (utxo : TXO)
  : JSArray.t TokenBalance :=
  match JSArray.get trees (txo_tree utxo) with
  | None =>
      JSArray.set (txo_tree utxo)
        {| balance := amount (txo_note utxo); utxos := [utxo] |} trees
  | Some entry =>
      JSArray.set (txo_tree utxo)
        {| balance := balance entry + amount (txo_note utxo);
           utxos := utxos entry ++ [utxo] |} trees
  end.

(** Lines 399-426. *)
Definition balancesByTree (wallet : Wallet) (chainID : nat) : M BalancesByTree :=
  let* balances := balances wallet chainID in
  ret ((fun entry => fold_left addToTree (utxos entry) []) <$> balances).

(** Lines 451-463: one pass of the sweep.  Indexes 0 to
    [height + gapLimit], both included, are visited; an index whose
    entry is not [true] is scanned. *)
Definition scanPass (wallet : Wallet) (leaves : JSArray.t Commitment)
    (change : bool) (tree chainID : nat) (usedIndexes : list bool)
    (height : nat) : M (list bool) :=
  let* scanned :=
    promiseAll
      (map (fun index =>
              if default false (usedIndexes !! index) then ret true
              else scanIndex wallet index change leaves tree chainID)
           (seq 0 (S (height + gapLimit wallet)))) in
  ret (scanned ++ drop (S (height + gapLimit wallet)) usedIndexes).

(** Lines 451-470: the [while] loop, on fuel. *)
Fixpoint scanLoop (fuel : nat) (wallet : Wallet) (leaves : JSArray.t Commitment)
    (change : bool) (tree chainID : nat) (usedIndexes : list bool)
    (height : nat) : M nat :=
  if decide (length usedIndexes < height + gapLimit wallet)%nat then
    match fuel with
    | O => fun w => (OutOfFuel, w)
    | S fuel' =>
        let* usedIndexes := scanPass wallet leaves change tree chainID usedIndexes height in
        let height :=
          match lastIndexOf_true usedIndexes with
          | None => 0%nat
          | Some i => i
          end in
        scanLoop fuel' wallet leaves change tree chainID usedIndexes height
    end
  else ret height.

(** Lines 438-471. *)
Definition scanLeaves (fuel : nat) (wallet : Wallet) (leaves : JSArray.t Commitment)
    (change : bool) (initialHeight tree chainID : nat) : M nat :=
  scanLoop fuel wallet leaves change tree chainID [] initialHeight.

(** Line 546: the scanned height committed for a tree of the given length. *)
Definition lastLeaf (len : nat) : nat :=
  if (0 <? len)%nat then (len - 1)%nat else 0%nat.

(** Lines 507-521: the leaves from [scannedHeight] on, as a sparse
    array as long as the tree. *)
Definition fetchLeaves (mt : MerkleTree) (tree scannedHeight : nat)
  : JSArray.t Commitment :=
  map (fun index =>
         if decide (scannedHeight <= index)%nat then getCommitment mt tree index
         else None)
      (seq 0 (getTreeLength mt tree)).

(** Lines 501-547: the body of the loop over the trees.  The two sweeps
    are started together and awaited in turn. *)
Definition scanTree (fuel : nat) (wallet : Wallet) (mt : MerkleTree)
    (walletDetails : WalletDetails) (tree : nat) : M WalletDetails :=
  let scannedHeight := default 0%nat (treeScannedHeights walletDetails !! tree) in
  let leaves := fetchLeaves mt tree scannedHeight in
  let* heights :=
    promiseAll
      [ scanLeaves fuel wallet leaves false (primaryHeight walletDetails) tree (mt_chainID mt);
        scanLeaves fuel wallet leaves true (primaryHeight walletDetails) tree (mt_chainID mt) ] in
  ret {| treeScannedHeights :=
           <[tree := lastLeaf (length leaves)]> (treeScannedHeights walletDetails);
         primaryHeight := default 0%nat (heights !! 0%nat);
         changeHeight := default 0%nat (heights !! 1%nat) |}.

Fixpoint scanTrees (fuel : nat) (wallet : Wallet) (mt : MerkleTree)
    (walletDetails : WalletDetails) (trees : list nat) : M WalletDetails :=
  match trees with
  | [] => ret walletDetails
  | tree :: rest =>
      let* walletDetails := scanTree fuel wallet mt walletDetails tree in
      scanTrees fuel wallet mt walletDetails rest
  end.

(** Lines 477-561. *)
Definition scan (fuel : nat) (wallet : Wallet) (chainID : nat) : M unit :=
  let* locked := gets (fun w => bool_decide (chainID ∈ scanLockPerChain w)) in
  if locked then ret tt
  else
    let* tt := modify (set_lock (union {[chainID]})) in
    let* walletDetails := getWalletDetails in
    match JSArray.get (merkletree wallet) chainID with
    | None => throw TypeError
    | Some mt =>
        let latest := latestTree mt in
        let walletDetails :=
          {| treeScannedHeights :=
               treeScannedHeights walletDetails
               ++ replicate (latest + 1 - length (treeScannedHeights walletDetails)) 0%nat;
             primaryHeight := primaryHeight walletDetails;
             changeHeight := changeHeight walletDetails |} in
        let* walletDetails :=
          scanTrees fuel wallet mt walletDetails
            (seq 0 (length (treeScannedHeights walletDetails))) in
        let* tt := modify (set_details (Some walletDetails)) in
        modify (set_lock (fun locks => locks ∖ {[chainID]}))
    end.

End WithPrimitives.

End Wallet.

Module WalletRecords.
Import Wallet.

(** A stored record with its spend txid set (lines 337-340). *)
Definition withSpendtxid (UTXO : StoredTXO) (nullifierTX : Bytes) : StoredTXO :=
  {| st_index := st_index UTXO;
     st_change := st_change UTXO;
     st_spendtxid := Some nullifierTX;
     st_txid := st_txid UTXO;
     st_nullifier := st_nullifier UTXO;
     st_decrypted := st_decrypted UTXO |}.

(** [!UTXO.spendtxid]. *)
Definition unspentRecord (UTXO : StoredTXO) : bool :=
  negb (match st_spendtxid UTXO with Some t => bytes.truthy t | None => false end).

(** Lines 331-342: the record [TXOs] goes on with, after asking the
    mirror about the nullifier of a record not yet marked as spent. *)
Definition refreshed (wallet : Wallet) (chainID : nat) (UTXO : StoredTXO)
  : Res StoredTXO :=
  if unspentRecord UTXO then
    match JSArray.get (merkletree wallet) chainID with
    | None => Throw TypeError
    | Some mt =>
        match getNullified mt (st_nullifier UTXO) with
        | Some nullifierTX =>
            if bytes.truthy nullifierTX then Ok (withSpendtxid UTXO nullifierTX)
            else Ok UTXO
        | None => Ok UTXO
        end
    end
  else Ok UTXO.

(** The record the store holds after [TXOs] has visited it. *)
Definition afterRead (wallet : Wallet) (chainID : nat) (UTXO : StoredTXO) : StoredTXO :=
  match refreshed wallet chainID UTXO with
  | Ok UTXO' => UTXO'
  | _ => UTXO
  end.

(** Lines 344-357: the TXO made of a key, its record and the note read
    from it. *)
Definition toTXO (key : DBKey) (UTXO : StoredTXO) (note : ERC20Note) : TXO :=
  {| txo_tree := key.1.2;
     txo_position := key.2;
     txo_index := st_index UTXO;
     txo_change := st_change UTXO;
     txo_txid := st_txid UTXO;
     txo_spendtxid := st_spendtxid UTXO;
     txo_dummyKey := None;
     txo_note := note |}.

Section WithPrimitives.
Context {cr : Crypto}.

(** What [TXOs] answers for one key of a store. *)
Definition readResult (wallet : Wallet) (chainID : nat) (d : gmap DBKey StoredTXO)
    (key : DBKey) : Res TXO :=
  match d !! key with
  | None => Throw (External "NotFound")
  | Some UTXO =>
      match refreshed wallet chainID UTXO with
      | Ok UTXO' =>
          match note_deserialize (st_decrypted UTXO') with
          | Ok note => Ok (toTXO key UTXO' note)
          | Throw e => Throw e
          | OutOfFuel => OutOfFuel
          end
      | Throw e => Throw e
      | OutOfFuel => OutOfFuel
      end
  end.

End WithPrimitives.

(** The store after [TXOs] has visited the given keys. *)
Definition refreshAll (wallet : Wallet) (chainID : nat) (keys : list DBKey)
    (d : gmap DBKey StoredTXO) : gmap DBKey StoredTXO :=
  fold_left (fun acc key =>
               match acc !! key with
               | Some UTXO => <[key := afterRead wallet chainID UTXO]> acc
               | None => acc
               end) keys d.

End WalletRecords.

Module WalletBalances.

(** The unspent TXOs of a token, and the TXOs of a tree, in the order of
    the list. *)
Definition unspentOf (tok : Bytes) (txos : list TXO) : list TXO :=
  filter (fun txOutput => Wallet.unspent txOutput = true
                          /\ token (txo_note txOutput) = tok) txos.
Definition inTree (tree : nat) (utxos : list TXO) : list TXO :=
  filter (fun utxo => txo_tree utxo = tree) utxos.

End WalletBalances.

Module WalletSweep.
Section WithPrimitives.
Context {cr : Crypto}.

(** Lines 455-458: what a pass does for one index. *)
Definition visit (wallet : Wallet.Wallet) (leaves : JSArray.t Commitment)
    (change : bool) (tree chainID : nat) (usedIndexes : list bool) (index : nat) : M bool :=
  if default false (usedIndexes !! index) then ret true
  else Wallet.scanIndex wallet index change leaves tree chainID.

(** A state of the sweep: the entries of [usedIndexes] say which of the
    scanned indexes hold a note, the keys of these indexes read every leaf,
    and the notes they found are in the store. *)
Definition sweepState (wallet : Wallet.Wallet) (leaves : JSArray.t Commitment)
    (change : bool) (tree chainID : nat) (usedIndexes : list bool) (w : World) : Prop :=
  usedIndexes
  = map (Wallet.indexMatches wallet leaves change tree chainID) (seq 0 (length usedIndexes))
  /\ (forall i, (i < length usedIndexes)%nat ->
                Wallet.indexReadable wallet leaves change tree chainID i)
  /\ (forall i (k : DBKey),
        (i < length usedIndexes)%nat ->
        k ∈ (Wallet.opsAt wallet leaves change tree chainID i).*1 ->
        is_Some (db w !! k)).

End WithPrimitives.
End WalletSweep.

(** ** Random source and AES (utils/bytes.ts [random], utils/encryption.ts) *)

Section Entropy.
Context {cr : Crypto}.

(** [bytes.random(length)]: the next draw of the random source. *)
Definition random_bytes (len : nat) : M Bytes :=
  let* draw := gets entropy in
  let* tt := modify (set_entropy (S draw)) in
  ret (randomBytes draw len).

(** [babyjubjub.random()]. *)
Definition babyjubjub_random : M Bytes :=
  let* seed := random_bytes 32 in
  ret (babyjubjub_of_seed seed).

(** utils/encryption.ts lines 25-50, [aes.ctr.encrypt]; the default
    initialization vector is [random(16)]. *)
Definition aes_ctr_encrypt (plaintext : list BytesData) (key : BytesData)
    (iv : option BytesData) : M Ciphertext :=
  let* iv := match iv with
             | Some v => ret v
             | None => let* r := random_bytes 16 in ret (BStr r)
             end in
  let plaintextFormatted := map bytes.hexlify plaintext in
  let keyFormatted := bytes.padToLength key 32 in
  let ivFormatted := bytes.hexlify iv in
  let* blocks := lift (aes256ctr keyFormatted ivFormatted plaintextFormatted) in
  ret {| iv := BStr ivFormatted; data := map BStr blocks |}.

(** Modelled from the spec: [ERC20Note.encrypt] (section 4.B), AES-256-CTR
    over the three blocks pubkey, random || amount (16+16), token. *)
Definition note_encrypt (note : ERC20Note) (sharedKey : Bytes) : M Ciphertext :=
  aes_ctr_encrypt
    [ BStr (pubkey note);
      BStr (bytes.padToLength (BStr (random note)) 16
            ++ bytes.padToLength (BBN (amount note)) 16);
      BStr (token note) ]
    (BStr sharedKey) None.

(** Modelled from the spec: the [hash] of a note, its commitment
    Poseidon(pubkey.x, pubkey.y, amount, random, token) (section 3). *)
Definition note_hash (note : ERC20Note) : Res Bytes :=
  match unpackPoint (pubkey note) with
  | Ok (x, y) =>
      Ok (poseidon [x; y; bytes.hexlify (BBN (amount note)); random note; token note])
  | Throw e => Throw e
  | OutOfFuel => OutOfFuel
  end.

(** A synchronous [map] whose callback runs in [M]: it stops at the
    first exception. *)
Fixpoint mapM {A B} (f : A -> M B) (l : list A) : M (list B) :=
  match l with
  | [] => ret []
  | x :: rest =>
      let* y := f x in
      let* ys := mapM f rest in
      ret (y :: ys)
  end.

End Entropy.

(** ** AES decryption (utils/encryption.ts) *)

(** node's [crypto.createDecipheriv('aes-256-ctr', key, iv)], fed the
    blocks in order. *)
Class Decipher : Type := {
  aes256ctr_decipher : Bytes -> Bytes -> list Bytes -> Res (list Bytes);  (* key, iv, blocks *)
}.

(** Modelled from the spec: [bytes.trim(data, length)] keeps [length]
    bytes of the data ("IV to 16", section 4.A); which end is cut does not
    matter for data of that length, the only case used below. *)
Definition trim (d : BytesData) (len : nat) : Bytes :=
  let bs := bytes.hexlify d in
  drop (length bs - len) bs.

Section Decryption.
Context {dc : Decipher}.

(** utils/encryption.ts lines 58-77, [aes.ctr.decrypt]. *)
Definition aes_ctr_decrypt (ciphertext : Ciphertext) (key : BytesData)
  : Res (list BytesData) :=
  let ciphertextFormatted := map bytes.hexlify (data ciphertext) in
  let keyFormatted := bytes.padToLength key 32 in
  let ivFormatted := trim (iv ciphertext) 16 in
  match aes256ctr_decipher keyFormatted ivFormatted ciphertextFormatted with
  | Ok blocks => Ok (map BStr blocks)
  | Throw e => Throw e
  | OutOfFuel => OutOfFuel
  end.

End Decryption.

(** ** Transaction builder (transaction/erc20.ts) *)

Module ERC20Transaction.

Record AdaptID : Type := {
  contract : BytesData;
  parameters : BytesData;
}.

Record Commitment : Type := {
  c_hash : BytesData;
  c_ciphertext : list BytesData;
  c_senderPubKey : BytesData;
  c_revealKey : list BytesData;
}.

Record ERC20TransactionSerialized : Type := {
  s_proof : Prover.Proof;
  s_adaptID : AdaptID;
  s_deposit : BytesData;
  s_withdraw : BytesData;
  s_tokenType : BytesData;
  s_tokenSubID : BytesData;
  s_token : BytesData;
  s_withdrawAddress : BytesData;
  s_treeNumber : BytesData;
  s_merkleRoot : BytesData;
  s_nullifiers : list BytesData;
  s_commitments : list Commitment;
}.

Definition NOTE_INPUTS_small : nat := 2.
Definition NOTE_INPUTS_large : nat := 10.
Definition NOTE_OUTPUTS : nat := 3.

(** The fields of the class; [tree] and [withdrawAddress] may be
    [undefined]. *)
Record ERC20Transaction : Type := {
  adaptID : AdaptID;
  chainID : nat;
  token_ : Bytes;  (* the field [token] *)
  outputs : list ERC20Note;
  deposit : Z;
  withdraw : Z;
  tokenType : BytesData;
  tokenSubID : Z;
  withdrawAddress : option Bytes;
  tree : option nat;
}.

(** Lines 81-85, with the defaults of lines 52-73. *)
Definition new_ERC20Transaction (token : BytesData) (chainID : nat) (tree : option nat)
  : ERC20Transaction :=
  {| adaptID := {| contract := BStr [x00]; parameters := BStr [x00] |};
     chainID := chainID;
     token_ := bytes.padToLength token 32;
     outputs := [];
     deposit := 0;
     withdraw := 0;
     tokenType := BStr [x00];
     tokenSubID := 0;
     withdrawAddress := None;
     tree := tree |}.

Record Generated : Type := {
  inputs : Prover.ERC20PrivateInputs;
  commitments : list Commitment;
}.

Record Encrypted : Type := {
  e_senderPubKey : Bytes;
  e_ciphertext : list BytesData;
  e_revealKey : list BytesData;
}.

(** Sum of the note amounts of a list of TXOs (the [reduce] of lines
    181-183 and 285-286). *)
Definition sumTXOs (utxos : list TXO) : Z :=
  fold_left (fun left right => left + amount (txo_note right)) utxos 0.

Definition sumNotes (notes : list ERC20Note) : Z :=
  fold_left (fun left right => left + amount right) notes 0.

(** Lines 159-173: [sort] by decreasing amount; equal amounts keep their
    order. *)
Fixpoint insertDesc (u : TXO) (l : list TXO) : list TXO :=
  match l with
  | [] => [u]
  | v :: rest =>
      if amount (txo_note v) <=? amount (txo_note u) then u :: v :: rest
      else v :: insertDesc u rest
  end.
Definition sortDesc (l : list TXO) : list TXO := foldr insertDesc [] l.

(** Lines 177-187: the [while] loop.  [available] is what is left of the
    sorted UTXOs after the ones already pushed; reading past the end
    pushes [undefined], whose [note] the next test cannot read. *)
Fixpoint accumulate (totalRequired : Z) (available utxos : list TXO) : Res (list TXO) :=
  match available with
  | [] => if sumTXOs utxos <? totalRequired then Throw TypeError else Ok utxos
  | next :: rest =>
      if sumTXOs utxos <? totalRequired
      then accumulate totalRequired rest (utxos ++ [next])
      else Ok utxos
  end.

(** [findIndex((value) => value.length > 0)]: every slot is visited, and
    an empty slot is [undefined]. *)
Fixpoint findIndex_from (solutions : JSArray.t (list TXO)) (i : nat) : Res (option nat) :=
  match solutions with
  | [] => Ok None
  | None :: _ => Throw TypeError
  | Some value :: rest =>
      if (0 <? length value)%nat then Ok (Some i) else findIndex_from rest (S i)
  end.
Definition findIndex (solutions : JSArray.t (list TXO)) : Res (option nat) :=
  findIndex_from solutions 0.

(** [Array.prototype.map] over a sparse array: holes are skipped and
    kept. *)
Fixpoint mapSparse {A B} (f : A -> nat -> M B) (arr : JSArray.t A) (i : nat)
  : M (JSArray.t B) :=
  match arr with
  | [] => ret []
  | None :: rest =>
      let* ys := mapSparse f rest (S i) in
      ret (None :: ys)
  | Some x :: rest =>
      let* y := f x i in
      let* ys := mapSparse f rest (S i) in
      ret (Some y :: ys)
  end.

Section WithPrimitives.
Context {cr : Crypto} {sn : Prover.Snark}.

(** Lines 90-97. *)
Definition adaptIDhash (tx : ERC20Transaction) : Bytes :=
  sha256 (bytes.combine
            [ BStr (bytes.padToLength (contract (adaptID tx)) 32);
              BStr (bytes.padToLength (parameters (adaptID tx)) 32) ]).

(** Lines 196-212: one dummy note for an input slot. *)
Definition dummyInput (tx : ERC20Transaction) (tree : nat) : M TXO :=
  let* seed := random_bytes 32 in
  let dummyKey := seedToPrivateKey seed in
  let* rnd := babyjubjub_random in
  ret {| txo_tree := tree;
         txo_position := 0;
         txo_index := 0;
         txo_change := false;
         txo_txid := [];
         txo_spendtxid := None;
         txo_dummyKey := Some dummyKey;
         txo_note := new_ERC20Note (BStr (privateKeyToPubKey dummyKey)) (BStr rnd)
                       (BStr [x00]) (BStr (token_ tx)) |}.

Fixpoint dummyInputs (tx : ERC20Transaction) (tree : nat) (count : nat) : M (list TXO) :=
  match count with
  | O => ret []
  | S n =>
      let* d := dummyInput tx tree in
      let* ds := dummyInputs tx tree n in
      ret (d :: ds)
  end.

(** Lines 189-223: [fillUTXOs(length)], on the sorted UTXOs of the
    tree and the UTXOs selected so far. *)
Definition fillUTXOs (tx : ERC20Transaction) (tree : nat) (sorted utxos : list TXO)
    (len : nat) : M (list TXO) :=
  if decide (length sorted < len)%nat then
    let* dummies := dummyInputs tx tree (len - length sorted) in
    ret (sorted ++ dummies)
  else
    ret (utxos ++ take (len - length utxos) (rev sorted)).

(** Lines 154-234: the callback of [treeSortedBalances.map]. *)
Definition solveTree (tx : ERC20Transaction) (totalRequired : Z)
    (treeBalance : Wallet.TokenBalance) (tree : nat) : M (list TXO) :=
  if Wallet.balance treeBalance <? totalRequired then ret []
  else
    let sorted := sortDesc (Wallet.utxos treeBalance) in
    let* utxos := lift (accumulate totalRequired sorted []) in
    if decide (length utxos <= NOTE_INPUTS_small)%nat then
      fillUTXOs tx tree sorted utxos NOTE_INPUTS_small
    else if decide (length utxos <= NOTE_INPUTS_large)%nat then
      fillUTXOs tx tree sorted utxos NOTE_INPUTS_large
    else ret [].

(** Lines 257-282: the loop over the chosen solution.  An empty
    [dummyKey] string is falsy. *)
Definition spendInput (tx : ERC20Transaction) (wallet : Wallet.Wallet)
    (encryptionKey : BytesData) (tree : nat) (utxo : TXO)
  : M (Bytes * Bytes * list Bytes * Z) :=
  let dummy := match txo_dummyKey utxo with
               | Some k => if bytes.truthy k then Some k else None
               | None => None
               end in
  let* privateKey :=
    match dummy with
    | Some k => ret k
    | None =>
        let* keypair := lift (Wallet.getKeypair wallet encryptionKey
                                (txo_index utxo) (txo_change utxo)) in
        ret (Wallet.privateKey keypair)
    end in
  let nullifier := Wallet.getNullifier privateKey tree (txo_position utxo) in
  let* elements :=
    match dummy with
    | Some _ => ret (replicate depths_erc20 [x00])
    | None =>
        match JSArray.get (Wallet.merkletree wallet) (chainID tx) with
        | None => throw TypeError
        | Some mt => lift (Wallet.getProof mt tree (txo_position utxo))
        end
    end in
  ret (privateKey, nullifier, elements, Z.of_nat (txo_position utxo)).

(** Lines 311-316: one dummy note for an output slot. *)
Definition dummyOutput (tx : ERC20Transaction) : M ERC20Note :=
  let* seed := random_bytes 32 in
  let* rnd := babyjubjub_random in
  ret (new_ERC20Note (BStr (privateKeyToPubKey (seedToPrivateKey seed))) (BStr rnd)
         (BBN 0) (BStr (token_ tx))).

(** Lines 309-318: [while (commitments.length < NOTE_OUTPUTS)]. *)
Fixpoint padOutputs (tx : ERC20Transaction) (count : nat) : M (list ERC20Note) :=
  match count with
  | O => ret []
  | S n =>
      let* d := dummyOutput tx in
      let* ds := padOutputs tx n in
      ret (d :: ds)
  end.

(** Lines 321-334: the callback of [commitments.map]. *)
Definition encryptOutput (wallet : Wallet.Wallet) (encryptionKey : BytesData)
    (commitment : ERC20Note) : M Encrypted :=
  let* seed := random_bytes 32 in
  let senderPrivateKey := seedToPrivateKey seed in
  let senderPubKey := privateKeyToPubKey senderPrivateKey in
  let* sharedKey := lift (ecdh senderPrivateKey (pubkey commitment)) in
  let* encrypted := note_encrypt commitment sharedKey in
  let* viewKey := lift (Wallet.getViewKey wallet encryptionKey) in
  let* revealKey := aes_ctr_encrypt [BStr sharedKey] (BStr viewKey) None in
  ret {| e_senderPubKey := senderPubKey;
         e_ciphertext := BStr (bytes.padToLength (iv encrypted) 32) :: data encrypted;
         e_revealKey := iv revealKey :: data revealKey |}.

(** Lines 337-352: the elements hashed into [ciphertextHash], for one
    output. *)
Definition hashedElements (c : Encrypted) : Res (list BytesData) :=
  match unpackPoint (e_senderPubKey c) with
  | Ok (x, y) => Ok ([BStr x; BStr y] ++ e_ciphertext c ++ e_revealKey c)
  | Throw e => Throw e
  | OutOfFuel => OutOfFuel
  end.

(** Lines 120-386. *)
Definition generateInputs (tx : ERC20Transaction) (wallet : Wallet.Wallet)
    (encryptionKey : BytesData) : M Generated :=
  let totalRequired := sumNotes (outputs tx) + withdraw tx - deposit tx in
  if (2 <? length (outputs tx))%nat then throw TooManyOutputs
  else
  match head (filter (fun io => token (snd io) <> token_ tx)
                (imap (fun i o => (i, o)) (outputs tx))) with
  | Some (index, _) => throw (TokenIDMismatch index)
  | None =>
  let* byTree := Wallet.balancesByTree wallet (chainID tx) in
  let treeSortedBalances := default [] (byTree !! token_ tx) in
  let balance :=
    fold_left (fun left right =>
                 match right with
                 | Some entry => left + Wallet.balance entry
                 | None => left
                 end) treeSortedBalances 0 in
  if balance <? totalRequired then throw WalletBalanceTooLow
  else
  let* solutions := mapSparse (solveTree tx totalRequired) treeSortedBalances 0 in
  let* tree :=
    match tree tx with
    | Some (S t) => ret (Some (S t))
    | _ => lift (findIndex solutions)
    end in
  match tree with
  | None => throw NeedsConsolidation
  | Some tree =>
  if (0 <? withdraw tx) && negb (bytes.defined (withdrawAddress tx))
  then throw WithdrawAddressNotSet
  else if (withdraw tx =? 0) && bytes.defined (withdrawAddress tx)
  then throw WithdrawShouldntBeSet
  else
  match JSArray.get solutions tree with
  | None => throw TypeError
  | Some solution =>
  let* spent := mapM (spendInput tx wallet encryptionKey tree) solution in
  let spendingKeys := map (fun s => BStr s.1.1.1) spent in
  let nullifiers := map (fun s => BStr s.1.1.2) spent in
  let pathElements := map (fun s => map BStr s.1.2) spent in
  let pathIndices := map (fun s => BBN s.2) spent in
  let totalIn := sumTXOs solution + deposit tx in
  let totalOut := sumNotes (outputs tx) + withdraw tx in
  let change := totalIn - totalOut in
  let* changeKey := lift (Wallet.getKeypair wallet encryptionKey 0 true) in
  let* changeRandom := babyjubjub_random in
  let commitments :=
    outputs tx
    ++ [new_ERC20Note (BStr (Wallet.kp_pubkey changeKey)) (BStr changeRandom)
          (BBN change) (BStr (token_ tx))] in
  let* dummies := padOutputs tx (NOTE_OUTPUTS - length commitments) in
  let commitments := commitments ++ dummies in
  let* ciphertext := mapM (encryptOutput wallet encryptionKey) commitments in
  let* hashed := lift (Prover.mapRes hashedElements ciphertext) in
  let ciphertextHash :=
    bytes.numberify
      (BStr (sha256 (bytes.combine
                       (map (fun value => BStr (bytes.padToLength value 32))
                            (concat hashed)))))
    mod constants.SNARK_PRIME in
  let* merkleRoot :=
    match JSArray.get (Wallet.merkletree wallet) (chainID tx) with
    | None => throw TypeError
    | Some mt => lift (Wallet.getRoot mt tree)
    end in
  let* hashes := lift (Prover.mapRes note_hash commitments) in
  ret {| inputs :=
           {| Prover.adaptID :=
                BBN (bytes.numberify (BStr (adaptIDhash tx)) mod constants.SNARK_PRIME);
              Prover.depositAmount := BBN (deposit tx);
              Prover.withdrawAmount := BBN (withdraw tx);
              Prover.tokenField := BStr (token_ tx);
              Prover.outputTokenField :=
                if (0 <? deposit tx) || (0 <? withdraw tx)
                then BStr (token_ tx) else BStr [x00];
              Prover.outputEthAddress :=
                match withdrawAddress tx with
                | Some a => if bytes.truthy a then BStr a else BStr [x00]
                | None => BStr [x00]
                end;
              Prover.randomIn := map (fun utxo => BStr (random (txo_note utxo))) solution;
              Prover.valuesIn := map (fun utxo => BBN (amount (txo_note utxo))) solution;
              Prover.spendingKeys := spendingKeys;
              Prover.treeNumber := BBN (Z.of_nat tree);
              Prover.merkleRoot := BStr merkleRoot;
              Prover.nullifiers := nullifiers;
              Prover.pathElements := pathElements;
              Prover.pathIndices := pathIndices;
              Prover.recipientPK := map (fun output => BStr (pubkey output)) commitments;
              Prover.randomOut := map (fun output => BStr (random output)) commitments;
              Prover.valuesOut := map (fun output => BBN (amount output)) commitments;
              Prover.commitmentsOut := map BStr hashes;
              Prover.ciphertextHash := BBN ciphertextHash |};
         commitments :=
           zip_with (fun h c =>
                       {| c_hash := BStr h;
                          c_ciphertext := e_ciphertext c;
                          c_senderPubKey := BStr (e_senderPubKey c);
                          c_revealKey := e_revealKey c |})
                    hashes ciphertext |}
  end end end.

(** Lines 128-131, 285-293: the amounts [generateInputs] computes. *)
Definition totalRequired (tx : ERC20Transaction) : Z :=
  sumNotes (outputs tx) + withdraw tx - deposit tx.
Definition changeAmount (tx : ERC20Transaction) (solution : list TXO) : Z :=
  (sumTXOs solution + deposit tx) - (sumNotes (outputs tx) + withdraw tx).

(** Lines 298-306: the change note, from the key pair the wallet derives
    and the nonce drawn. *)
Definition changeNote (tx : ERC20Transaction) (changeKey : Wallet.Keypair)
    (changeRandom : Bytes) (solution : list TXO) : ERC20Note :=
  new_ERC20Note (BStr (Wallet.kp_pubkey changeKey)) (BStr changeRandom)
    (BBN (changeAmount tx solution)) (BStr (token_ tx)).

(** Lines 145-148: the sum of the balances of the trees. *)
Definition sumBalances (treeSortedBalances : JSArray.t Wallet.TokenBalance) : Z :=
  fold_left (fun left right =>
               match right with
               | Some entry => left + Wallet.balance entry
               | None => left
               end) treeSortedBalances 0.

(** A tree without a solution: its balance is below the amount required,
    or the greedy selection takes more than [NOTE_INPUTS.large] UTXOs. *)
Definition needsMoreThanLarge (required : Z) (treeBalance : Wallet.TokenBalance) : Prop :=
  exists selected,
    accumulate required (sortDesc (Wallet.utxos treeBalance)) [] = Ok selected
    /\ (NOTE_INPUTS_large < length selected)%nat.
Definition noSolution (required : Z) (treeBalance : Wallet.TokenBalance) : Prop :=
  Wallet.balance treeBalance < required \/ needsMoreThanLarge required treeBalance.

(** Lines 395-423. *)
Definition prove (tx : ERC20Transaction) (prover : Prover.Prover)
    (wallet : Wallet.Wallet) (encryptionKey : BytesData)
  : M ERC20TransactionSerialized :=
  let* generated := generateInputs tx wallet encryptionKey in
  let circuit :=
    if decide (length (Prover.nullifiers (inputs generated)) = NOTE_INPUTS_small)
    then Prover.erc20small else Prover.erc20large in
  let* proof := Prover.prove prover circuit (inputs generated) in
  ret {| s_proof := proof.1;
         s_adaptID := adaptID tx;
         s_deposit := Prover.depositAmount (inputs generated);
         s_withdraw := Prover.withdrawAmount (inputs generated);
         s_token := Prover.outputTokenField (inputs generated);
         s_tokenType := tokenType tx;
         s_tokenSubID := BBN (tokenSubID tx);
         s_withdrawAddress := Prover.outputEthAddress (inputs generated);
         s_treeNumber := Prover.treeNumber (inputs generated);
         s_merkleRoot := Prover.merkleRoot (inputs generated);
         s_nullifiers := Prover.nullifiers (inputs generated);
         s_commitments := commitments generated |}.

(** The circuit [prove] routes to. *)
Definition circuitFor (generated : Generated) : Prover.Circuits :=
  if decide (length (Prover.nullifiers (inputs generated)) = NOTE_INPUTS_small)
  then Prover.erc20small else Prover.erc20large.

End WithPrimitives.

Definition sumValues (values : list BytesData) : Z :=
  foldr (fun value total => bytes.numberify value + total) 0 values.

End ERC20Transaction.

(** ** Contract events (contract/erc20/index.ts) *)

Module ERC20RailgunContract.

Definition SCAN_CHUNKS : N := 500.
Definition MAX_SCAN_RETRIES : nat := 5.

(** [CommitmentEvent] and the merkle tree's [Nullifier]. *)
Record CommitmentEvent : Type := {
  ce_txid : Bytes;
  ce_treeNumber : nat;
  ce_startPosition : nat;
  ce_commitments : list Commitment;
}.

Record Nullifier : Type := {
  n_txid : Bytes;
  n_nullifier : Bytes;
}.

(** The lines the contract hands to the debugger, by message. *)
Inductive LogLine : Type :=
  | ScanQueryError (startBlock : N) (retriesLeft : nat)
      (* 'Scan query error at block b. Retrying n times.' *)
  | ScanFailed (startBlock : N)
      (* 'Scan failed at block b. No longer retrying.' *)
  | ErrorLine (err : Error)                     (* [leptonDebugger.error(err)] *)
  | ScanningHistorical (startBlock latest : N)
      (* 'Scanning historical events from block b to l' *)
  | ScanningNext (currentStartBlock : N)
      (* 'Scanning next 10,000 events [b]...' *)
  | FinishedHistorical.                         (* 'Finished historical event scan' *)

(** What the contract object asks of the outside, in the order it asks:
    the provider, the debugger and the callbacks it was given. *)
Inductive Call : Type :=
  | GetBlockLatest
  | QueryFilter (fromBlock toBlock : N)
  | Log (line : LogLine)
  | EventsListener (event : CommitmentEvent)
  | EventsNullifierListener (nullifiers : list Nullifier)
  | SetLastSyncedBlock (lastSyncedBlock : N).

(** How an awaited promise of the outside settles. *)
Inductive Settled (A : Type) : Type :=
  | Resolved (a : A)
  | Rejected (err : Error).
Arguments Resolved {A} a.
Arguments Rejected {A} err.

Definition settle {A} (p : Settled A) : Res A :=
  match p with Resolved a => Ok a | Rejected err => Throw err end.

Section WithProvider.

(** An event as ethers decodes it: the arguments by event name, or no
    arguments; the raw commitments are formatted by contract/erc20/events,
    which may throw.  Block numbers, tree numbers and start positions are
    natural numbers: [toNumber] is taken not to overflow. *)
Variables GeneratedCommitmentArgs EncryptedCommitmentArgs NullifierArg : Type.

Inductive EventArgs : Type :=
  | GeneratedCommitmentBatch (treeNumber startPosition : nat)
      (commitments : list GeneratedCommitmentArgs)
  | EncryptedCommitmentBatch (treeNumber startPosition : nat)
      (commitments : list EncryptedCommitmentArgs)
  | NullifierEvent (nullifier : NullifierArg)
  | OtherEvent.

Record Event : Type := {
  args : option EventArgs;
  transactionHash : Bytes;
}.

Variable formatGeneratedCommitmentBatchCommitments :
  Bytes -> list GeneratedCommitmentArgs -> Res (list Commitment).
Variable formatEncryptedCommitmentBatchCommitments :
  Bytes -> list EncryptedCommitmentArgs -> Res (list Commitment).
Variable formatNullifier : Bytes -> NullifierArg -> Res Nullifier.

(** The outside: what the n-th [queryFilter] call answers for a range, the
    latest block, and how the awaited callbacks end. *)
Record Outside : Type := {
  queryFilter : nat -> N -> N -> Settled (list Event);   (* call number, from, to *)
  latestBlock : Settled N;
  eventsNullifierListener : list Nullifier -> Settled unit;
  setLastSyncedBlock : N -> Settled unit;
  leptonDebugger : bool;                 (* whether a debugger was given *)
}.

Variable outside : Outside.

(** Computations of the contract object: they add to the calls made so
    far. *)
Definition C (A : Type) : Type := list Call -> Res A * list Call.

Definition cret {A} (a : A) : C A := fun calls => (Ok a, calls).
Definition cbind {A B} (m : C A) (k : A -> C B) : C B :=
  fun calls =>
    match m calls with
    | (Ok a, calls') => k a calls'
    | (Throw e, calls') => (Throw e, calls')
    | (OutOfFuel, calls') => (OutOfFuel, calls')
    end.
Definition call {A} (c : Call) (outcome : Settled A) : C A :=
  fun calls => (settle outcome, calls ++ [c]).

(** [this.leptonDebugger?.log(...)] and [?.error(...)]. *)
Definition debug (lines : list LogLine) : list Call :=
  if leptonDebugger outside then map Log lines else [].
Definition logged (line : LogLine) : C unit :=
  fun calls => (Ok tt, calls ++ debug [line]).

Definition isQuery (c : Call) : bool :=
  match c with QueryFilter _ _ => true | _ => false end.

(** The [queryFilter] calls made so far. *)
Definition queriesMade (calls : list Call) : nat :=
  length (List.filter isQuery calls).

(** Lines 155-187, on the retries that are left. *)
Fixpoint scanEventsFrom (retriesLeft : nat) (startBlock : N) (retryCount : nat)
  : C (list Event) :=
  fun calls =>
    let toBlock := (startBlock + SCAN_CHUNKS)%N in
    match queryFilter outside (queriesMade calls) startBlock toBlock with
    | Resolved events => (Ok events, calls ++ [QueryFilter startBlock toBlock])
    | Rejected err =>
        let calls := calls ++ [QueryFilter startBlock toBlock] in
        if (retryCount <? MAX_SCAN_RETRIES)%nat then
          let retry := (retryCount + 1)%nat in
          let calls :=
            calls ++ debug [ScanQueryError startBlock (MAX_SCAN_RETRIES - retry);
                            ErrorLine err] in
          match retriesLeft with
          | O => (OutOfFuel, calls)
          | S remaining => scanEventsFrom remaining startBlock retry calls
          end
        else
          (Throw err, calls ++ debug [ScanFailed startBlock; ErrorLine err])
    end.

Definition scanEvents (startBlock : N) (retryCount : nat) : C (list Event) :=
  scanEventsFrom (MAX_SCAN_RETRIES - retryCount) startBlock retryCount.

(** Lines 242-275: the [forEach].  The callback is asynchronous and its
    promise is dropped: a listener is started with the formatted event and
    not awaited, an exception of a formatter ends the callback of that event
    only, and the nullifiers are collected as the events go by. *)
Fixpoint forEachEvent (events : list Event) (nullifiers : list Nullifier)
  : list Call * list Nullifier :=
  match events with
  | [] => ([], nullifiers)
  | event :: rest =>
      let '(started, nullifiers') :=
        match args event with
        | None => ([], nullifiers)
        | Some (GeneratedCommitmentBatch treeNumber startPosition commitments) =>
            match formatGeneratedCommitmentBatchCommitments
                    (transactionHash event) commitments with
            | Ok formatted =>
                ([EventsListener
                    {| ce_txid := bytes.hexlify (BStr (transactionHash event));
                       ce_treeNumber := treeNumber;
                       ce_startPosition := startPosition;
                       ce_commitments := formatted |}], nullifiers)
            | _ => ([], nullifiers)
            end
        | Some (EncryptedCommitmentBatch treeNumber startPosition commitments) =>
            match formatEncryptedCommitmentBatchCommitments
                    (transactionHash event) commitments with
            | Ok formatted =>
                ([EventsListener
                    {| ce_txid := bytes.hexlify (BStr (transactionHash event));
                       ce_treeNumber := treeNumber;
                       ce_startPosition := startPosition;
                       ce_commitments := formatted |}], nullifiers)
            | _ => ([], nullifiers)
            end
        | Some (NullifierEvent nullifier) =>
            match formatNullifier (transactionHash event) nullifier with
            | Ok formatted => ([], nullifiers ++ [formatted])
            | _ => ([], nullifiers)
            end
        | Some OtherEvent => ([], nullifiers)
        end in
      let '(later, final) := forEachEvent rest nullifiers' in
      (started ++ later, final)
  end.

(** Lines 234-278. *)
Definition processEvents (commitmentEvents : list Event) : C unit :=
  fun calls =>
    let '(started, nullifiers) := forEachEvent commitmentEvents [] in
    call (EventsNullifierListener nullifiers)
      (eventsNullifierListener outside nullifiers) (calls ++ started).

(** Lines 215-229: the [while] loop, on fuel. *)
Fixpoint historicalLoop (fuel : nat) (startBlock currentStartBlock latest : N)
  : C unit :=
  if (currentStartBlock <? latest)%N then
    match fuel with
    | O => fun calls => (OutOfFuel, calls)
    | S fuel' =>
        cbind (if ((currentStartBlock - startBlock) mod 10000 =? 0)%N
               then logged (ScanningNext currentStartBlock)
               else cret tt) (fun _ =>
        cbind (scanEvents currentStartBlock 0) (fun events =>
        cbind (processEvents events) (fun _ =>
        cbind (call (SetLastSyncedBlock currentStartBlock)
                 (setLastSyncedBlock outside currentStartBlock)) (fun _ =>
        historicalLoop fuel' startBlock (currentStartBlock + SCAN_CHUNKS)%N latest))))
    end
  else cret tt.

(** The number of chunks of [SCAN_CHUNKS] blocks from [startBlock] up to
    [latest]. *)
Definition chunkCount (startBlock latest : N) : nat :=
  N.to_nat ((latest - startBlock + (SCAN_CHUNKS - 1)) / SCAN_CHUNKS).

(** Lines 194-232; the fuel of the loop is the number of chunks. *)
Definition getHistoricalEvents (startBlock : N) : C unit :=
  cbind (call GetBlockLatest (latestBlock outside)) (fun latest =>
  cbind (logged (ScanningHistorical startBlock latest)) (fun _ =>
  cbind (historicalLoop (chunkCount startBlock latest) startBlock startBlock latest)
    (fun _ =>
  logged FinishedHistorical))).

End WithProvider.

(** The start blocks of the chunks from [startBlock] up to [latest]. *)
Definition chunkStarts (startBlock latest : N) : list N :=
  map (fun i => (startBlock + SCAN_CHUNKS * N.of_nat i)%N)
    (seq 0 (chunkCount startBlock latest)).

Definition isSync (c : Call) : bool :=
  match c with SetLastSyncedBlock _ => true | _ => false end.

End ERC20RailgunContract.

(** ** Small concrete collaborators, for evaluating the model *)

Module Toy.

(** Primitives that compute: the digest keeps the input, a point whose
    encoding starts with [xff] is off the curve, the cipher is the
    identity, and an encrypted note is its four fields in the clear. *)
Definition off_curve (pk : Bytes) : bool :=
  match pk with xff :: _ => true | _ => false end.

#[export] Instance crypto : Crypto := {|
  sha256 := fun bs => bs;
  poseidon := fun l => concat l;
  seedToPrivateKey := fun seed => seed;
  privateKeyToPubKey := fun sk => sk;
  unpackPoint := fun pk => if off_curve pk then Throw InvalidPoint else Ok (pk, pk);
  ecdh := fun sk pk => if off_curve pk then Throw InvalidPoint else Ok (sk ++ pk);
  babyjubjub_of_seed := fun seed => seed;
  aes256ctr := fun _ _ blocks => Ok blocks;
  randomBytes := fun draw len => repeat (bytes.byte_of_N (N.of_nat draw)) len;
  note_decrypt := fun ct _ =>
    match data ct with
    | [pk; rnd; amt; tok] => Ok (new_ERC20Note pk rnd amt tok)
    | _ => Throw MalformedNote
    end;
  note_deserialize := fun n => Ok n;
  depths_erc20 := 16;
|}.

(** A Groth16 back end whose verifier accepts exactly under the
    verification key [[x01]]. *)
#[export] Instance snark : Prover.Snark := {|
  Prover.native_prove := fun _ => Ok [x00];
  Prover.groth16_prove := fun _ _ _ =>
    Ok {| pi_a := ("1", "2"); pi_b := (("3", "4"), ("5", "6")); pi_c := ("7", "8") |}%string;
  Prover.groth16_verify := fun vk _ _ => Ok (bool_decide (vk = [x01]));
|}.

Definition accepting : Prover.Prover :=
  {| Prover.artifactsGetter := fun _ => Ok {| zkey := []; wasm := []; vkey := [x01] |} |}.
Definition rejecting : Prover.Prover :=
  {| Prover.artifactsGetter := fun _ => Ok {| zkey := []; wasm := []; vkey := [x02] |} |}.

Definition world0 : World :=
  {| db := ∅; details := None; scanLockPerChain := ∅; entropy := 0; files := ∅ |}.

Definition privateInputs0 : Prover.PrivateInputs :=
  {| Prover.adaptID := BBN 0;
     Prover.tokenField := BStr [x01];
     Prover.depositAmount := BBN 0;
     Prover.withdrawAmount := BBN 0;
     Prover.outputTokenField := BStr [x00];
     Prover.outputEthAddress := BStr [x00];
     Prover.randomIn := [BStr [x01]; BStr [x02]];
     Prover.valuesIn := [BBN 5; BBN 0];
     Prover.spendingKeys := [BStr [x03]; BStr [x04]];
     Prover.treeNumber := BBN 0;
     Prover.merkleRoot := BStr [x09];
     Prover.nullifiers := [BStr [x0a]; BStr [x0b]];
     Prover.pathElements := [[BStr [x00]]; [BStr [x00]]];
     Prover.pathIndices := [BBN 0; BBN 0];
     Prover.recipientPK := [BStr [x05]; BStr [x06]; BStr [x07]];
     Prover.randomOut := [BStr [x01]; BStr [x02]; BStr [x03]];
     Prover.valuesOut := [BBN 5; BBN 0; BBN 0];
     Prover.commitmentsOut := [BStr [x0c]; BStr [x0d]; BStr [x0e]];
     Prover.ciphertextHash := BBN 77 |}.

(** A codec that is not Bech32 but inverts itself: the data in hex, a
    colon, the prefix. *)
Definition hex_val (c : ascii) : option N :=
  let n := N_of_ascii c in
  if ((48 <=? n) && (n <=? 57))%N then Some (n - 48)%N
  else if ((97 <=? n) && (n <=? 102))%N then Some (n - 87)%N
  else None.

Fixpoint unhex (s : string) : Res (string * Bytes) :=
  match s with
  | String c1 r1 =>
      if Ascii.eqb c1 ":" then Ok (r1, [])
      else
        match r1 with
        | String c2 r2 =>
            match hex_val c1, hex_val c2, unhex r2 with
            | Some h, Some l, Ok (prefix, bs) =>
                Ok (prefix, bytes.byte_of_N (16 * h + l) :: bs)
            | _, _, _ => Throw (External "bech32")
            end
        | EmptyString => Throw (External "bech32")
        end
  | EmptyString => Throw (External "bech32")
  end.

#[export] Instance bech32 : Bech32Encode.Bech32 := {|
  Bech32Encode.bech32encode := fun prefix data =>
    (Prover.hex_text data ++ String ":" prefix)%string;
  Bech32Encode.bech32decode := unhex;
|}.

(** A wallet on chain 1: the key at index [i] of the address node is
    [[x0a; i]], of the change node [[x0c; i]]. *)
Definition keyAt (tag : byte) (i : nat) : Wallet.Keypair :=
  {| Wallet.privateKey := [tag; bytes.byte_of_N (N.of_nat i)];
     Wallet.kp_pubkey := [tag; bytes.byte_of_N (N.of_nat i)] |}.

Definition mirror (trees : list (list Commitment)) : Wallet.MerkleTree :=
  {| Wallet.mt_chainID := 1;
     Wallet.latestTree := length trees - 1;
     Wallet.getTreeLength := fun tree => length (default [] (trees !! tree));
     Wallet.getCommitment := fun tree i => default [] (trees !! tree) !! i;
     Wallet.getNullified := fun _ => None;
     Wallet.getProof := fun _ _ => Ok (replicate 16 [x00]);
     Wallet.getRoot := fun _ => Ok [x09] |}.

Definition wallet (trees : list (list Commitment)) : Wallet.Wallet :=
  {| Wallet.encryptionKey := BStr [x01];
     Wallet.addressNode := keyAt x0a;
     Wallet.changeNode := keyAt x0c;
     Wallet.gapLimit := 5;
     Wallet.merkletree := JSArray.set 1 (mirror trees) [] |}.

Definition tokenA : Bytes := bytes.padToLength (BStr [xaa]) 32.

(** An unspent record of the given amount for the key at address index 0. *)
Definition stored (amt : Z) : StoredTXO :=
  {| st_index := 0;
     st_change := false;
     st_spendtxid := None;
     st_txid := [x77];
     st_nullifier := [x0f];
     st_decrypted :=
       {| pubkey := [x0a; x00]; random := [x05]; amount := amt; token := tokenA |} |}.

(** A world whose store holds, for chain 1, the given amounts at the
    given (tree, position) places. *)
Definition worldWith (notes : list (nat * nat * Z)) : World :=
  {| db := list_to_map (map (fun n => ((1%nat, n.1.1, n.1.2), stored n.2)) notes);
     details := None; scanLockPerChain := ∅; entropy := 0; files := ∅ |}.

(** A transfer of [amt] of token A to the key [[x0b]]. *)
Definition transfer (amt : Z) (tree : option nat) : ERC20Transaction.ERC20Transaction :=
  {| ERC20Transaction.adaptID :=
       {| ERC20Transaction.contract := BStr [x00];
          ERC20Transaction.parameters := BStr [x00] |};
     ERC20Transaction.chainID := 1;
     ERC20Transaction.token_ := tokenA;
     ERC20Transaction.outputs :=
       [ {| pubkey := [x0b]; random := [x06]; amount := amt; token := tokenA |} ];
     ERC20Transaction.deposit := 0;
     ERC20Transaction.withdraw := 0;
     ERC20Transaction.tokenType := BStr [x00];
     ERC20Transaction.tokenSubID := 0;
     ERC20Transaction.withdrawAddress := None;
     ERC20Transaction.tree := tree |}.

(** A cleartext deposit to the given key, and an encrypted leaf whose
    sender key is off the curve. *)
Definition leafTo (pk : Bytes) : Commitment :=
  GeneratedCommitment [x11] [x77]
    {| pubkey := pk; random := [x05]; amount := 7; token := tokenA |}.
Definition badLeaf : Commitment :=
  EncryptedCommitment [x12] [x78] [xff] {| iv := BStr []; data := [] |}.

(** A mirror of one tree that reports the nullifier [[x0f]] as spent in
    the transaction [[x99]], and a wallet on it. *)
Definition spendingMirror : Wallet.MerkleTree :=
  {| Wallet.mt_chainID := 1;
     Wallet.latestTree := 0;
     Wallet.getTreeLength := fun _ => 0%nat;
     Wallet.getCommitment := fun _ _ => None;
     Wallet.getNullified := fun n => if decide (n = [x0f]) then Some [x99] else None;
     Wallet.getProof := fun _ _ => Ok (replicate 16 [x00]);
     Wallet.getRoot := fun _ => Ok [x09] |}.

Definition spendingWallet : Wallet.Wallet :=
  {| Wallet.encryptionKey := BStr [x01];
     Wallet.addressNode := keyAt x0a;
     Wallet.changeNode := keyAt x0c;
     Wallet.gapLimit := 5;
     Wallet.merkletree := JSArray.set 1 spendingMirror [] |}.

(** An unspent TXO of tree 0 with the given position and amount. *)
Definition utxo (position : nat) (amt : Z) : TXO :=
  {| txo_tree := 0;
     txo_position := position;
     txo_index := 0;
     txo_change := false;
     txo_txid := [x77];
     txo_spendtxid := None;
     txo_dummyKey := None;
     txo_note := st_decrypted (stored amt) |}.

(** A decipher for the identity cipher. *)
#[export] Instance decipher : Decipher := {|
  aes256ctr_decipher := fun _ _ blocks => Ok blocks;
|}.

(** A provider at block 1200 whose first two queries fail, over events
    without arguments to format; no debugger. *)
Definition provider : ERC20RailgunContract.Outside unit unit unit :=
  {| ERC20RailgunContract.queryFilter := fun n _ _ =>
       if (n <? 2)%nat then ERC20RailgunContract.Rejected (External "timeout")
       else ERC20RailgunContract.Resolved [];
     ERC20RailgunContract.latestBlock := ERC20RailgunContract.Resolved 1200%N;
     ERC20RailgunContract.eventsNullifierListener := fun _ =>
       ERC20RailgunContract.Resolved tt;
     ERC20RailgunContract.setLastSyncedBlock := fun _ =>
       ERC20RailgunContract.Resolved tt;
     ERC20RailgunContract.leptonDebugger := false |}.

End Toy.

(** * Properties *)

(** ** Byte-vector facts *)

Section BytesFacts.

Lemma byte_val_range b : 0 <= bytes.byte_val b < 256.
Proof.
  unfold bytes.byte_val. pose proof (Byte.to_N_bounded b). lia.
Qed.

Lemma byte_val_of_N n : (n < 256)%N -> bytes.byte_val (bytes.byte_of_N n) = Z.of_N n.
Proof.
  intros Hn. unfold bytes.byte_val, bytes.byte_of_N.
  destruct (Byte.of_N n) as [b0|] eqn:E.
  - simpl. apply Byte.to_of_N in E. now rewrite E.
  - apply Byte.of_N_None_iff in E. lia.
Qed.

Lemma numberify_snoc (l : Bytes) b :
  bytes.numberify (BStr (l ++ [b])) = bytes.numberify (BStr l) * 256 + bytes.byte_val b.
Proof. unfold bytes.numberify. now rewrite fold_left_app. Qed.

Lemma numberify_rev (l : Bytes) : bytes.numberify (BStr (rev l)) = bytes.le_value l.
Proof.
  induction l as [|b0 l IH]; [reflexivity|].
  simpl rev. rewrite numberify_snoc, IH. simpl. lia.
Qed.

Lemma numberify_nonneg (l : Bytes) : 0 <= bytes.numberify (BStr l).
Proof.
  induction l as [|b0 l IH] using rev_ind; [simpl; lia|].
  rewrite numberify_snoc. pose proof (byte_val_range b0). lia.
Qed.

Lemma le_digits_value fuel : forall n,
  (n < 2 ^ N.of_nat fuel)%N -> bytes.le_value (bytes.le_digits fuel n) = Z.of_N n.
Proof.
  induction fuel as [|f IH]; intros n Hn.
  - simpl in *. assert (n = 0%N) by lia. now subst.
  - simpl bytes.le_digits. destruct (N.eqb_spec n 0) as [->|Hnz]; [reflexivity|].
    simpl bytes.le_value. rewrite byte_val_of_N by (apply N.mod_lt; lia).
    rewrite IH.
    + rewrite (N.div_mod n 256) at 3 by lia. lia.
    + apply N.Div0.div_lt_upper_bound.
      rewrite Nat2N.inj_succ, N.pow_succ_r' in Hn.
      assert (0 < 2 ^ N.of_nat f)%N by (apply N.neq_0_lt_0, N.pow_nonzero; lia).
      lia.
Qed.

(** The bytes of a non-negative [BN] read back as the same number. *)
Lemma numberify_bn_bytes n : 0 <= n -> bytes.numberify (BStr (bytes.bn_bytes n)) = n.
Proof.
  intros Hn. unfold bytes.bn_bytes.
  destruct (N.eqb_spec (Z.abs_N n) 0) as [E|E].
  - destruct n; [reflexivity | discriminate E | lia].
  - rewrite numberify_rev, le_digits_value.
    + rewrite N2Z.inj_abs_N. lia.
    + rewrite Nat2N.inj_succ, N2Nat.id.
      apply N.log2_spec. lia.
Qed.

Lemma padToLength_length d len :
  (length (bytes.hexlify d) <= len)%nat -> length (bytes.padToLength d len) = len.
Proof.
  intros Hl. unfold bytes.padToLength.
  rewrite length_app, repeat_length. lia.
Qed.

End BytesFacts.

(** ** Prover adapter *)

Section ProverFacts.
Context {cr : Crypto} {sn : Prover.Snark}.
Import Prover.

Lemma concat_map_pad (l : list BytesData) :
  concat (map bytes.hexlify (map (fun el => BStr (bytes.padToLength el 32)) l))
  = concat (map padTo32 l).
Proof. induction l as [|d l IH]; simpl; [reflexivity | now rewrite IH]. Qed.

Lemma hashInputs_preimage (i : PublicInputs) :
  bytes.combine
    (map (fun el => BStr (bytes.padToLength el 32))
       ([ pub_adaptID i; pub_depositAmount i; pub_withdrawAmount i;
          pub_outputTokenField i; pub_outputEthAddress i; pub_treeNumber i;
          pub_merkleRoot i ]
        ++ pub_nullifiers i ++ pub_commitmentsOut i ++ [ pub_ciphertextHash i ]))
  = padTo32 (pub_adaptID i) ++ padTo32 (pub_depositAmount i)
    ++ padTo32 (pub_withdrawAmount i) ++ padTo32 (pub_outputTokenField i)
    ++ padTo32 (pub_outputEthAddress i) ++ padTo32 (pub_treeNumber i)
    ++ padTo32 (pub_merkleRoot i)
    ++ concat (map padTo32 (pub_nullifiers i))
    ++ concat (map padTo32 (pub_commitmentsOut i))
    ++ padTo32 (pub_ciphertextHash i).
Proof.
  unfold bytes.combine. rewrite concat_map_pad.
  rewrite !map_app, !concat_app. simpl.
  rewrite !app_nil_r. now rewrite <- !app_assoc.
Qed.

Lemma spec_hashOfInputs_range (i : PublicInputs) :
  0 <= spec_hashOfInputs i < constants.SNARK_PRIME.
Proof. unfold spec_hashOfInputs. apply Z.mod_pos_bound. reflexivity. Qed.

(** C2.  [hashInputs] returns the byte form of sha256 over the
    concatenation of adaptID, depositAmount, withdrawAmount,
    outputTokenField, outputEthAddress, treeNumber, merkleRoot, every
    nullifier, every output commitment and ciphertextHash, each left-padded
    to 32 bytes, reduced modulo the SNARK prime; read back as a number it is
    that residue, which lies in [0, SNARK_PRIME). *)
Theorem hashInputs_matches_spec (inputs : PublicInputs) :
  hashInputs inputs = bytes.hexlify (BBN (spec_hashOfInputs inputs))
  /\ bytes.numberify (BStr (hashInputs inputs)) = spec_hashOfInputs inputs
  /\ 0 <= spec_hashOfInputs inputs
       < 21888242871839275222246405745257275088548364400416034343698204186575808495617.
Proof.
  assert (E : hashInputs inputs = bytes.hexlify (BBN (spec_hashOfInputs inputs))).
  { unfold hashInputs, spec_hashOfInputs. now rewrite hashInputs_preimage. }
  pose proof (spec_hashOfInputs_range inputs) as R.
  split; [exact E | split; [| exact R]].
  rewrite E. simpl. apply numberify_bn_bytes. lia.
Qed.

(** Every padded field of the preimage is 32 bytes long when the field
    itself has at most 32 bytes. *)
Lemma padTo32_length d :
  (length (bytes.hexlify d) <= 32)%nat -> length (padTo32 d) = 32%nat.
Proof. apply padToLength_length. Qed.

Lemma BN_of_decimal_toString10 n : BN_of_decimal (BN_toString10 n) = n.
Proof.
  unfold BN_of_decimal, BN_toString10.
  rewrite NilZero.isi.
  - apply DecimalZ.of_to.
  - destruct n; simpl; try discriminate.
    intros [= E]. now apply DecimalPos.Unsigned.to_uint_nonnil in E.
  - destruct n; simpl; try discriminate.
    intros [= E]. now apply DecimalPos.Unsigned.to_uint_nonnil in E.
Qed.

Lemma canonicalDecimal_roundtrip s :
  canonicalDecimal s -> BN_toString10 (BN_of_decimal s) = s.
Proof. intros [n ->]. now rewrite BN_of_decimal_toString10. Qed.

(** [verify] neither reads nor changes the world. *)
Lemma verify_world p circuit inputs proof w w0 :
  verify p circuit inputs proof w0 = (fst (verify p circuit inputs proof w), w0).
Proof.
  unfold verify, bind, lift. destruct (artifactsGetter p circuit); reflexivity.
Qed.

Lemma generate_public p circuit inputs w proof pub w' :
  generate p circuit inputs w = (Ok (proof, pub), w') ->
  pub = privateToPublicInputs inputs
  /\ exists raw art wt draw,
       artifactsGetter p circuit = Ok art
       /\ groth16_prove (zkey art) wt draw = Ok raw
       /\ proof = storedProof raw.
Proof.
  unfold generate, bind, lift, gets, modify, ret. intros E.
  destruct (artifactsGetter p circuit) as [art| |]; try discriminate.
  destruct (formatPrivateInputs inputs true); try discriminate.
  destruct (native_prove _); try discriminate.
  simpl in E.
  destruct (_ !! out_wtns) as [wt|]; try discriminate.
  destruct (groth16_prove (zkey art) wt (entropy w)) as [raw| |] eqn:Er;
    try discriminate.
  injection E as <- <- <-. split; [reflexivity|]. eauto 10.
Qed.

Lemma prove_inv p circuit inputs w proof pub w' :
  prove p circuit inputs w = (Ok (proof, pub), w') ->
  generate p circuit inputs w = (Ok (proof, pub), w')
  /\ verify p circuit pub proof w' = (Ok true, w').
Proof.
  unfold prove, bind. intros E.
  destruct (generate p circuit inputs w) as [[[pf pb]| |] w1]; try discriminate.
  cbv beta iota in E.
  rewrite (verify_world p circuit pb pf w1 w1) in E.
  destruct (fst (verify p circuit pb pf w1)) as [[|]| |] eqn:Ev;
    simpl in E; unfold throw, ret in E; try discriminate.
  injection E as <- <- <-.
  split; [reflexivity|]. now rewrite (verify_world p circuit pb pf w1 w1), Ev.
Qed.

(** C1.  A proof that [prove] returns verifies, against the public inputs
    derived from the private inputs it was given, in whatever world
    [verify] is run; and when the re-verification inside [prove] answers
    no, [prove] throws 'Proof generation failed' and returns no proof. *)
Theorem prove_returns_verified_proof p circuit inputs w :
  (forall proof pub w',
      prove p circuit inputs w = (Ok (proof, pub), w') ->
      pub = privateToPublicInputs inputs
      /\ forall w0, verify p circuit pub proof w0 = (Ok true, w0))
  /\ (forall proof pub w',
      generate p circuit inputs w = (Ok (proof, pub), w') ->
      verify p circuit pub proof w' = (Ok false, w') ->
      prove p circuit inputs w = (Throw ProofGenerationFailed, w')).
Proof.
  split.
  - intros proof pub w' E.
    destruct (prove_inv _ _ _ _ _ _ _ E) as [G V].
    split; [exact (proj1 (generate_public _ _ _ _ _ _ _ G))|].
    intros w0. rewrite (verify_world p circuit pub proof w' w0), V. reflexivity.
  - intros proof pub w' G V. unfold prove, bind. now rewrite G, V.
Qed.


End ProverFacts.

(** ** Address codec *)

Section Bech32Facts.
Context {b32 : Bech32Encode.Bech32}.
Import Bech32Encode.

(** bech32-buffer decodes what it encoded. *)
Hypothesis bech32_roundtrip : forall prefix data,
  bech32decode (bech32encode prefix data) = Ok (prefix, data).

Lemma prefixes_length : length prefixes = 138%nat.
Proof. reflexivity. Qed.

Lemma unknown_chain_no_prefix c :
  knownChain c = false -> JSArray.get prefixes c = None.
Proof.
  intros Hk. destruct (decide (c < 138)%nat) as [Hlt|Hge].
  - assert (Hall : forallb (fun i => knownChain i || bool_decide (JSArray.get prefixes i = None))
                           (seq 0 138) = true) by (vm_compute; reflexivity).
    rewrite List.forallb_forall in Hall.
    assert (Hin : In c (seq 0 138)) by (apply in_seq; lia).
    specialize (Hall c Hin). rewrite Hk in Hall. simpl in Hall.
    now apply bool_decide_eq_true_1 in Hall.
  - unfold JSArray.get. rewrite lookup_ge_None_2; [reflexivity|].
    rewrite prefixes_length. lia.
Qed.

Lemma known_chain_prefix c :
  knownChain c = true ->
  exists prefix, JSArray.get prefixes c = Some prefix
                 /\ JSArray.includes prefixes prefix = true
                 /\ JSArray.indexOf prefixes prefix = Some c
                 /\ c <> 0%nat.
Proof.
  intros Hk. apply bool_decide_eq_true_1 in Hk.
  repeat (apply elem_of_cons in Hk as [->|Hk];
          [eexists; repeat split; try (vm_compute; reflexivity); lia|]).
  inversion Hk.
Qed.

Lemma combine_version pubkey :
  bytes.combine [BBN constants.VERSION; pubkey] = x01 :: bytes.hexlify pubkey.
Proof. unfold bytes.combine. simpl. now rewrite app_nil_r. Qed.

Lemma decode_of_encoded prefix pubkey :
  decode (bech32encode prefix (x01 :: bytes.hexlify pubkey))
  = if JSArray.includes prefixes prefix then
      Ok {| chainID := JSArray.indexOf prefixes prefix; d_pubkey := bytes.hexlify pubkey |}
    else if String.eqb prefix "rgany" then
      Ok {| chainID := None; d_pubkey := bytes.hexlify pubkey |}
    else Throw AddressPrefixUnrecognized.
Proof. unfold decode. rewrite bech32_roundtrip. reflexivity. Qed.

(** C5.  Decoding an encoded address gives back the public key, and the
    chain ID when the chain is one of 1, 3, 5, 56, 137; for any other
    chain ID, or none, the address is encoded under 'rgany' and decodes to
    the public key with an undefined chain ID. *)
Theorem address_roundtrip (pubkey : BytesData) :
  (forall c, knownChain c = true ->
     decode (encode pubkey (Some c))
     = Ok {| chainID := Some c; d_pubkey := bytes.hexlify pubkey |})
  /\ (forall chain,
        match chain with Some c => knownChain c = false | None => True end ->
        encode pubkey chain = bech32encode "rgany" (x01 :: bytes.hexlify pubkey)
        /\ decode (encode pubkey chain)
           = Ok {| chainID := None; d_pubkey := bytes.hexlify pubkey |}).
Proof.
  split.
  - intros c Hk. destruct (known_chain_prefix c Hk) as (prefix & Hp & Hi & Hx & Hz).
    unfold encode. destruct c as [|c]; [congruence|].
    rewrite Hp, combine_version, decode_of_encoded, Hi, Hx. reflexivity.
  - intros chain Hu.
    assert (E : encode pubkey chain = bech32encode "rgany" (x01 :: bytes.hexlify pubkey)).
    { unfold encode. rewrite combine_version.
      destruct chain as [[|c]|]; try reflexivity.
      now rewrite (unknown_chain_no_prefix _ Hu). }
    split; [exact E|]. rewrite E, decode_of_encoded. reflexivity.
Qed.
End Bech32Facts.

(** ** The monad *)

Section MonadFacts.

Lemma bind_Ok_inv {A B} (m : M A) (k : A -> M B) w b w' :
  bind m k w = (Ok b, w') ->
  exists a w1, m w = (Ok a, w1) /\ k a w1 = (Ok b, w').
Proof.
  unfold bind. destruct (m w) as [[a| |] w1]; intros E; try discriminate. eauto.
Qed.

Lemma lift_Ok_inv {A} (r : Res A) w a w' :
  lift r w = (Ok a, w') -> r = Ok a /\ w' = w.
Proof. unfold lift. intros [= -> ->]. auto. Qed.

Lemma db_grows_refl w : db_grows w w.
Proof. intros k Hk. exact Hk. Qed.

Lemma db_grows_same w w' : db w' = db w -> db_grows w w'.
Proof. intros E k. now rewrite E. Qed.

Lemma db_grows_trans w1 w2 w3 : db_grows w1 w2 -> db_grows w2 w3 -> db_grows w1 w3.
Proof. intros H12 H23 k Hk. auto. Qed.

Lemma Grows_ret {A} (a : A) : Grows (ret a).
Proof. intros w r w' [= <- <-]. apply db_grows_refl. Qed.

Lemma Grows_throw {A} e : Grows (@throw A e).
Proof. intros w r w' [= <- <-]. apply db_grows_refl. Qed.

Lemma Grows_lift {A} (x : Res A) : Grows (lift x).
Proof. intros w r w' [= <- <-]. apply db_grows_refl. Qed.

Lemma Grows_gets {A} (f : World -> A) : Grows (gets f).
Proof. intros w r w' [= <- <-]. apply db_grows_refl. Qed.

Lemma Grows_modify f : (forall w, db_grows w (f w)) -> Grows (modify f).
Proof. intros Hf w r w' [= <- <-]. apply Hf. Qed.

Lemma Grows_bind {A B} (m : M A) (k : A -> M B) :
  Grows m -> (forall a, Grows (k a)) -> Grows (bind m k).
Proof.
  intros Hm Hk w r w'. unfold bind.
  destruct (m w) as [[a| |] w1] eqn:Em; intros E.
  - eapply db_grows_trans; [eapply Hm, Em | eapply Hk, E].
  - injection E as <- <-. eapply Hm, Em.
  - injection E as <- <-. eapply Hm, Em.
Qed.

Lemma Grows_promiseAll {A} (ms : list (M A)) :
  Forall Grows ms -> Grows (promiseAll ms).
Proof.
  induction 1 as [|m ms Hm _ IH]; [apply Grows_ret|].
  intros w r w'. simpl.
  destruct (m w) as [r1 w1] eqn:Em.
  destruct (promiseAll ms w1) as [rs w2] eqn:Es.
  intros [= <- <-].
  eapply db_grows_trans; [eapply Hm, Em | eapply IH, Es].
Qed.

End MonadFacts.

(** ** Wallet: scanning one index *)

Section ScanIndexFacts.
Context {cr : Crypto}.
Import Wallet.

Lemma getKeypair_own wallet index change :
  getKeypair wallet (encryptionKey wallet) index change
  = Ok (if change then changeNode wallet index else addressNode wallet index).
Proof.
  unfold getKeypair. rewrite decide_True by reflexivity. now destruct change.
Qed.

Lemma set_db_set_db f g w : set_db f (set_db g w) = set_db (fun d => f (g d)) w.
Proof. reflexivity. Qed.

Lemma set_db_id w : set_db (fun d => d) w = w.
Proof. now destruct w. Qed.

(** [scanIndex] writes its batch, or throws without writing. *)
Lemma scanIndex_spec wallet index change leaves tree chainID w :
  scanIndex wallet index change leaves tree chainID w
  = match indexBatch wallet leaves change tree chainID index with
    | Ok ops => (Ok (0 <? length ops)%nat, set_db (batch ops) w)
    | Throw e => (Throw e, w)
    | OutOfFuel => (OutOfFuel, w)
    end.
Proof.
  unfold scanIndex, indexBatch, bind, lift, modify, ret.
  rewrite getKeypair_own.
  now destruct (writeBatch _ index change tree chainID leaves 0).
Qed.

Lemma batch_lookup_notin (ops : list (DBKey * StoredTXO)) (d : gmap DBKey StoredTXO) k :
  k ∉ ops.*1 -> batch ops d !! k = d !! k.
Proof.
  revert d. induction ops as [|[k0 v0] ops IH]; intros d Hk; [reflexivity|].
  simpl in *. apply not_elem_of_cons in Hk as [Hne Hk].
  unfold batch in *. simpl. rewrite IH by assumption.
  now rewrite lookup_insert_ne.
Qed.

Lemma batch_lookup_in (ops : list (DBKey * StoredTXO)) (d : gmap DBKey StoredTXO) k :
  k ∈ ops.*1 -> is_Some (batch ops d !! k).
Proof.
  revert d. induction ops as [|[k0 v0] ops IH]; intros d Hk; [inversion Hk|].
  simpl in Hk. unfold batch in *. simpl.
  destruct (decide (k ∈ ops.*1)) as [Hin|Hnin]; [now apply IH|].
  apply elem_of_cons in Hk as [->|Hk]; [|contradiction].
  fold (batch ops (<[k0:=v0]> d)). rewrite batch_lookup_notin by assumption.
  rewrite lookup_insert_eq. eauto.
Qed.

Lemma batch_grows (ops : list (DBKey * StoredTXO)) (d : gmap DBKey StoredTXO) k :
  is_Some (d !! k) -> is_Some (batch ops d !! k).
Proof.
  intros Hk. destruct (decide (k ∈ ops.*1)) as [Hin|Hnin].
  - now apply batch_lookup_in.
  - now rewrite batch_lookup_notin.
Qed.

Lemma Grows_scanIndex wallet index change leaves tree chainID :
  Grows (scanIndex wallet index change leaves tree chainID).
Proof.
  intros w r w'. rewrite scanIndex_spec.
  destruct (indexBatch _ _ _ _ _ _); intros [= <- <-]; try apply db_grows_refl.
  intros k. apply batch_grows.
Qed.

(** The keys of a write batch are the places of the leaves that matched,
    from [position] on. *)
Lemma writeBatch_keys key index change tree chainID leaves : forall position ops k,
  writeBatch key index change tree chainID leaves position = Ok ops ->
  k ∈ ops.*1 ->
  exists p, k = (chainID, tree, p) /\ (position <= p < position + length leaves)%nat.
Proof.
  induction leaves as [|[leaf|] leaves IH]; intros position ops k E Hk; simpl in E.
  - injection E as <-. inversion Hk.
  - destruct (readLeaf key leaf) as [note| |]; try discriminate.
    destruct (writeBatch key index change tree chainID leaves (S position))
      as [ops'| |] eqn:E'; try discriminate.
    destruct (decide (pubkey note = kp_pubkey key)); injection E as <-.
    + simpl in Hk. apply elem_of_cons in Hk as [->|Hk].
      * exists position. split; [reflexivity | simpl; lia].
      * destruct (IH _ _ _ E' Hk) as (p & -> & Hp). exists p. split; [reflexivity | simpl; lia].
    + destruct (IH _ _ _ E' Hk) as (p & -> & Hp). exists p. split; [reflexivity | simpl; lia].
  - destruct (IH _ _ _ E Hk) as (p & -> & Hp). exists p. split; [reflexivity | simpl; lia].
Qed.

(** A leaf that is read and matches the key is in the batch, with the
    record of lines 278-285. *)
Lemma writeBatch_records key index change tree chainID leaves :
  forall position ops (d : gmap DBKey StoredTXO) i leaf note,
  writeBatch key index change tree chainID leaves position = Ok ops ->
  leaves !! i = Some (Some leaf) ->
  readLeaf key leaf = Ok note ->
  pubkey note = kp_pubkey key ->
  batch ops d !! (chainID, tree, (position + i)%nat)
  = Some {| st_index := index;
            st_change := change;
            st_spendtxid := None;
            st_txid := bytes.hexlify (BStr (leaf_txid leaf));
            st_nullifier := getNullifier (privateKey key) tree (position + i);
            st_decrypted := note |}.
Proof.
  induction leaves as [|[leaf0|] leaves IH]; intros position ops d i leaf note E Hl Hr Hm;
    simpl in E.
  - inversion Hl.
  - destruct (readLeaf key leaf0) as [note0| |] eqn:E0; try discriminate.
    destruct (writeBatch key index change tree chainID leaves (S position))
      as [ops'| |] eqn:E'; try discriminate.
    destruct i as [|i]; simpl in Hl.
    + injection Hl as ->. rewrite Hr in E0. injection E0 as <-.
      rewrite decide_True in E by assumption. injection E as <-.
      unfold batch. simpl. fold (batch ops').
      rewrite Nat.add_0_r, batch_lookup_notin, lookup_insert_eq; [reflexivity|].
      intros Hin. destruct (writeBatch_keys _ _ _ _ _ _ _ _ _ E' Hin) as (p & [= ->] & Hp). lia.
    + replace (position + S i)%nat with (S position + i)%nat by lia.
      destruct (decide (pubkey note0 = kp_pubkey key)); injection E as <-.
      * unfold batch. simpl. fold (batch ops'). now apply (IH (S position)).
      * now apply (IH (S position)).
  - destruct i as [|i]; simpl in Hl; [discriminate|].
    replace (position + S i)%nat with (S position + i)%nat by lia.
    now apply (IH (S position)).
Qed.

(** The first leaf that cannot be read makes the batch fail with its
    error. *)
Lemma writeBatch_first_failure key index change tree chainID leaves :
  forall position i leaf e,
  leaves !! i = Some (Some leaf) ->
  readLeaf key leaf = Throw e ->
  (forall j leaf', (j < i)%nat -> leaves !! j = Some (Some leaf') ->
                   exists note, readLeaf key leaf' = Ok note) ->
  writeBatch key index change tree chainID leaves position = Throw e.
Proof.
  induction leaves as [|[leaf0|] leaves IH]; intros position i leaf e Hl Hr Hbefore; simpl.
  - inversion Hl.
  - destruct i as [|i]; simpl in Hl.
    + injection Hl as ->. now rewrite Hr.
    + destruct (Hbefore 0%nat leaf0 ltac:(lia) eq_refl) as [note0 ->].
      rewrite (IH (S position) i leaf e Hl Hr); [reflexivity|].
      intros j leaf' Hj Hl'. apply (Hbefore (S j) leaf'); [lia | exact Hl'].
  - destruct i as [|i]; simpl in Hl; [discriminate|].
    apply (IH (S position) i leaf e Hl Hr).
    intros j leaf' Hj Hl'. apply (Hbefore (S j) leaf'); [lia | exact Hl'].
Qed.

Lemma writeBatch_all_read key index change tree chainID leaves :
  forall position,
  (forall i leaf, leaves !! i = Some (Some leaf) -> exists note, readLeaf key leaf = Ok note) ->
  exists ops, writeBatch key index change tree chainID leaves position = Ok ops.
Proof.
  induction leaves as [|[leaf0|] leaves IH]; intros position Hall; simpl.
  - eauto.
  - destruct (Hall 0%nat leaf0 eq_refl) as [note0 ->].
    destruct (IH (S position)) as [ops ->].
    { intros i leaf Hl. apply (Hall (S i) leaf Hl). }
    destruct (decide (pubkey note0 = kp_pubkey key)); eauto.
  - apply IH. intros i leaf Hl. apply (Hall (S i) leaf Hl).
Qed.

(** C9 (as the code has it).  A leaf that cannot be decrypted or
    deserialized is not skipped: the first such leaf makes [scanIndex] throw
    its error, and nothing of the index is written.  When every leaf can be
    read, [scanIndex] returns and the store holds the record of every leaf
    whose note carries the key of the index. *)
Theorem scanIndex_read_failure_aborts (wallet : Wallet) (index : nat) (change : bool)
    (leaves : JSArray.t Commitment) (tree chainID : nat) (w : World) :
  let key := if change then changeNode wallet index else addressNode wallet index in
  (forall i leaf e,
      leaves !! i = Some (Some leaf) ->
      readLeaf key leaf = Throw e ->
      (forall j leaf', (j < i)%nat -> leaves !! j = Some (Some leaf') ->
                       exists note, readLeaf key leaf' = Ok note) ->
      scanIndex wallet index change leaves tree chainID w = (Throw e, w))
  /\ ((forall i leaf, leaves !! i = Some (Some leaf) ->
                      exists note, readLeaf key leaf = Ok note) ->
      exists found w',
        scanIndex wallet index change leaves tree chainID w = (Ok found, w')
        /\ forall i leaf note,
             leaves !! i = Some (Some leaf) ->
             readLeaf key leaf = Ok note ->
             pubkey note = kp_pubkey key ->
             db w' !! (chainID, tree, i)
             = Some {| st_index := index;
                       st_change := change;
                       st_spendtxid := None;
                       st_txid := bytes.hexlify (BStr (leaf_txid leaf));
                       st_nullifier := getNullifier (privateKey key) tree i;
                       st_decrypted := note |}).
Proof.
  intros key. split.
  - intros i leaf e Hl Hr Hbefore. rewrite scanIndex_spec. unfold indexBatch.
    fold key. now rewrite (writeBatch_first_failure key _ _ _ _ _ 0%nat i leaf e).
  - intros Hall.
    destruct (writeBatch_all_read key index change tree chainID leaves 0%nat Hall) as [ops E].
    exists (0 <? length ops)%nat, (set_db (batch ops) w). split.
    + rewrite scanIndex_spec. unfold indexBatch. fold key. now rewrite E.
    + intros i leaf note Hl Hr Hm. simpl.
      apply (writeBatch_records key index change tree chainID leaves 0%nat ops (db w) i leaf note);
        assumption.
Qed.

End ScanIndexFacts.

(** ** Wallet: the sweep *)

Section SweepFacts.
Context {cr : Crypto}.
Import Wallet.

Variable wallet : Wallet.
Variable leaves : JSArray.t Commitment.
Variable change : bool.
Variables tree chainID : nat.

Local Abbreviation matched := (indexMatches wallet leaves change tree chainID).
Local Abbreviation readable := (indexReadable wallet leaves change tree chainID).

Lemma Grows_scanPass usedIndexes height :
  Grows (scanPass wallet leaves change tree chainID usedIndexes height).
Proof.
  unfold scanPass. apply Grows_bind; [|intros; apply Grows_ret].
  apply Grows_promiseAll, Forall_map, Forall_forall. intros i _. simpl.
  destruct (default false (usedIndexes !! i)); [apply Grows_ret | apply Grows_scanIndex].
Qed.

Lemma Grows_scanLoop fuel : forall usedIndexes height,
  Grows (scanLoop fuel wallet leaves change tree chainID usedIndexes height).
Proof.
  induction fuel as [|fuel IH]; intros usedIndexes height; simpl;
    destruct (decide _); try apply Grows_ret.
  - intros w r w' [= <- <-]. apply db_grows_refl.
  - apply Grows_bind; [apply Grows_scanPass | intros; apply IH].
Qed.

Lemma Grows_scanLeaves fuel initialHeight :
  Grows (scanLeaves fuel wallet leaves change initialHeight tree chainID).
Proof. apply Grows_scanLoop. Qed.

Lemma scanLoop_step fuel usedIndexes height :
  (length usedIndexes < height + gapLimit wallet)%nat ->
  scanLoop (S fuel) wallet leaves change tree chainID usedIndexes height
  = bind (scanPass wallet leaves change tree chainID usedIndexes height)
      (fun used' =>
         scanLoop fuel wallet leaves change tree chainID used'
           (default 0%nat (lastIndexOf_true used'))).
Proof. intros Hlt. simpl. now rewrite decide_True. Qed.

Lemma scanLoop_exit fuel usedIndexes height :
  ~ (length usedIndexes < height + gapLimit wallet)%nat ->
  scanLoop fuel wallet leaves change tree chainID usedIndexes height = ret height.
Proof. intros Hge. destruct fuel; simpl; now rewrite decide_False. Qed.

(** A pass over indexes none of which was scanned before. *)
Lemma promiseAll_fresh (l : list nat) : forall w,
  (forall i, i ∈ l -> readable i) ->
  promiseAll
    (map (fun index =>
            if default false (@nil bool !! index) then ret true
            else scanIndex wallet index change leaves tree chainID) l) w
  = (Ok (map matched l),
     set_db (afterBatches wallet leaves change tree chainID l) w).
Proof.
  induction l as [|i l IH]; intros w Hr.
  - simpl. unfold ret. now rewrite set_db_id.
  - simpl. rewrite scanIndex_spec, (Hr i) by (left; reflexivity).
    rewrite IH by (intros j Hj; apply Hr; now right).
    reflexivity.
Qed.

Lemma scanPass_first height w :
  (forall i, (i <= height + gapLimit wallet)%nat -> readable i) ->
  scanPass wallet leaves change tree chainID [] height w
  = (Ok (map matched (seq 0 (S (height + gapLimit wallet)))),
     set_db (afterBatches wallet leaves change tree chainID
               (seq 0 (S (height + gapLimit wallet)))) w).
Proof.
  intros Hr. unfold scanPass, bind.
  rewrite promiseAll_fresh.
  - unfold ret. now rewrite drop_nil, app_nil_r.
  - intros i Hi. apply Hr. apply elem_of_seq in Hi. lia.
Qed.

Lemma lastIndexOf_from_found l : forall i found x,
  lastIndexOf_from l i found = Some x ->
  found = Some x \/ exists j, x = (i + j)%nat /\ l !! j = Some true.
Proof.
  induction l as [|b0 l IH]; intros i found x E; simpl in E; [now left|].
  destruct (IH _ _ _ E) as [Hf|(j & -> & Hj)].
  - destruct b0; [|now left]. injection Hf as <-.
    right. exists 0%nat. split; [lia | reflexivity].
  - right. exists (S j). split; [lia | exact Hj].
Qed.

Lemma lastIndexOf_true_found l x :
  lastIndexOf_true l = Some x -> l !! x = Some true.
Proof.
  intros E. destruct (lastIndexOf_from_found _ _ _ _ E) as [Hf|(j & -> & Hj)];
    [discriminate | exact Hj].
Qed.

Lemma afterBatches_cons (j : nat) (l : list nat) (d : gmap DBKey StoredTXO) :
  afterBatches wallet leaves change tree chainID (j :: l) d
  = afterBatches wallet leaves change tree chainID l
      (batch (opsAt wallet leaves change tree chainID j) d).
Proof. reflexivity. Qed.

Lemma afterBatches_in (l : list nat) : forall (d : gmap DBKey StoredTXO) i k,
  i ∈ l ->
  k ∈ (opsAt wallet leaves change tree chainID i).*1 ->
  is_Some (afterBatches wallet leaves change tree chainID l d !! k).
Proof.
  induction l as [|j l IH]; intros d i k Hi Hk; [inversion Hi|].
  rewrite afterBatches_cons.
  destruct (decide (i ∈ l)) as [Hin|Hnin]; [eapply IH; eassumption|].
  apply elem_of_cons in Hi as [->|Hi]; [|contradiction].
  assert (G : forall l' (d' : gmap DBKey StoredTXO),
             is_Some (d' !! k) ->
             is_Some (afterBatches wallet leaves change tree chainID l' d' !! k)).
  { induction l' as [|j' l' IH']; intros d' Hd; [exact Hd|].
    rewrite afterBatches_cons. apply IH'. now apply batch_grows. }
  apply G. now apply batch_lookup_in.
Qed.

Lemma afterBatches_notin (l : list nat) : forall (d : gmap DBKey StoredTXO) k,
  (forall i, i ∈ l -> k ∉ (opsAt wallet leaves change tree chainID i).*1) ->
  afterBatches wallet leaves change tree chainID l d !! k = d !! k.
Proof.
  induction l as [|j l IH]; intros d k Hk; [reflexivity|].
  rewrite afterBatches_cons.
  rewrite IH by (intros i Hi; apply Hk; now right).
  apply batch_lookup_notin, Hk. now left.
Qed.

(** C7 (as the code has it).  A sweep from [initialHeight] visits the
    indexes 0 to [initialHeight + gapLimit], both ends included, in its
    first pass: whatever the sweep does afterwards, every note of a leaf that
    matches an index of that closed range has a record.  When no index above
    [initialHeight + 1] matches in that range the sweep is this one pass: it
    returns the last matching index (or 0), the store is the old one with the
    batches of exactly these indexes, and a place that none of them writes
    (a note only the key at [initialHeight + gapLimit + 1] can read) is left
    as it was. *)
Theorem scanLeaves_closed_range initialHeight w :
  (0 < initialHeight + gapLimit wallet)%nat ->
  (forall i, (i <= initialHeight + gapLimit wallet)%nat -> readable i) ->
  (forall fuel r w',
      scanLeaves (S fuel) wallet leaves change initialHeight tree chainID w = (r, w') ->
      forall i k,
        (i <= initialHeight + gapLimit wallet)%nat ->
        k ∈ (opsAt wallet leaves change tree chainID i).*1 ->
        is_Some (db w' !! k))
  /\ ((forall i, (initialHeight + 1 < i <= initialHeight + gapLimit wallet)%nat ->
                 opsAt wallet leaves change tree chainID i = []) ->
      forall fuel,
        let indexes := seq 0 (S (initialHeight + gapLimit wallet)) in
        let w' := set_db (afterBatches wallet leaves change tree chainID indexes) w in
        scanLeaves (S fuel) wallet leaves change initialHeight tree chainID w
        = (Ok (default 0%nat (lastIndexOf_true (map matched indexes))), w')
        /\ forall k,
             (forall i, (i <= initialHeight + gapLimit wallet)%nat ->
                        k ∉ (opsAt wallet leaves change tree chainID i).*1) ->
             db w' !! k = db w !! k).
Proof.
  intros Hpos Hread. split.
  - intros fuel r w' E i k Hi Hk.
    unfold scanLeaves in E. rewrite scanLoop_step in E by (simpl; lia).
    unfold bind in E. rewrite scanPass_first in E by exact Hread.
    eapply (Grows_scanLoop fuel _ _ _ _ _ E). cbn [db set_db].
    eapply afterBatches_in; [|exact Hk]. apply elem_of_seq. lia.
  - intros Hquiet fuel indexes w'. split.
    + unfold scanLeaves. rewrite scanLoop_step by (simpl; lia).
      unfold bind. rewrite scanPass_first by exact Hread.
      fold indexes. fold w'.
      assert (Hh : (default 0 (lastIndexOf_true (map matched indexes))
                    <= initialHeight + 1)%nat).
      { destruct (lastIndexOf_true (map matched indexes)) as [x|] eqn:El; simpl; [|lia].
        apply lastIndexOf_true_found in El.
        rewrite list_lookup_fmap in El.
        destruct (indexes !! x) as [i|] eqn:Ei; [|discriminate].
        apply lookup_seq in Ei as [-> Hx]. simpl in El. injection El as El.
        destruct (decide (x <= initialHeight + 1)%nat) as [|Hgt]; [assumption|].
        unfold matched in El. rewrite Hquiet in El by lia. discriminate. }
      rewrite scanLoop_exit; [reflexivity|].
      rewrite length_map. unfold indexes at 1. rewrite length_seq. lia.
    + intros k Hk. unfold w'. cbn [db set_db]. apply afterBatches_notin.
      intros i Hi. apply Hk. apply elem_of_seq in Hi. lia.
Qed.

(** When the key of index 0 cannot read a leaf, the sweep throws. *)
Lemma scanLeaves_throws initialHeight fuel w e :
  (0 < initialHeight + gapLimit wallet)%nat ->
  indexBatch wallet leaves change tree chainID 0 = Throw e ->
  fst (scanLeaves (S fuel) wallet leaves change initialHeight tree chainID w) = Throw e.
Proof.
  intros Hpos E. unfold scanLeaves. rewrite scanLoop_step by (simpl; lia).
  unfold bind, scanPass, bind. simpl.
  rewrite scanIndex_spec, E.
  destruct (promiseAll _ w) as [rs w2]. reflexivity.
Qed.

End SweepFacts.

(** ** Wallet: the full scan *)

Section ScanFacts.
Context {cr : Crypto}.
Import Wallet.

Lemma Grows_scanTree fuel wallet mt walletDetails tree :
  Grows (scanTree fuel wallet mt walletDetails tree).
Proof.
  unfold scanTree. apply Grows_bind; [|intros; apply Grows_ret].
  apply Grows_promiseAll. repeat constructor; apply Grows_scanLeaves.
Qed.

Lemma Grows_scanTrees fuel wallet mt trees : forall walletDetails,
  Grows (scanTrees fuel wallet mt walletDetails trees).
Proof.
  induction trees as [|tree trees IH]; intros walletDetails; simpl.
  - apply Grows_ret.
  - apply Grows_bind; [apply Grows_scanTree | intros; apply IH].
Qed.

Lemma Grows_scan fuel wallet chainID : Grows (scan fuel wallet chainID).
Proof.
  unfold scan. apply Grows_bind; [apply Grows_gets|]. intros [|]; [apply Grows_ret|].
  apply Grows_bind; [apply Grows_modify; intros w; now apply db_grows_same|]. intros [].
  apply Grows_bind; [apply Grows_gets|]. intros walletDetails.
  destruct (JSArray.get (merkletree wallet) chainID) as [mt|]; [|apply Grows_throw].
  apply Grows_bind; [apply Grows_scanTrees|]. intros d.
  apply Grows_bind; [apply Grows_modify; intros w; now apply db_grows_same|]. intros [].
  apply Grows_modify. intros w. now apply db_grows_same.
Qed.

Lemma fetchLeaves_length mt tree scannedHeight :
  length (fetchLeaves mt tree scannedHeight) = getTreeLength mt tree.
Proof. unfold fetchLeaves. now rewrite length_map, length_seq. Qed.

Lemma scanTree_heights fuel wallet mt d tree w d' w' :
  scanTree fuel wallet mt d tree w = (Ok d', w') ->
  treeScannedHeights d'
  = <[tree := lastLeaf (getTreeLength mt tree)]> (treeScannedHeights d).
Proof.
  unfold scanTree. intros E.
  apply bind_Ok_inv in E as (heights & w1 & _ & E).
  injection E as <- <-. simpl. now rewrite fetchLeaves_length.
Qed.

Lemma scanTrees_heights fuel wallet mt trees : forall d w d' w',
  scanTrees fuel wallet mt d trees w = (Ok d', w') ->
  treeScannedHeights d'
  = fold_left (fun hs t => <[t := lastLeaf (getTreeLength mt t)]> hs) trees
      (treeScannedHeights d).
Proof.
  induction trees as [|tree trees IH]; intros d w d' w' E; simpl in E.
  - now injection E as <- <-.
  - apply bind_Ok_inv in E as (d1 & w1 & E1 & E).
    rewrite (IH _ _ _ _ E). simpl. now rewrite (scanTree_heights _ _ _ _ _ _ _ _ E1).
Qed.

Lemma fold_insert_length {A} (g : nat -> A) (trees : list nat) : forall hs : list A,
  length (fold_left (fun hs t => <[t := g t]> hs) trees hs) = length hs.
Proof.
  induction trees as [|t trees IH]; intros hs; simpl; [reflexivity|].
  now rewrite IH, length_insert.
Qed.

Lemma fold_insert_lookup {A} (g : nat -> A) (trees : list nat) : forall (hs : list A) i,
  fold_left (fun hs t => <[t := g t]> hs) trees hs !! i
  = if decide (i ∈ trees /\ (i < length hs)%nat) then Some (g i) else hs !! i.
Proof.
  induction trees as [|t trees IH]; intros hs i; cbn [fold_left].
  - rewrite decide_False; [reflexivity|]. intros [Hin _]. inversion Hin.
  - rewrite IH, length_insert.
    destruct (decide (i ∈ trees /\ (i < length hs)%nat)) as [[Hin Hlt]|Hn].
    + rewrite decide_True; [reflexivity|]. split; [now right | assumption].
    + destruct (decide (t = i)) as [->|Hne].
      * destruct (decide (i < length hs)%nat) as [Hlt|Hge].
        -- rewrite list_lookup_insert_eq by assumption.
           rewrite decide_True; [reflexivity|]. split; [now left | assumption].
        -- rewrite list_insert_ge by lia.
           rewrite decide_False; [reflexivity|]. intros [_ ?]. contradiction.
      * rewrite list_lookup_insert_ne by assumption.
        rewrite decide_False; [reflexivity|].
        intros [Hin Hlt]. apply Hn. split; [|assumption].
        apply elem_of_cons in Hin as [->|Hin]; [contradiction | assumption].
Qed.

(** Inserting at every index of a list again gives the same list. *)
Lemma fold_insert_idem {A} (g : nat -> A) (hs : list A) :
  let step := fun hs t => <[t := g t]> hs in
  fold_left step (seq 0 (length hs)) (fold_left step (seq 0 (length hs)) hs)
  = fold_left step (seq 0 (length hs)) hs.
Proof.
  intros step. apply list_eq. intros i. unfold step.
  rewrite !fold_insert_lookup, fold_insert_length.
  destruct (decide (i ∈ seq 0 (length hs) /\ (i < length hs)%nat)); reflexivity.
Qed.

Lemma scan_inv fuel wallet chainID w w' :
  scan fuel wallet chainID w = (Ok tt, w') ->
  (chainID ∈ scanLockPerChain w /\ w' = w)
  \/ ((chainID ∉ scanLockPerChain w)
      /\ exists mt d' wb,
           JSArray.get (merkletree wallet) chainID = Some mt
           /\ let hs := treeScannedHeights (default defaultDetails (details w)) in
              let ext := hs ++ replicate (latestTree mt + 1 - length hs) 0%nat in
              scanTrees fuel wallet mt
                {| treeScannedHeights := ext;
                   primaryHeight := primaryHeight (default defaultDetails (details w));
                   changeHeight := changeHeight (default defaultDetails (details w)) |}
                (seq 0 (length ext)) (set_lock (union {[chainID]}) w) = (Ok d', wb)
           /\ w' = set_lock (fun locks => locks ∖ {[chainID]}) (set_details (Some d') wb)).
Proof.
  unfold scan, bind, gets, modify, getWalletDetails. simpl.
  destruct (bool_decide (chainID ∈ scanLockPerChain w)) eqn:El.
  - intros [= <-]. left. split; [now apply bool_decide_eq_true_1 in El | reflexivity].
  - apply bool_decide_eq_false_1 in El. intros E. right. split; [exact El|].
    destruct (JSArray.get (merkletree wallet) chainID) as [mt|]; [|discriminate].
    match type of E with
    | (match ?m with _ => _ end) = _ => destruct m as [[d'| |] wb] eqn:Et; try discriminate
    end.
    injection E as <-. exists mt, d', wb. auto.
Qed.

(** C8 (as the code has it).  A scan right after a completed scan, against
    the same mirror, leaves the scanned height of every tree as it was, and
    no stored record disappears.  (Nothing is said of [primaryHeight] and
    [changeHeight], which the second scan computes afresh from the leaf it
    scans again.) *)
Theorem scan_twice_keeps_scanned_heights fuel1 fuel2 wallet chainID w0 w1 w2 :
  scan fuel1 wallet chainID w0 = (Ok tt, w1) ->
  scan fuel2 wallet chainID w1 = (Ok tt, w2) ->
  treeScannedHeights <$> details w2 = treeScannedHeights <$> details w1
  /\ db_grows w1 w2.
Proof.
  intros E1 E2. split; [|exact (Grows_scan _ _ _ _ _ _ E2)].
  destruct (scan_inv _ _ _ _ _ E1) as [[L1 ->]|(N1 & mt & d1 & wb1 & Hmt & T1 & ->)].
  - destruct (scan_inv _ _ _ _ _ E2) as [[_ ->]|[N2 _]]; [reflexivity | contradiction].
  - destruct (scan_inv _ _ _ _ _ E2) as [[L2 _]|(_ & mt' & d2 & wb2 & Hmt' & T2 & ->)].
    + exfalso. simpl in L2. apply elem_of_difference in L2 as [_ L2].
      apply L2. now apply elem_of_singleton.
    + rewrite Hmt in Hmt'. injection Hmt' as <-. simpl in *.
      apply scanTrees_heights in T1, T2. simpl in T1, T2.
      f_equal. rewrite T2, T1.
      set (g := fun t => lastLeaf (getTreeLength mt t)).
      set (ext := treeScannedHeights (default defaultDetails (details w0))
                  ++ replicate _ 0%nat).
      assert (Hlen : (latestTree mt + 1 <= length ext)%nat).
      { unfold ext. rewrite length_app, length_replicate. lia. }
      rewrite (fold_insert_length g).
      replace (latestTree mt + 1 - length ext)%nat with 0%nat by lia.
      simpl. rewrite !app_nil_r, (fold_insert_length g).
      apply (fold_insert_idem g ext).
Qed.

End ScanFacts.

(** ** Transaction builder *)

Section BuilderFacts.
Context {cr : Crypto} {sn : Prover.Snark}.
Import ERC20Transaction.

Lemma mapM_length {A B} (f : A -> M B) (l : list A) : forall w r w',
  mapM f l w = (Ok r, w') -> length r = length l.
Proof.
  induction l as [|x l IH]; intros w r w' E; simpl in E.
  - now injection E as <- <-.
  - apply bind_Ok_inv in E as (y & w1 & _ & E).
    apply bind_Ok_inv in E as (ys & w2 & E2 & E).
    injection E as <- <-. simpl. f_equal. eapply IH, E2.
Qed.

Lemma mapRes_length {A B} (f : A -> Res B) (l : list A) : forall r,
  Prover.mapRes f l = Ok r -> length r = length l.
Proof.
  induction l as [|x l IH]; intros r E; simpl in E.
  - now injection E as <-.
  - destruct (f x); try discriminate.
    destruct (Prover.mapRes f l); try discriminate.
    injection E as <-. simpl. f_equal. now apply IH.
Qed.

Lemma dummyInputs_length tx tree count : forall w r w',
  dummyInputs tx tree count w = (Ok r, w') -> length r = count.
Proof.
  induction count as [|n IH]; intros w r w' E; simpl in E.
  - now injection E as <- <-.
  - apply bind_Ok_inv in E as (d & w1 & _ & E).
    apply bind_Ok_inv in E as (ds & w2 & E2 & E).
    injection E as <- <-. simpl. f_equal. eapply IH, E2.
Qed.

Lemma padOutputs_spec tx count : forall w r w',
  padOutputs tx count w = (Ok r, w') ->
  length r = count /\ Forall (fun n => amount n = 0) r.
Proof.
  induction count as [|n IH]; intros w r w' E; simpl in E.
  - injection E as <- <-. auto.
  - apply bind_Ok_inv in E as (d & w1 & E1 & E).
    apply bind_Ok_inv in E as (ds & w2 & E2 & E).
    injection E as <- <-. destruct (IH _ _ _ E2) as [Hl Hz].
    split; [simpl; now f_equal|]. constructor; [|exact Hz].
    unfold dummyOutput in E1.
    apply bind_Ok_inv in E1 as (seed & wa & _ & E1).
    apply bind_Ok_inv in E1 as (rnd & wb & _ & E1).
    now injection E1 as <- <-.
Qed.

Lemma fillUTXOs_length tx tree sorted utxos len w r w' :
  fillUTXOs tx tree sorted utxos len w = (Ok r, w') ->
  (length utxos <= len)%nat ->
  length r = len.
Proof.
  unfold fillUTXOs. intros E Hle. destruct (decide (length sorted < len)%nat) as [Hlt|Hge].
  - apply bind_Ok_inv in E as (ds & w1 & E1 & E). injection E as <- <-.
    rewrite length_app, (dummyInputs_length _ _ _ _ _ _ E1). lia.
  - injection E as <- <-. rewrite length_app, length_take, length_rev. lia.
Qed.

(** A solution has no input, two inputs or ten. *)
Lemma solveTree_length tx totalRequired treeBalance tree w sol w' :
  solveTree tx totalRequired treeBalance tree w = (Ok sol, w') ->
  length sol = 0%nat \/ length sol = 2%nat \/ length sol = 10%nat.
Proof.
  unfold solveTree. intros E.
  destruct (Wallet.balance treeBalance <? totalRequired).
  { injection E as <- <-. now left. }
  apply bind_Ok_inv in E as (utxos & w1 & _ & E).
  destruct (decide (length utxos <= NOTE_INPUTS_small)%nat) as [Hs|Hs].
  { right; left. eapply fillUTXOs_length; eassumption. }
  destruct (decide (length utxos <= NOTE_INPUTS_large)%nat) as [Hl|Hl].
  { right; right. eapply fillUTXOs_length; eassumption. }
  injection E as <- <-. now left.
Qed.

Lemma mapSparse_solutions tx totalRequired (arr : JSArray.t Wallet.TokenBalance) :
  forall i w sols w',
  mapSparse (solveTree tx totalRequired) arr i w = (Ok sols, w') ->
  forall j sol, sols !! j = Some (Some sol) ->
  length sol = 0%nat \/ length sol = 2%nat \/ length sol = 10%nat.
Proof.
  induction arr as [|[tb|] arr IH]; intros i w sols w' E j sol Hj; simpl in E.
  - injection E as <- <-. inversion Hj.
  - apply bind_Ok_inv in E as (y & w1 & E1 & E).
    apply bind_Ok_inv in E as (ys & w2 & E2 & E). injection E as <- <-.
    destruct j as [|j]; simpl in Hj.
    + injection Hj as <-. eapply solveTree_length, E1.
    + eapply IH; eassumption.
  - apply bind_Ok_inv in E as (ys & w2 & E2 & E). injection E as <- <-.
    destruct j as [|j]; simpl in Hj; [discriminate|]. eapply IH; eassumption.
Qed.

(** [findIndex] answers with the first slot holding a non-empty solution;
    the slots before it hold empty ones. *)
Lemma findIndex_from_spec (sols : JSArray.t (list TXO)) : forall i t,
  findIndex_from sols i = Ok (Some t) ->
  exists j sol, t = (i + j)%nat
                /\ sols !! j = Some (Some sol) /\ (0 < length sol)%nat
                /\ forall j', (j' < j)%nat -> sols !! j' = Some (Some []).
Proof.
  induction sols as [|[value|] sols IH]; intros i t E; simpl in E; try discriminate.
  destruct (0 <? length value)%nat eqn:El.
  - injection E as <-. exists 0%nat, value. repeat split; [lia| |intros; lia].
    now apply Nat.ltb_lt in El.
  - destruct (IH _ _ E) as (j & sol & -> & Hj & Hpos & Hbefore).
    exists (S j), sol. repeat split; [lia|assumption..|].
    intros [|j'] Hj'; simpl; [|apply Hbefore; lia].
    apply Nat.ltb_ge in El. destruct value; [reflexivity | simpl in El; lia].
Qed.

Lemma findIndex_from_none (sols : JSArray.t (list TXO)) : forall i,
  Forall (fun s => s = Some []) sols -> findIndex_from sols i = Ok None.
Proof.
  induction sols as [|s sols IH]; intros i Hall; [reflexivity|].
  apply Forall_cons in Hall as [-> Hall]. simpl. now apply IH.
Qed.

(** What a successful [generateInputs] went through. *)
Lemma generateInputs_inv tx wallet encKey w g w' :
  generateInputs tx wallet encKey w = (Ok g, w') ->
  exists byTree w1 solutions w2 chosen solution changeKey changeRandom dummies,
    (length (outputs tx) <= 2)%nat
    /\ Wallet.balancesByTree wallet (chainID tx) w = (Ok byTree, w1)
    /\ mapSparse (solveTree tx (totalRequired tx))
         (default [] (byTree !! token_ tx)) 0 w1 = (Ok solutions, w2)
    /\ match tree tx with
       | Some (S t) => chosen = S t
       | _ => findIndex solutions = Ok (Some chosen)
       end
    /\ JSArray.get solutions chosen = Some solution
    /\ Wallet.getKeypair wallet encKey 0 true = Ok changeKey
    /\ length dummies = (NOTE_OUTPUTS - (length (outputs tx) + 1))%nat
    /\ Forall (fun n => amount n = 0) dummies
    /\ let all := outputs tx ++ [changeNote tx changeKey changeRandom solution] ++ dummies in
       Prover.treeNumber (inputs g) = BBN (Z.of_nat chosen)
       /\ length (Prover.nullifiers (inputs g)) = length solution
       /\ length (Prover.spendingKeys (inputs g)) = length solution
       /\ length (Prover.pathElements (inputs g)) = length solution
       /\ length (Prover.pathIndices (inputs g)) = length solution
       /\ Prover.randomIn (inputs g) = map (fun utxo => BStr (random (txo_note utxo))) solution
       /\ Prover.valuesIn (inputs g) = map (fun utxo => BBN (amount (txo_note utxo))) solution
       /\ Prover.recipientPK (inputs g) = map (fun output => BStr (pubkey output)) all
       /\ Prover.randomOut (inputs g) = map (fun output => BStr (random output)) all
       /\ Prover.valuesOut (inputs g) = map (fun output => BBN (amount output)) all
       /\ length (Prover.commitmentsOut (inputs g)) = length all
       /\ length (commitments g) = length all.
Proof.
  unfold generateInputs. intros E.
  destruct (2 <? length (outputs tx))%nat eqn:Hout; [discriminate|].
  apply Nat.ltb_ge in Hout.
  destruct (head _) as [[? ?]|]; [discriminate|].
  apply bind_Ok_inv in E as (byTree & w1 & EbyTree & E).
  fold (totalRequired tx) in E.
  destruct (_ <? totalRequired tx); [discriminate|].
  apply bind_Ok_inv in E as (solutions & w2 & Esol & E).
  apply bind_Ok_inv in E as (otree & w3 & Etree & E).
  destruct otree as [chosen|]; [|discriminate].
  destruct (_ && _); [discriminate|].
  destruct (_ && _); [discriminate|].
  destruct (JSArray.get solutions chosen) as [solution|] eqn:Eget; [|discriminate].
  apply bind_Ok_inv in E as (spent & w4 & Espent & E).
  apply bind_Ok_inv in E as (changeKey & w5 & Ekey & E).
  apply lift_Ok_inv in Ekey as [Ekey ->].
  apply bind_Ok_inv in E as (changeRandom & w6 & _ & E).
  apply bind_Ok_inv in E as (dummies & w7 & Epad & E).
  apply bind_Ok_inv in E as (ciphertext & w8 & Ecipher & E).
  apply bind_Ok_inv in E as (hashed & w9 & _ & E).
  apply bind_Ok_inv in E as (root & w10 & _ & E).
  apply bind_Ok_inv in E as (hashes & w11 & Ehash & E).
  apply lift_Ok_inv in Ehash as [Ehash ->].
  injection E as <- <-.
  apply padOutputs_spec in Epad as [Hdl Hdz].
  apply mapM_length in Espent, Ecipher.
  apply mapRes_length in Ehash.
  exists byTree, w1, solutions, w2, chosen, solution, changeKey, changeRandom, dummies.
  rewrite length_app in Hdl. simpl in Hdl.
  split; [exact Hout|]. split; [exact EbyTree|]. split; [exact Esol|].
  split.
  { destruct (tree tx) as [[|t]|].
    - now apply lift_Ok_inv in Etree as [? _].
    - now injection Etree as <- _.
    - now apply lift_Ok_inv in Etree as [? _]. }
  split; [exact Eget|]. split; [exact Ekey|]. split; [exact Hdl|]. split; [exact Hdz|].
  cbn zeta. unfold changeNote, changeAmount. simpl.
  rewrite !length_map, <- !app_assoc. simpl.
  rewrite <- app_assoc in Ehash, Ecipher. simpl in Ehash, Ecipher.
  repeat split; try assumption; try reflexivity.
  rewrite length_zip_with, Ehash, Ecipher. lia.
Qed.

Lemma getKeypair_change wallet encKey index changeKey :
  Wallet.getKeypair wallet encKey index true = Ok changeKey ->
  changeKey = Wallet.changeNode wallet index.
Proof.
  unfold Wallet.getKeypair. destruct (decide _); [|discriminate]. now intros [= <-].
Qed.


(** The input arrays of a successful [generateInputs] have one length, which
    is 0, 2 or 10, and 0 only for a pinned tree other than tree 0; there are
    three output commitments. *)
Lemma generateInputs_lengths tx wallet encKey w g w' :
  generateInputs tx wallet encKey w = (Ok g, w') ->
  let n := length (Prover.nullifiers (inputs g)) in
  (n = 0%nat \/ n = 2%nat \/ n = 10%nat)
  /\ (n = 0%nat -> exists t, tree tx = Some (S t))
  /\ length (Prover.spendingKeys (inputs g)) = n
  /\ length (Prover.pathElements (inputs g)) = n
  /\ length (Prover.pathIndices (inputs g)) = n
  /\ length (Prover.randomIn (inputs g)) = n
  /\ length (Prover.valuesIn (inputs g)) = n
  /\ length (Prover.commitmentsOut (inputs g)) = 3%nat
  /\ length (Prover.recipientPK (inputs g)) = 3%nat
  /\ length (Prover.randomOut (inputs g)) = 3%nat
  /\ length (Prover.valuesOut (inputs g)) = 3%nat.
Proof.
  intros E.
  destruct (generateInputs_inv _ _ _ _ _ _ E)
    as (byTree & w1 & solutions & w2 & chosen & solution & changeKey & changeRandom
        & dummies & Hout & _ & Hsol & Htree & Hget & Hkey & Hdl & Hdz & Hall).
  cbn zeta in Hall.
  destruct Hall as (_ & Hn & Hsk & Hpe & Hpi & Hri & Hvi & Hpk & Hro & Hvo & Hco & Hcm).
  assert (Hlen : length (outputs tx ++ [changeNote tx changeKey changeRandom solution]
                         ++ dummies) = 3%nat).
  { rewrite !length_app, Hdl. unfold NOTE_OUTPUTS. simpl. lia. }
  assert (Hs : solutions !! chosen = Some (Some solution)).
  { unfold JSArray.get in Hget.
    destruct (solutions !! chosen) as [[s|]|]; simpl in Hget; congruence. }
  cbn zeta. rewrite Hn, Hsk, Hpe, Hpi, Hri, Hvi, Hpk, Hro, Hvo, Hco, !length_map, Hlen.
  repeat split; try reflexivity.
  - eapply mapSparse_solutions; eassumption.
  - intros Hz. destruct (tree tx) as [[|t]|]; [|eauto|];
      apply findIndex_from_spec in Htree as (j & sol & -> & Hj & Hpos & _);
      simpl in Hs; rewrite Hs in Hj; injection Hj as <-; lia.
Qed.

Lemma sumTXOs_from (l : list TXO) : forall acc,
  fold_left (fun left right => left + amount (txo_note right)) l acc = acc + sumTXOs l.
Proof.
  unfold sumTXOs. induction l as [|u l IH]; intros acc; simpl; [lia|].
  rewrite IH, (IH (0 + _)). lia.
Qed.

Lemma sumTXOs_cons u l : sumTXOs (u :: l) = amount (txo_note u) + sumTXOs l.
Proof. unfold sumTXOs at 1. simpl. now rewrite sumTXOs_from. Qed.

Lemma sumTXOs_app l1 l2 : sumTXOs (l1 ++ l2) = sumTXOs l1 + sumTXOs l2.
Proof.
  induction l1 as [|u l1 IH]; simpl; [reflexivity|].
  rewrite !sumTXOs_cons, IH. lia.
Qed.

Lemma sumTXOs_insertDesc u l : sumTXOs (insertDesc u l) = amount (txo_note u) + sumTXOs l.
Proof.
  induction l as [|v l IH]; simpl; [now rewrite sumTXOs_cons|].
  destruct (_ <=? _); rewrite !sumTXOs_cons; [reflexivity|]. rewrite IH. lia.
Qed.

Lemma sumTXOs_sortDesc l : sumTXOs (sortDesc l) = sumTXOs l.
Proof.
  induction l as [|u l IH]; simpl; [reflexivity|].
  now rewrite sumTXOs_insertDesc, sumTXOs_cons, IH.
Qed.

Lemma insertDesc_length u l : length (insertDesc u l) = S (length l).
Proof.
  induction l as [|v l IH]; simpl; [reflexivity|].
  destruct (_ <=? _); simpl; [reflexivity | now rewrite IH].
Qed.

Lemma sortDesc_length l : length (sortDesc l) = length l.
Proof.
  induction l as [|u l IH]; simpl; [reflexivity|]. now rewrite insertDesc_length, IH.
Qed.

Lemma Forall_insertDesc (P : TXO -> Prop) u l :
  P u -> Forall P l -> Forall P (insertDesc u l).
Proof.
  intros Hu. induction 1 as [|v l Hv Hl IH]; simpl; [now repeat constructor|].
  destruct (_ <=? _); repeat constructor; assumption.
Qed.

Lemma Forall_sortDesc (P : TXO -> Prop) l : Forall P l -> Forall P (sortDesc l).
Proof.
  induction 1 as [|u l Hu Hl IH]; simpl; [constructor|]. now apply Forall_insertDesc.
Qed.

Lemma sumTXOs_nonneg l :
  Forall (fun u => 0 <= amount (txo_note u)) l -> 0 <= sumTXOs l.
Proof.
  induction 1 as [|u l Hu Hl IH]; [reflexivity|]. rewrite sumTXOs_cons. lia.
Qed.

(** The greedy loop takes every UTXO when no shorter prefix reaches the
    amount. *)
Lemma accumulate_all required (available : list TXO) : forall utxos,
  (forall k, (k < length available)%nat ->
             sumTXOs (utxos ++ take k available) < required) ->
  required <= sumTXOs (utxos ++ available) ->
  accumulate required available utxos = Ok (utxos ++ available).
Proof.
  induction available as [|next rest IH]; intros utxos Hshort Hall; simpl.
  - rewrite app_nil_r in *. destruct (Z.ltb_spec (sumTXOs utxos) required); [lia|reflexivity].
  - pose proof (Hshort 0%nat ltac:(simpl; lia)) as H0. simpl in H0. rewrite app_nil_r in H0.
    destruct (Z.ltb_spec (sumTXOs utxos) required); [|lia].
    rewrite IH, <- app_assoc; [reflexivity| |].
    + intros k Hk. rewrite <- app_assoc. apply (Hshort (S k)). simpl. lia.
    + now rewrite <- app_assoc.
Qed.

(** A tree without a solution gives the empty array, and draws nothing. *)
Lemma solveTree_noSolution tx required treeBalance treeIndex w :
  noSolution required treeBalance ->
  solveTree tx required treeBalance treeIndex w = (Ok [], w).
Proof.
  unfold solveTree. intros Hno.
  destruct (Z.ltb_spec (Wallet.balance treeBalance) required) as [Hlt|Hge]; [reflexivity|].
  destruct Hno as [Hlow|(selected & Hsel & Hlen)]; [lia|].
  unfold bind, lift. rewrite Hsel.
  unfold NOTE_INPUTS_large in Hlen.
  rewrite !decide_False by (unfold NOTE_INPUTS_small, NOTE_INPUTS_large; lia).
  reflexivity.
Qed.

Lemma mapSparse_noSolution tx required (arr : JSArray.t Wallet.TokenBalance) : forall i w,
  Forall (fun slot => exists tb, slot = Some tb /\ noSolution required tb) arr ->
  mapSparse (solveTree tx required) arr i w = (Ok (map (fun _ => Some []) arr), w).
Proof.
  induction arr as [|slot arr IH]; intros i w Hall; [reflexivity|].
  apply Forall_cons in Hall as [(tb & -> & Hno) Hall]. simpl.
  unfold bind. rewrite solveTree_noSolution by assumption.
  now rewrite IH.
Qed.

Lemma no_token_mismatch (tok : Bytes) (outs : list ERC20Note) : forall (f : nat -> nat),
  Forall (fun o => token o = tok) outs ->
  filter (fun io : nat * ERC20Note => token (snd io) <> tok)
    (imap (fun i o => (f i, o)) outs) = [].
Proof.
  induction outs as [|o outs IH]; intros f Hall; [reflexivity|].
  apply Forall_cons in Hall as [Ho Hall]. simpl.
  rewrite filter_cons_False by (simpl; intros Hne; contradiction).
  apply (IH (fun i => f (S i)) Hall).
Qed.

(** Eleven notes of which the ten largest fall short need more than ten
    inputs. *)
Lemma eleven_notes_need_more_than_large required treeBalance :
  length (Wallet.utxos treeBalance) = 11%nat ->
  Forall (fun u => 0 <= amount (txo_note u)) (Wallet.utxos treeBalance) ->
  sumTXOs (take 10 (sortDesc (Wallet.utxos treeBalance))) < required ->
  required <= sumTXOs (Wallet.utxos treeBalance) ->
  needsMoreThanLarge required treeBalance.
Proof.
  intros Hlen Hpos Hten Hall.
  exists (sortDesc (Wallet.utxos treeBalance)). split.
  - apply (accumulate_all required _ []); simpl; [|now rewrite sumTXOs_sortDesc].
    intros k Hk. rewrite sortDesc_length, Hlen in Hk.
    set (sorted := sortDesc (Wallet.utxos treeBalance)) in *.
    assert (Hsplit : take 10 sorted = take k sorted ++ drop k (take 10 sorted)).
    { rewrite <- (take_drop k (take 10 sorted)) at 1.
      rewrite take_take. f_equal. f_equal. lia. }
    rewrite Hsplit, sumTXOs_app in Hten.
    assert (0 <= sumTXOs (drop k (take 10 sorted))); [|lia].
    apply sumTXOs_nonneg, Forall_drop, Forall_take, Forall_sortDesc, Hpos.
  - rewrite sortDesc_length, Hlen. unfold NOTE_INPUTS_large. lia.
Qed.


End BuilderFacts.

(** ** Address codec: what [decode] accepts *)

Section DecodeFacts.
Context {b32 : Bech32Encode.Bech32}.
Import Bech32Encode.

Lemma version_byte (data : Bytes) :
  bytes.numberify (BStr (take 1 data)) = constants.VERSION
  <-> exists pk, data = x01 :: pk.
Proof.
  unfold constants.VERSION. destruct data as [|b0 pk]; simpl.
  - split; [discriminate | intros [pk E]; discriminate].
  - unfold bytes.byte_val. split.
    + intros E. exists pk. f_equal.
      assert (Hb : Byte.to_N b0 = 1%N) by lia.
      pose proof (Byte.of_to_N b0) as Hof. rewrite Hb in Hof.
      now injection Hof.
    + intros [pk' [= -> _]]. reflexivity.
Qed.

Lemma prefix_of_table prefix :
  JSArray.includes prefixes prefix = true ->
  exists c, knownChain c = true
            /\ JSArray.get prefixes c = Some prefix
            /\ JSArray.indexOf prefixes prefix = Some c.
Proof.
  intros Hin. apply bool_decide_eq_true_1 in Hin.
  apply list_elem_of_lookup in Hin as [c Hc].
  assert (Hlt : (c < 138)%nat).
  { apply lookup_lt_Some in Hc. now rewrite prefixes_length in Hc. }
  destruct (knownChain c) eqn:Hk.
  - destruct (known_chain_prefix c Hk) as (p & Hp & _ & Hx & _).
    unfold JSArray.get in Hp. rewrite Hc in Hp. injection Hp as <-.
    exists c. repeat split; try assumption. unfold JSArray.get. now rewrite Hc.
  - apply unknown_chain_no_prefix in Hk. unfold JSArray.get in Hk.
    rewrite Hc in Hk. discriminate.
Qed.

Lemma prefix_not_in_table prefix :
  (forall c, JSArray.get prefixes c <> Some prefix) ->
  JSArray.includes prefixes prefix = false.
Proof.
  intros Hno. destruct (JSArray.includes prefixes prefix) eqn:Hin; [|reflexivity].
  destruct (prefix_of_table _ Hin) as (c & _ & Hc & _). now destruct (Hno c).
Qed.

(** X1.  [decode] returns an address exactly when the decoded payload is
    the version byte 1 followed by the key, and the prefix is that of a
    chain of the table (the chain ID returned) or 'rgany' (no chain ID).
    A failure of the bech32 library is passed on; a payload that does not
    start with the version byte is rejected as 'Incorrect address version'
    whatever the prefix; an unknown prefix as 'Address prefix
    unrecognized'. *)
Theorem decode_accepts_version_one_and_known_prefixes (address : string) :
  (forall d,
      decode address = Ok d
      <-> exists prefix pk,
            bech32decode address = Ok (prefix, x01 :: pk)
            /\ d_pubkey d = pk
            /\ ((exists c, knownChain c = true
                           /\ JSArray.get prefixes c = Some prefix
                           /\ chainID d = Some c)
                \/ (prefix = "rgany"%string /\ chainID d = None)))
  /\ (forall e, bech32decode address = Throw e -> decode address = Throw e)
  /\ (forall prefix data,
        bech32decode address = Ok (prefix, data) ->
        (forall pk, data <> x01 :: pk) ->
        decode address = Throw IncorrectAddressVersion)
  /\ (forall prefix pk,
        bech32decode address = Ok (prefix, x01 :: pk) ->
        (forall c, JSArray.get prefixes c <> Some prefix) ->
        prefix <> "rgany"%string ->
        decode address = Throw AddressPrefixUnrecognized).
Proof.
  split; [|split; [|split]].
  - intros d. unfold decode. split.
    + destruct (bech32decode address) as [[prefix data]| |]; try discriminate.
      simpl bytes.hexlify.
      destruct (decide (bytes.numberify (BStr (take 1 data)) = constants.VERSION)) as [Hv|Hv].
      * rewrite (proj2 (Z.eqb_eq _ _) Hv). simpl negb. cbv iota.
        apply version_byte in Hv as [pk ->]. simpl drop.
        destruct (JSArray.includes prefixes prefix) eqn:Hin.
        -- intros [= <-]. exists prefix, pk. repeat split; simpl.
           left. destruct (prefix_of_table _ Hin) as (c & Hk & Hc & Hx). eauto.
        -- destruct (String.eqb prefix "rgany") eqn:Hany; [|discriminate].
           intros [= <-]. apply String.eqb_eq in Hany. subst prefix.
           exists "rgany"%string, pk. repeat split; simpl. now right.
      * rewrite (proj2 (Z.eqb_neq _ _) Hv). discriminate.
    + intros (prefix & pk & -> & Hpk & Hc). simpl bytes.hexlify.
      rewrite (proj2 (Z.eqb_eq _ _) (proj2 (version_byte (x01 :: pk)) (ex_intro _ pk eq_refl))).
      simpl negb. cbv iota. simpl drop. destruct d as [dc dp]. simpl in *. subst dp.
      destruct Hc as [(c & Hk & Hc & ->)|[-> ->]].
      * destruct (known_chain_prefix c Hk) as (p & Hp & Hi & Hx & _).
        rewrite Hc in Hp. injection Hp as <-. now rewrite Hi, Hx.
      * reflexivity.
  - intros e E. unfold decode. now rewrite E.
  - intros prefix data E Hno. unfold decode. rewrite E. simpl bytes.hexlify.
    destruct (decide (bytes.numberify (BStr (take 1 data)) = constants.VERSION)) as [Hv|Hv].
    + apply version_byte in Hv as [pk ->]. now destruct (Hno pk).
    + now rewrite (proj2 (Z.eqb_neq _ _) Hv).
  - intros prefix pk E Hno Hany. unfold decode. rewrite E. simpl bytes.hexlify.
    rewrite (proj2 (Z.eqb_eq _ _) (proj2 (version_byte (x01 :: pk)) (ex_intro _ pk eq_refl))).
    simpl negb. cbv iota. rewrite (prefix_not_in_table _ Hno).
    now rewrite (proj2 (String.eqb_neq _ _) Hany).
Qed.

End DecodeFacts.

(** ** Prover adapter: formatting and effects *)

Section FormatFacts.
Context {cr : Crypto} {sn : Prover.Snark}.
Import Prover.

Lemma mapRes_Ok_Forall2 {A B} (f : A -> Res B) (l : list A) : forall r,
  mapRes f l = Ok r <-> Forall2 (fun x y => f x = Ok y) l r.
Proof.
  induction l as [|x l IH]; intros r; simpl.
  - split; [intros [= <-]; constructor | intros H; now inversion H].
  - split.
    + destruct (f x) as [y| |] eqn:Ex; try discriminate.
      destruct (mapRes f l) as [ys| |]; try discriminate.
      intros [= <-]. constructor; [exact Ex | now apply IH].
    + intros H. inversion H as [|x' y l' ys Hy Hys]; subst.
      rewrite Hy. apply IH in Hys. now rewrite Hys.
Qed.

Lemma mapRes_Throw_iff {A B} (f : A -> Res B) (l : list A) e :
  mapRes f l = Throw e
  <-> exists i x, l !! i = Some x /\ f x = Throw e
                  /\ forall j y, (j < i)%nat -> l !! j = Some y -> exists z, f y = Ok z.
Proof.
  induction l as [|x l IH]; simpl.
  - split; [discriminate | intros (i & x & Hx & _); inversion Hx].
  - split.
    + destruct (f x) as [y| |] eqn:Ex; try discriminate.
      * destruct (mapRes f l) as [ys| |] eqn:El; try discriminate.
        intros [= ->]. destruct (proj1 IH eq_refl) as (i & x' & Hi & Hf & Hb).
        exists (S i), x'. repeat split; try assumption.
        intros [|j] y' Hj Hy; simpl in Hy; [injection Hy as <-; eauto|].
        apply (Hb j); [lia | exact Hy].
      * intros [= ->]. exists 0%nat, x. repeat split; try assumption. intros; lia.
    + intros (i & x' & Hi & Hf & Hb). destruct i as [|i]; simpl in Hi.
      * injection Hi as <-. now rewrite Hf.
      * destruct (Hb 0%nat x) as [z Hz]; [lia | reflexivity |]. rewrite Hz.
        assert (El : mapRes f l = Throw e).
        { apply IH. exists i, x'. repeat split; try assumption.
          intros j y Hj Hy. apply (Hb (S j)); [lia | exact Hy]. }
        now rewrite El.
Qed.


(** X3.  [prove] never touches the wallet's store, details or scan locks.
    When the artifacts cannot be fetched, the inputs cannot be formatted or
    the witness calculator fails, it throws that error and leaves the world
    as it was; once the calculator has answered, the witness is in
    'out.wtns' and one draw has been made from the random source, whether
    or not a proof is returned. *)
Theorem prove_touches_only_the_witness_file p circuit (inputs : PrivateInputs) w r w' :
  prove p circuit inputs w = (r, w') ->
  (db w' = db w /\ details w' = details w /\ scanLockPerChain w' = scanLockPerChain w)
  /\ (forall e, artifactsGetter p circuit = Throw e -> r = Throw e /\ w' = w)
  /\ (forall art e,
        artifactsGetter p circuit = Ok art ->
        formatPrivateInputs inputs true = Throw e -> r = Throw e /\ w' = w)
  /\ (forall art f e,
        artifactsGetter p circuit = Ok art ->
        formatPrivateInputs inputs true = Ok f ->
        native_prove f = Throw e -> r = Throw e /\ w' = w)
  /\ (forall art f wtns,
        artifactsGetter p circuit = Ok art ->
        formatPrivateInputs inputs true = Ok f ->
        native_prove f = Ok wtns ->
        files w' = <[out_wtns := wtns]> (files w)
        /\ entropy w' = S (entropy w)).
Proof.
  unfold prove, generate, verify, bind, lift, gets, modify, ret, throw.
  destruct (artifactsGetter p circuit) as [art| |] eqn:Ea.
  2,3: intros [= <- <-]; repeat split; intros; congruence.
  destruct (formatPrivateInputs inputs true) as [f| |] eqn:Ef.
  2,3: intros [= <- <-]; repeat split; intros; congruence.
  destruct (native_prove f) as [wtns| |] eqn:En.
  2,3: intros [= <- <-]; repeat split; intros; congruence.
  cbn [files set_files set_entropy entropy]. rewrite lookup_insert_eq.
  destruct (groth16_prove (zkey art) wtns (entropy w)) as [raw| |].
  2,3: intros [= <- <-]; repeat split; intros; try congruence;
       match goal with
       | H1 : Ok _ = Ok ?f', H2 : native_prove ?f' = _ |- _ =>
           injection H1 as <-; rewrite En in H2; now injection H2 as <-
       end.
  cbv beta iota.
  destruct (groth16_verify _ _ _) as [[|]| |]; simpl;
    intros [= <- <-]; repeat split; intros; try congruence;
    match goal with
    | H1 : Ok _ = Ok ?f', H2 : native_prove ?f' = _ |- _ =>
        injection H1 as <-; rewrite En in H2; now injection H2 as <-
    end.
Qed.

End FormatFacts.

(** ** Transaction builder: validation, inputs, value *)

Section BuilderChecks.
Context {cr : Crypto} {sn : Prover.Snark}.
Import ERC20Transaction.

Lemma first_token_mismatch (tok : Bytes) (outs : list ERC20Note) :
  forall (f : nat -> nat) index output,
  outs !! index = Some output ->
  token output <> tok ->
  (forall j o, (j < index)%nat -> outs !! j = Some o -> token o = tok) ->
  head (filter (fun io : nat * ERC20Note => token (snd io) <> tok)
          (imap (fun i o => (f i, o)) outs)) = Some (f index, output).
Proof.
  induction outs as [|o outs IH]; intros f index output Hi Hne Hb; [inversion Hi|].
  simpl. destruct index as [|index]; simpl in Hi.
  - injection Hi as ->. now rewrite filter_cons_True.
  - rewrite filter_cons_False.
    + apply (IH (fun i => f (S i)) index output Hi Hne).
      intros j o' Hj Ho'. apply (Hb (S j)); [lia | exact Ho'].
    + simpl. intros Hn. apply Hn, (Hb 0%nat); [lia | reflexivity].
Qed.

Lemma all_tokens_match (tok : Bytes) (outs : list ERC20Note) : forall (f : nat -> nat),
  head (filter (fun io : nat * ERC20Note => token (snd io) <> tok)
          (imap (fun i o => (f i, o)) outs)) = None ->
  Forall (fun o => token o = tok) outs.
Proof.
  induction outs as [|o outs IH]; intros f Hh; [constructor|].
  simpl in Hh. destruct (decide (token o = tok)) as [Ho|Ho].
  - rewrite filter_cons_False in Hh by (simpl; intros Hn; contradiction).
    constructor; [exact Ho | apply (IH (fun i => f (S i)) Hh)].
  - rewrite filter_cons_True in Hh by exact Ho. discriminate.
Qed.

(** X4.  [generateInputs] looks at the outputs before anything else: more
    than two outputs are refused as 'Too many outputs specified', and
    otherwise the first output whose token is not the token of the
    transaction is refused as 'TokenID mismatch on output i'; in both cases
    the wallet has not been read and the world is as it was. *)
Theorem generateInputs_checks_outputs_first tx wallet encKey w :
  ((2 < length (outputs tx))%nat ->
   generateInputs tx wallet encKey w = (Throw TooManyOutputs, w))
  /\ (forall index output,
        (length (outputs tx) <= 2)%nat ->
        outputs tx !! index = Some output ->
        token output <> token_ tx ->
        (forall j o, (j < index)%nat -> outputs tx !! j = Some o -> token o = token_ tx) ->
        generateInputs tx wallet encKey w = (Throw (TokenIDMismatch index), w)).
Proof.
  split.
  - intros Hlen. unfold generateInputs.
    now rewrite (proj2 (Nat.ltb_lt _ _) Hlen).
  - intros index output Hlen Hi Hne Hb. unfold generateInputs.
    rewrite (proj2 (Nat.ltb_ge _ _) Hlen).
    now rewrite (first_token_mismatch (token_ tx) (outputs tx) (fun i => i) index output).
Qed.

(** X5.  [generateInputs] returns only for a transaction that passed every
    check: at most two outputs, all of the token of the transaction; the
    encryption key of the wallet; a balance of the token, summed over the
    trees, that covers outputs + withdraw - deposit; a withdraw address
    when the withdraw amount is positive, and none when it is zero. *)
Theorem generateInputs_succeeds_only_when_valid tx wallet encKey w g w' :
  generateInputs tx wallet encKey w = (Ok g, w') ->
  (length (outputs tx) <= 2)%nat
  /\ Forall (fun o => token o = token_ tx) (outputs tx)
  /\ bytes.hexlify encKey = bytes.hexlify (Wallet.encryptionKey wallet)
  /\ (exists byTree w1,
        Wallet.balancesByTree wallet (chainID tx) w = (Ok byTree, w1)
        /\ totalRequired tx <= sumBalances (default [] (byTree !! token_ tx)))
  /\ (0 < withdraw tx -> is_Some (withdrawAddress tx))
  /\ (withdraw tx = 0 -> withdrawAddress tx = None).
Proof.
  intros E.
  assert (Hkey : bytes.hexlify encKey = bytes.hexlify (Wallet.encryptionKey wallet)).
  { destruct (generateInputs_inv _ _ _ _ _ _ E)
      as (_ & _ & _ & _ & _ & _ & changeKey & _ & _ & _ & _ & _ & _ & _ & Hk & _).
    unfold Wallet.getKeypair in Hk. now destruct (decide _). }
  unfold generateInputs in E.
  destruct (2 <? length (outputs tx))%nat eqn:Hout; [discriminate|].
  apply Nat.ltb_ge in Hout.
  destruct (head _) as [[? ?]|] eqn:Htok; [discriminate|].
  apply (all_tokens_match (token_ tx) (outputs tx) (fun i => i)) in Htok.
  apply bind_Ok_inv in E as (byTree & w1 & EbyTree & E).
  fold (totalRequired tx) in E. fold (sumBalances (default [] (byTree !! token_ tx))) in E.
  destruct (Z.ltb_spec (sumBalances (default [] (byTree !! token_ tx))) (totalRequired tx))
    as [Hlow|Hbal]; [discriminate|].
  apply bind_Ok_inv in E as (solutions & w2 & Esol & E).
  apply bind_Ok_inv in E as (otree & w3 & Etree & E).
  destruct otree as [chosen|]; [|discriminate].
  destruct ((0 <? withdraw tx) && negb (bytes.defined (withdrawAddress tx))) eqn:H1;
    [discriminate|].
  destruct ((withdraw tx =? 0) && bytes.defined (withdrawAddress tx)) eqn:H2;
    [discriminate|].
  repeat split; try assumption.
  - eauto.
  - intros Hpos. apply (proj2 (Z.ltb_lt _ _)) in Hpos. rewrite Hpos in H1.
    destruct (withdrawAddress tx); [eauto | discriminate].
  - intros Hz. rewrite Hz in H2. destruct (withdrawAddress tx); [discriminate | reflexivity].
Qed.

(** X6.  When no tree is pinned (or tree 0 is), a successful
    [generateInputs] has exactly 2 or exactly 10 inputs: nullifiers,
    spending keys, path elements, path indices, input nonces and input
    values all have that length, and [prove] takes the small circuit
    exactly when it is 2. *)
Theorem generateInputs_unpinned_has_two_or_ten_inputs tx wallet encKey w g w' :
  generateInputs tx wallet encKey w = (Ok g, w') ->
  tree tx = None \/ tree tx = Some 0%nat ->
  let n := length (Prover.nullifiers (inputs g)) in
  (n = 2%nat \/ n = 10%nat)
  /\ length (Prover.spendingKeys (inputs g)) = n
  /\ length (Prover.pathElements (inputs g)) = n
  /\ length (Prover.pathIndices (inputs g)) = n
  /\ length (Prover.randomIn (inputs g)) = n
  /\ length (Prover.valuesIn (inputs g)) = n
  /\ (circuitFor g = Prover.erc20small <-> n = 2%nat)
  /\ (circuitFor g = Prover.erc20large <-> n = 10%nat).
Proof.
  intros E Hpin.
  destruct (generateInputs_lengths _ _ _ _ _ _ E)
    as (Hn & Hzero & Hsk & Hpe & Hpi & Hri & Hvi & _).
  cbn zeta in *.
  assert (Hn' : length (Prover.nullifiers (inputs g)) = 2%nat
                \/ length (Prover.nullifiers (inputs g)) = 10%nat).
  { destruct Hn as [Hz|Hn]; [|exact Hn].
    destruct (Hzero Hz) as [t Ht]. destruct Hpin; congruence. }
  repeat split; try assumption; unfold circuitFor, NOTE_INPUTS_small;
    destruct (decide _); try congruence; try discriminate; intros; lia.
Qed.

(** The sum of a list of values, as numbers. *)
Lemma sumNotes_from (l : list ERC20Note) : forall acc,
  fold_left (fun left right => left + amount right) l acc = acc + sumNotes l.
Proof.
  unfold sumNotes. induction l as [|u l IH]; intros acc; simpl; [lia|].
  rewrite IH, (IH (0 + _)). lia.
Qed.

Lemma sumNotes_app l1 l2 : sumNotes (l1 ++ l2) = sumNotes l1 + sumNotes l2.
Proof. unfold sumNotes at 1. rewrite fold_left_app, sumNotes_from. reflexivity. Qed.

Lemma sumNotes_zero l : Forall (fun n => amount n = 0) l -> sumNotes l = 0.
Proof.
  induction 1 as [|n l Hn _ IH]; [reflexivity|].
  change (n :: l) with ([n] ++ l). rewrite sumNotes_app, IH. unfold sumNotes. simpl. lia.
Qed.

Lemma sumValues_notes (l : list ERC20Note) :
  sumValues (map (fun output => BBN (amount output)) l) = sumNotes l.
Proof.
  unfold sumValues. induction l as [|n l IH]; [reflexivity|].
  simpl. rewrite IH. change (n :: l) with ([n] ++ l). rewrite sumNotes_app.
  unfold sumNotes at 2. simpl. lia.
Qed.

Lemma sumValues_TXOs (l : list TXO) :
  sumValues (map (fun utxo => BBN (amount (txo_note utxo))) l) = sumTXOs l.
Proof.
  unfold sumValues. induction l as [|u l IH]; [reflexivity|].
  simpl. rewrite IH, sumTXOs_cons. reflexivity.
Qed.

(** X7.  A successful [generateInputs] conserves value: the input values
    plus the deposit equal the output values plus the withdrawal, the
    amounts the public inputs carry being the deposit and the withdrawal
    of the transaction. *)
Theorem generateInputs_conserves_value tx wallet encKey w g w' :
  generateInputs tx wallet encKey w = (Ok g, w') ->
  sumValues (Prover.valuesIn (inputs g)) + deposit tx
  = sumValues (Prover.valuesOut (inputs g)) + withdraw tx
  /\ Prover.depositAmount (inputs g) = BBN (deposit tx)
  /\ Prover.withdrawAmount (inputs g) = BBN (withdraw tx).
Proof.
  intros E.
  destruct (generateInputs_inv _ _ _ _ _ _ E)
    as (byTree & w1 & solutions & w2 & chosen & solution & changeKey & changeRandom
        & dummies & _ & _ & _ & _ & _ & _ & _ & Hdz & Hall).
  cbn zeta in Hall.
  destruct Hall as (_ & _ & _ & _ & _ & _ & Hvi & _ & _ & Hvo & _).
  split.
  - rewrite Hvi, Hvo, sumValues_TXOs, sumValues_notes, !sumNotes_app.
    rewrite (sumNotes_zero dummies Hdz).
    unfold sumNotes at 2. simpl. unfold changeAmount. lia.
  - clear -E. unfold generateInputs in E.
    destruct (2 <? length (outputs tx))%nat; [discriminate|].
    destruct (head _) as [[? ?]|]; [discriminate|].
    apply bind_Ok_inv in E as (byTree & w1 & _ & E).
    destruct (_ <? _); [discriminate|].
    apply bind_Ok_inv in E as (solutions & w2 & _ & E).
    apply bind_Ok_inv in E as (otree & w3 & _ & E).
    destruct otree as [chosen|]; [|discriminate].
    destruct (_ && _); [discriminate|].
    destruct (_ && _); [discriminate|].
    destruct (JSArray.get solutions chosen) as [solution|]; [|discriminate].
    apply bind_Ok_inv in E as (spent & w4 & _ & E).
    apply bind_Ok_inv in E as (changeKey & w5 & _ & E).
    apply bind_Ok_inv in E as (changeRandom & w6 & _ & E).
    apply bind_Ok_inv in E as (dummies & w7 & _ & E).
    apply bind_Ok_inv in E as (ciphertext & w8 & _ & E).
    apply bind_Ok_inv in E as (hashed & w9 & _ & E).
    apply bind_Ok_inv in E as (root & w10 & _ & E).
    apply bind_Ok_inv in E as (hashes & w11 & _ & E).
    injection E as <- <-. split; reflexivity.
Qed.

End BuilderChecks.

(** ** Transaction builder: the solution of a tree *)

Section SolverFacts.
Context {cr : Crypto} {sn : Prover.Snark}.
Import ERC20Transaction.

Lemma insertDesc_Permutation u l : insertDesc u l ≡ₚ u :: l.
Proof.
  induction l as [|v l IH]; simpl; [reflexivity|].
  destruct (_ <=? _); [reflexivity|]. rewrite IH. apply Permutation_swap.
Qed.

Lemma sortDesc_Permutation l : sortDesc l ≡ₚ l.
Proof.
  unfold sortDesc. induction l as [|u l IH]; simpl; [reflexivity|].
  now rewrite insertDesc_Permutation, IH.
Qed.

(** The [while] loop selects a prefix of the sorted notes, the shortest one
    that reaches the amount. *)
Lemma accumulate_prefix required (available : list TXO) : forall utxos selected,
  accumulate required available utxos = Ok selected ->
  exists k, selected = utxos ++ take k available
            /\ (k <= length available)%nat
            /\ required <= sumTXOs selected.
Proof.
  induction available as [|next rest IH]; intros utxos selected E; simpl in E.
  - destruct (Z.ltb_spec (sumTXOs utxos) required); [discriminate|].
    injection E as <-. exists 0%nat. rewrite app_nil_r. auto.
  - destruct (Z.ltb_spec (sumTXOs utxos) required).
    + destruct (IH _ _ E) as (k & -> & Hk & Hsum).
      exists (S k). rewrite <- app_assoc in *. simpl. repeat split; [lia | exact Hsum].
    + injection E as <-. exists 0%nat. rewrite app_nil_r. repeat split; [simpl; lia | assumption].
Qed.

Lemma dummyInputs_spec tx tree count : forall w r w',
  dummyInputs tx tree count w = (Ok r, w') ->
  length r = count
  /\ Forall (fun d => is_Some (txo_dummyKey d)
                      /\ amount (txo_note d) = 0
                      /\ txo_tree d = tree) r.
Proof.
  induction count as [|n IH]; intros w r w' E; simpl in E.
  - injection E as <- <-. auto.
  - apply bind_Ok_inv in E as (d & w1 & E1 & E).
    apply bind_Ok_inv in E as (ds & w2 & E2 & E).
    injection E as <- <-. destruct (IH _ _ _ E2) as [Hl Hd].
    split; [simpl; now f_equal|]. constructor; [|exact Hd].
    unfold dummyInput in E1.
    apply bind_Ok_inv in E1 as (seed & wa & _ & E1).
    apply bind_Ok_inv in E1 as (rnd & wb & _ & E1).
    injection E1 as <- <-. simpl. eauto.
Qed.

Lemma sumTXOs_zero l :
  Forall (fun d => amount (txo_note d) = 0) l -> sumTXOs l = 0.
Proof.
  induction 1 as [|d l Hd _ IH]; [reflexivity|]. rewrite sumTXOs_cons. lia.
Qed.

Lemma sumTXOs_rev l : sumTXOs (rev l) = sumTXOs l.
Proof.
  induction l as [|u l IH]; [reflexivity|].
  simpl. rewrite sumTXOs_app, IH, !sumTXOs_cons. unfold sumTXOs at 2. simpl. lia.
Qed.

Lemma sumTXOs_nonneg_take k l :
  Forall (fun u => 0 <= amount (txo_note u)) l -> sumTXOs (take k l) <= sumTXOs l.
Proof.
  intros Hpos. rewrite <- (take_drop k l) at 2. rewrite sumTXOs_app.
  pose proof (sumTXOs_nonneg (drop k l) (Forall_drop _ _ _ Hpos)). lia.
Qed.

(** What [fillUTXOs] makes of a selected prefix of the sorted notes. *)
Lemma fillUTXOs_spec tx tree sorted k len w r w' :
  (k <= len)%nat -> (k <= length sorted)%nat ->
  Forall (fun u => 0 <= amount (txo_note u)) sorted ->
  fillUTXOs tx tree sorted (take k sorted) len w = (Ok r, w') ->
  exists real dummies,
    r = real ++ dummies
    /\ real ⊆+ sorted
    /\ (dummies <> [] -> real = sorted)
    /\ length r = len
    /\ Forall (fun d => is_Some (txo_dummyKey d)
                        /\ amount (txo_note d) = 0
                        /\ txo_tree d = tree) dummies
    /\ sumTXOs (take k sorted) <= sumTXOs r.
Proof.
  intros Hk Hks Hpos. unfold fillUTXOs.
  destruct (decide (length sorted < len)%nat) as [Hlt|Hge]; intros E.
  - apply bind_Ok_inv in E as (ds & w1 & E1 & E). injection E as <- <-.
    apply dummyInputs_spec in E1 as [Hl Hd].
    exists sorted, ds. repeat split; try assumption; try reflexivity.
    + rewrite length_app, Hl. lia.
    + rewrite sumTXOs_app, (sumTXOs_zero ds).
      * pose proof (sumTXOs_nonneg_take k sorted Hpos). lia.
      * eapply Forall_impl; [exact Hd|]. now intros d (_ & Hz & _).
  - injection E as <- <-.
    rewrite length_take, Nat.min_l by exact Hks.
    set (m := (len - k)%nat).
    rewrite firstn_rev.
    assert (Hdrop : drop (length sorted - m) sorted
                    = drop (length sorted - m - k) (drop k sorted)).
    { rewrite drop_drop. f_equal. lia. }
    exists (take k sorted ++ rev (drop (length sorted - m) sorted)), [].
    rewrite app_nil_r. repeat split.
    + rewrite Hdrop, <- Permutation_rev.
      assert (Hsub : take k sorted ++ drop (length sorted - m - k) (drop k sorted)
                     ⊆+ take k sorted ++ drop k sorted)
        by apply submseteq_skips_l, submseteq_drop.
      now rewrite take_drop in Hsub.
    + intros Hne. now destruct Hne.
    + rewrite length_app, length_take, length_rev, length_drop. lia.
    + constructor.
    + rewrite sumTXOs_app, sumTXOs_rev.
      pose proof (sumTXOs_nonneg (drop (length sorted - m) sorted)
                    (Forall_drop _ _ _ Hpos)). lia.
Qed.

(** X8.  The solution [generateInputs] computes for a tree whose notes
    have non-negative amounts is empty, or it has exactly 2 or 10 inputs:
    notes of the tree, none of them taken twice, followed by dummy notes of
    amount zero that carry their own key; the dummies are there only when
    every note of the tree is spent; and the inputs together reach the
    amount required. *)
Theorem solveTree_spends_each_note_once tx required treeBalance tree w solution w' :
  Forall (fun u => 0 <= amount (txo_note u)) (Wallet.utxos treeBalance) ->
  solveTree tx required treeBalance tree w = (Ok solution, w') ->
  solution = []
  \/ exists real dummies,
       solution = real ++ dummies
       /\ real ⊆+ Wallet.utxos treeBalance
       /\ (dummies <> [] -> real ≡ₚ Wallet.utxos treeBalance)
       /\ Forall (fun d => is_Some (txo_dummyKey d)
                           /\ amount (txo_note d) = 0
                           /\ txo_tree d = tree) dummies
       /\ (length solution = 2%nat \/ length solution = 10%nat)
       /\ required <= sumTXOs solution.
Proof.
  intros Hpos. unfold solveTree.
  destruct (Wallet.balance treeBalance <? required); intros E.
  { injection E as <- <-. now left. }
  apply bind_Ok_inv in E as (utxos & w1 & Eacc & E).
  apply lift_Ok_inv in Eacc as [Eacc ->].
  apply accumulate_prefix in Eacc as (k & -> & Hk & Hsum). simpl in *.
  set (sorted := sortDesc (Wallet.utxos treeBalance)) in *.
  assert (Hps : Forall (fun u => 0 <= amount (txo_note u)) sorted)
    by now apply Forall_sortDesc.
  assert (Hfill : forall len,
             (k <= len)%nat ->
             fillUTXOs tx tree sorted (take k sorted) len w = (Ok solution, w') ->
             len = 2%nat \/ len = 10%nat ->
             exists real dummies,
               solution = real ++ dummies
               /\ real ⊆+ Wallet.utxos treeBalance
               /\ (dummies <> [] -> real ≡ₚ Wallet.utxos treeBalance)
               /\ Forall (fun d => is_Some (txo_dummyKey d)
                                   /\ amount (txo_note d) = 0
                                   /\ txo_tree d = tree) dummies
               /\ (length solution = 2%nat \/ length solution = 10%nat)
               /\ required <= sumTXOs solution).
  { intros len Hle Ef Hlen.
    destruct (fillUTXOs_spec _ _ _ _ _ _ _ _ Hle Hk Hps Ef)
      as (real & dummies & -> & Hsub & Hall & Hl & Hd & Hs).
    exists real, dummies. repeat split; try assumption.
    - unfold sorted in Hsub. now rewrite sortDesc_Permutation in Hsub.
    - intros Hne. rewrite (Hall Hne). apply sortDesc_Permutation.
    - rewrite Hl. exact Hlen.
    - lia. }
  rewrite length_take, Nat.min_l in E by exact Hk.
  destruct (decide (k <= NOTE_INPUTS_small)%nat) as [Hs|Hs].
  { right. apply (Hfill NOTE_INPUTS_small); auto. }
  destruct (decide (k <= NOTE_INPUTS_large)%nat) as [Hl|Hl].
  { right. apply (Hfill NOTE_INPUTS_large); auto. }
  injection E as <- <-. now left.
Qed.

End SolverFacts.

(** ** Transaction builder: [prove] *)

Section TransactionProveFacts.
Context {cr : Crypto} {sn : Prover.Snark}.
Import ERC20Transaction.

(** X9.  A serialized transaction returned by [ERC20Transaction.prove]
    carries the nullifiers, commitments, tree number, merkle root, deposit
    and withdraw amounts of the inputs [generateInputs] built, and a proof
    that [Prover.verify] accepts for their public part on the circuit
    chosen by the number of nullifiers.  An error of [generateInputs] is
    passed on, and the prover is not called. *)
Theorem transaction_prove_serializes_a_verified_proof tx prover wallet encKey w :
  (forall s w',
      prove tx prover wallet encKey w = (Ok s, w') ->
      exists g w1,
        generateInputs tx wallet encKey w = (Ok g, w1)
        /\ s_nullifiers s = Prover.nullifiers (inputs g)
        /\ s_commitments s = commitments g
        /\ s_treeNumber s = Prover.treeNumber (inputs g)
        /\ s_merkleRoot s = Prover.merkleRoot (inputs g)
        /\ s_deposit s = Prover.depositAmount (inputs g)
        /\ s_withdraw s = Prover.withdrawAmount (inputs g)
        /\ s_token s = Prover.outputTokenField (inputs g)
        /\ s_withdrawAddress s = Prover.outputEthAddress (inputs g)
        /\ forall w0,
             Prover.verify prover (circuitFor g)
               (Prover.privateToPublicInputs (inputs g)) (s_proof s) w0
             = (Ok true, w0))
  /\ (forall e w1,
        generateInputs tx wallet encKey w = (Throw e, w1) ->
        prove tx prover wallet encKey w = (Throw e, w1)).
Proof.
  split.
  - intros s w' E. unfold prove in E.
    apply bind_Ok_inv in E as (g & w1 & Eg & E).
    apply bind_Ok_inv in E as ([proof pub] & w2 & Ep & E).
    injection E as <- <-. exists g, w1. simpl.
    repeat split; try assumption.
    intros w0. fold (circuitFor g) in Ep.
    apply prove_inv in Ep as [Egen Ev].
    apply generate_public in Egen as [-> _].
    now rewrite (verify_world prover (circuitFor g) _ proof w2 w0), Ev.
  - intros e w1 E. unfold prove, bind. now rewrite E.
Qed.

End TransactionProveFacts.

(** ** Wallet: what a scan leaves behind *)

Section StoreOnlyFacts.

Lemma store_only_refl w : store_only w w.
Proof. repeat split. Qed.

Lemma store_only_trans w1 w2 w3 : store_only w1 w2 -> store_only w2 w3 -> store_only w1 w3.
Proof. unfold store_only. intros (? & ? & ? & ?) (? & ? & ? & ?). repeat split; congruence. Qed.

Lemma StoreOnly_ret {A} (a : A) : StoreOnly (ret a).
Proof. intros w r w' [= <- <-]. apply store_only_refl. Qed.

Lemma StoreOnly_throw {A} e : StoreOnly (@throw A e).
Proof. intros w r w' [= <- <-]. apply store_only_refl. Qed.

Lemma StoreOnly_lift {A} (x : Res A) : StoreOnly (lift x).
Proof. intros w r w' [= <- <-]. apply store_only_refl. Qed.

Lemma StoreOnly_gets {A} (f : World -> A) : StoreOnly (gets f).
Proof. intros w r w' [= <- <-]. apply store_only_refl. Qed.

Lemma StoreOnly_set_db f : StoreOnly (modify (set_db f)).
Proof. intros w r w' [= <- <-]. repeat split. Qed.

Lemma StoreOnly_bind {A B} (m : M A) (k : A -> M B) :
  StoreOnly m -> (forall a, StoreOnly (k a)) -> StoreOnly (bind m k).
Proof.
  intros Hm Hk w r w'. unfold bind.
  destruct (m w) as [[a| |] w1] eqn:Em; intros E.
  - eapply store_only_trans; [eapply Hm, Em | eapply Hk, E].
  - injection E as <- <-. eapply Hm, Em.
  - injection E as <- <-. eapply Hm, Em.
Qed.

Lemma StoreOnly_promiseAll {A} (ms : list (M A)) :
  Forall StoreOnly ms -> StoreOnly (promiseAll ms).
Proof.
  induction 1 as [|m ms Hm _ IH]; [apply StoreOnly_ret|].
  intros w r w'. simpl.
  destruct (m w) as [r1 w1] eqn:Em.
  destruct (promiseAll ms w1) as [rs w2] eqn:Es.
  intros [= <- <-].
  eapply store_only_trans; [eapply Hm, Em | eapply IH, Es].
Qed.

End StoreOnlyFacts.

Section ScanLockFacts.
Context {cr : Crypto}.
Import Wallet.

Lemma StoreOnly_scanIndex wallet index change leaves tree chainID :
  StoreOnly (scanIndex wallet index change leaves tree chainID).
Proof.
  unfold scanIndex.
  apply StoreOnly_bind; [apply StoreOnly_lift|]. intros key.
  apply StoreOnly_bind; [apply StoreOnly_lift|]. intros ops.
  apply StoreOnly_bind; [apply StoreOnly_set_db|]. intros []. apply StoreOnly_ret.
Qed.

Lemma StoreOnly_scanPass wallet leaves change tree chainID usedIndexes height :
  StoreOnly (scanPass wallet leaves change tree chainID usedIndexes height).
Proof.
  unfold scanPass. apply StoreOnly_bind; [|intros; apply StoreOnly_ret].
  apply StoreOnly_promiseAll, Forall_map, Forall_forall. intros i _. simpl.
  destruct (default false (usedIndexes !! i)); [apply StoreOnly_ret | apply StoreOnly_scanIndex].
Qed.

Lemma StoreOnly_scanLoop wallet leaves change tree chainID fuel : forall usedIndexes height,
  StoreOnly (scanLoop fuel wallet leaves change tree chainID usedIndexes height).
Proof.
  induction fuel as [|fuel IH]; intros usedIndexes height; simpl;
    destruct (decide _); try apply StoreOnly_ret.
  - intros w r w' [= <- <-]. apply store_only_refl.
  - apply StoreOnly_bind; [apply StoreOnly_scanPass | intros; apply IH].
Qed.

Lemma StoreOnly_scanLeaves wallet leaves change tree chainID fuel initialHeight :
  StoreOnly (scanLeaves fuel wallet leaves change initialHeight tree chainID).
Proof. apply StoreOnly_scanLoop. Qed.

Lemma StoreOnly_scanTree fuel wallet mt walletDetails tree :
  StoreOnly (scanTree fuel wallet mt walletDetails tree).
Proof.
  unfold scanTree. apply StoreOnly_bind; [|intros; apply StoreOnly_ret].
  apply StoreOnly_promiseAll.
  repeat (apply Forall_cons_2; [apply StoreOnly_scanLeaves|]). apply Forall_nil_2.
Qed.

Lemma StoreOnly_scanTrees fuel wallet mt trees : forall walletDetails,
  StoreOnly (scanTrees fuel wallet mt walletDetails trees).
Proof.
  induction trees as [|tree trees IH]; intros walletDetails; simpl.
  - apply StoreOnly_ret.
  - apply StoreOnly_bind; [apply StoreOnly_scanTree | intros; apply IH].
Qed.

(** What a scan that was not locked out went through. *)
Lemma scan_unlocked fuel wallet chainID w :
  chainID ∉ scanLockPerChain w ->
  scan fuel wallet chainID w
  = match JSArray.get (merkletree wallet) chainID with
    | None => (Throw TypeError, set_lock (union {[chainID]}) w)
    | Some mt =>
        let hs := treeScannedHeights (default defaultDetails (details w)) in
        let ext := hs ++ replicate (latestTree mt + 1 - length hs) 0%nat in
        match scanTrees fuel wallet mt
                {| treeScannedHeights := ext;
                   primaryHeight := primaryHeight (default defaultDetails (details w));
                   changeHeight := changeHeight (default defaultDetails (details w)) |}
                (seq 0 (length ext)) (set_lock (union {[chainID]}) w) with
        | (Ok d', wb) =>
            (Ok tt, set_lock (fun locks => locks ∖ {[chainID]}) (set_details (Some d') wb))
        | (Throw e, wb) => (Throw e, wb)
        | (OutOfFuel, wb) => (OutOfFuel, wb)
        end
    end.
Proof.
  intros Hn. unfold scan, bind, gets, modify, getWalletDetails, throw. simpl.
  rewrite bool_decide_eq_false_2 by exact Hn.
  destruct (JSArray.get (merkletree wallet) chainID) as [mt|]; [|reflexivity].
  match goal with
  | |- (match ?m with _ => _ end) = _ => destruct m as [[d'| |] wb]; reflexivity
  end.
Qed.

Lemma scan_locked fuel wallet chainID w :
  chainID ∈ scanLockPerChain w -> scan fuel wallet chainID w = (Ok tt, w).
Proof.
  intros Hl. unfold scan, bind, gets. simpl. now rewrite bool_decide_eq_true_2.
Qed.

(** X10.  A scan of a chain whose lock is set returns at once and changes
    nothing.  A scan that throws (the chain has no tree loaded, a leaf
    cannot be read) does not release the lock it took and persists no
    wallet details: every later scan of that chain returns at once, without
    scanning. *)
Theorem failed_scan_keeps_the_lock fuel wallet chainID w :
  (chainID ∈ scanLockPerChain w -> scan fuel wallet chainID w = (Ok tt, w))
  /\ (chainID ∉ scanLockPerChain w ->
      JSArray.get (merkletree wallet) chainID = None ->
      scan fuel wallet chainID w = (Throw TypeError, set_lock (union {[chainID]}) w))
  /\ (forall e w',
        scan fuel wallet chainID w = (Throw e, w') ->
        chainID ∈ scanLockPerChain w'
        /\ details w' = details w
        /\ forall fuel', scan fuel' wallet chainID w' = (Ok tt, w')).
Proof.
  split; [apply scan_locked|]. split.
  - intros Hn Hmt. now rewrite scan_unlocked, Hmt.
  - intros e w' E.
    destruct (decide (chainID ∈ scanLockPerChain w)) as [Hl|Hn].
    { rewrite scan_locked in E by exact Hl. discriminate. }
    rewrite scan_unlocked in E by exact Hn.
    assert (Hw : chainID ∈ scanLockPerChain w' /\ details w' = details w).
    { destruct (JSArray.get (merkletree wallet) chainID) as [mt|].
      - cbv zeta in E.
        match type of E with
        | (match ?m with _ => _ end) = _ => destruct m as [[d'| |] wb] eqn:Et; try discriminate
        end.
        injection E as <- <-.
        apply StoreOnly_scanTrees in Et as (Hd & Hl & _). simpl in *.
        rewrite Hl, Hd. split; [|reflexivity].
        apply elem_of_union_l. now apply elem_of_singleton.
      - injection E as <- <-. simpl. split; [|reflexivity].
        apply elem_of_union_l. now apply elem_of_singleton. }
    destruct Hw as [Hl Hd]. repeat split; try assumption.
    intros fuel'. now apply scan_locked.
Qed.

(** X11.  A scan that completes on a chain whose lock was free stores
    wallet details with one scanned height for every tree up to the latest
    tree of the mirror (and for every tree the details already listed),
    each the index of the last leaf of that tree (0 for an empty tree); it
    releases the lock of the chain, leaves the other locks as they were,
    and removes no record. *)
Theorem completed_scan_commits_last_leaf_heights fuel wallet chainID w w' :
  chainID ∉ scanLockPerChain w ->
  scan fuel wallet chainID w = (Ok tt, w') ->
  exists mt d',
    JSArray.get (merkletree wallet) chainID = Some mt
    /\ details w' = Some d'
    /\ length (treeScannedHeights d')
       = (length (treeScannedHeights (default defaultDetails (details w)))
          `max` (latestTree mt + 1))%nat
    /\ (forall tree,
          (tree < length (treeScannedHeights d'))%nat ->
          treeScannedHeights d' !! tree = Some (lastLeaf (getTreeLength mt tree)))
    /\ scanLockPerChain w' = scanLockPerChain w
    /\ db_grows w w'.
Proof.
  intros Hn E.
  pose proof (Grows_scan _ _ _ _ _ _ E) as Hg.
  destruct (scan_inv _ _ _ _ _ E) as [[Hl _]|(_ & mt & d' & wb & Hmt & Et & ->)];
    [contradiction|].
  cbv zeta in Et. exists mt, d'. split; [exact Hmt|]. split; [reflexivity|].
  pose proof (StoreOnly_scanTrees _ _ _ _ _ _ _ _ Et) as (_ & Hl & _).
  apply scanTrees_heights in Et. simpl in Et.
  set (g := fun t => lastLeaf (getTreeLength mt t)) in *.
  set (hs := treeScannedHeights (default defaultDetails (details w))) in *.
  assert (Hlen : length (hs ++ replicate (latestTree mt + 1 - length hs) 0%nat)
                 = (length hs `max` (latestTree mt + 1))%nat).
  { rewrite length_app, length_replicate. lia. }
  repeat split.
  - rewrite Et, (fold_insert_length g). exact Hlen.
  - intros tree Ht. rewrite Et in Ht |- *. rewrite (fold_insert_length g) in Ht.
    rewrite (fold_insert_lookup g), decide_True; [reflexivity|].
    split; [|exact Ht]. apply elem_of_seq. lia.
  - simpl. rewrite Hl. simpl. apply set_eq. intros c.
    rewrite elem_of_difference, elem_of_union, elem_of_singleton.
    split; [intros [[->|Hc] Hne]; [contradiction | exact Hc]|].
    intros Hc. split; [now right|]. intros ->. contradiction.
  - exact Hg.
Qed.

End ScanLockFacts.

(** ** Wallet: the TXO list *)

Section KeyOrder.
Import Wallet.

Lemma key_le_spec (k1 k2 : DBKey) :
  key_le k1 k2
  <-> (k1.1.1 < k2.1.1)%nat
      \/ (k1.1.1 = k2.1.1
          /\ ((k1.1.2 < k2.1.2)%nat \/ (k1.1.2 = k2.1.2 /\ (k1.2 <= k2.2)%nat))).
Proof.
  destruct k1 as [[c1 t1] p1], k2 as [[c2 t2] p2]. unfold key_le, key_leb. simpl.
  rewrite !orb_true_iff, !andb_true_iff, !orb_true_iff, !andb_true_iff,
    !Nat.ltb_lt, !Nat.eqb_eq, Nat.leb_le. reflexivity.
Qed.

#[local] Instance key_le_trans : Transitive key_le.
Proof. intros k1 k2 k3. rewrite !key_le_spec. lia. Qed.

#[local] Instance key_le_total : Total key_le.
Proof. intros k1 k2. rewrite !key_le_spec. lia. Qed.

#[local] Instance key_le_antisymm : AntiSymm (=) key_le.
Proof.
  intros [[c1 t1] p1] [[c2 t2] p2]. rewrite !key_le_spec. simpl. intros H1 H2.
  assert (c1 = c2 /\ t1 = t2 /\ p1 = p2) as (-> & -> & ->) by lia. reflexivity.
Qed.

Lemma streamNamespace_elem (d : gmap DBKey StoredTXO) chainID k :
  k ∈ streamNamespace d chainID <-> k.1.1 = chainID /\ is_Some (d !! k).
Proof.
  unfold streamNamespace. rewrite list_elem_of_filter, merge_sort_Permutation.
  change (map fst (map_to_list d)) with ((map_to_list d).*1).
  rewrite list_elem_of_fmap. split.
  - intros [Hc ([k' v] & -> & Hin)]. split; [exact Hc|].
    apply elem_of_map_to_list in Hin. eauto.
  - intros [Hc [v Hv]]. split; [exact Hc|]. exists (k, v). split; [reflexivity|].
    now apply elem_of_map_to_list.
Qed.

Lemma streamNamespace_NoDup (d : gmap DBKey StoredTXO) chainID :
  NoDup (streamNamespace d chainID).
Proof.
  unfold streamNamespace. apply NoDup_filter. rewrite merge_sort_Permutation.
  apply (NoDup_fst_map_to_list d).
Qed.

Lemma StronglySorted_filter_keys {A} (R : relation A) (P : A -> Prop)
    `{!forall x, Decision (P x)} (l : list A) :
  StronglySorted R l -> StronglySorted R (filter P l).
Proof.
  induction 1 as [|x l Hl IH Hx]; [constructor|].
  rewrite filter_cons. destruct (decide (P x)); [|exact IH].
  constructor; [exact IH|]. apply Forall_forall. intros y Hy.
  apply list_elem_of_filter in Hy as [_ Hy].
  rewrite Forall_forall in Hx. now apply Hx.
Qed.

Lemma streamNamespace_sorted (d : gmap DBKey StoredTXO) chainID :
  StronglySorted key_le (streamNamespace d chainID).
Proof.
  unfold streamNamespace. apply StronglySorted_filter_keys.
  apply (StronglySorted_merge_sort key_le).
Qed.

Lemma streamNamespace_same_keys (d d' : gmap DBKey StoredTXO) chainID :
  (forall k, is_Some (d' !! k) <-> is_Some (d !! k)) ->
  streamNamespace d' chainID = streamNamespace d chainID.
Proof.
  intros Hdom. apply (StronglySorted_unique key_le); try apply streamNamespace_sorted.
  apply NoDup_Permutation; try apply streamNamespace_NoDup.
  intros k. rewrite !streamNamespace_elem, Hdom. reflexivity.
Qed.

End KeyOrder.

Section TXOFacts.
Context {cr : Crypto}.
Import Wallet WalletRecords.

Lemma set_db_ext f g w : f (db w) = g (db w) -> set_db f w = set_db g w.
Proof. unfold set_db. now intros ->. Qed.

Lemma readTXO_spec (wallet : Wallet) (chainID : nat) (key : DBKey) w :
  readTXO wallet chainID key w
  = (readResult wallet chainID (db w) key,
     set_db (refreshAll wallet chainID [key]) w).
Proof.
  destruct w as [d dt lk en fl].
  unfold readTXO, readResult, refreshAll, afterRead, refreshed, unspentRecord,
    bind, gets, modify, lift, throw, ret, set_db. cbn [db details scanLockPerChain entropy files fold_left].
  destruct (d !! key) as [UTXO|] eqn:Ek; [|reflexivity].
  destruct (match st_spendtxid UTXO with Some t => bytes.truthy t | None => false end);
    cbn [negb].
  { destruct (note_deserialize (st_decrypted UTXO)); now rewrite insert_id. }
  destruct (JSArray.get (merkletree wallet) chainID) as [mt|]; [|now rewrite insert_id].
  destruct (getNullified mt (st_nullifier UTXO)) as [nullifierTX|].
  2: { destruct (note_deserialize (st_decrypted UTXO)); now rewrite insert_id. }
  destruct (bytes.truthy nullifierTX).
  - cbn [db details scanLockPerChain entropy files]. unfold withSpendtxid.
    cbn [st_decrypted].
    destruct (note_deserialize (st_decrypted UTXO)); reflexivity.
  - destruct (note_deserialize (st_decrypted UTXO)); now rewrite insert_id.
Qed.

Lemma refreshAll_one (wallet : Wallet) (chainID : nat) (key : DBKey) (d : gmap DBKey StoredTXO) (k : DBKey) :
  refreshAll wallet chainID [key] d !! k
  = if decide (k = key) then afterRead wallet chainID <$> d !! k else d !! k.
Proof.
  unfold refreshAll. simpl. destruct (decide (k = key)) as [->|Hne].
  - destruct (d !! key) as [UTXO|] eqn:Ek; simpl.
    + now rewrite lookup_insert_eq.
    + now rewrite Ek.
  - destruct (d !! key) as [UTXO|]; [|reflexivity].
    now rewrite lookup_insert_ne.
Qed.

Lemma refreshAll_cons (wallet : Wallet) (chainID : nat) (key : DBKey) (keys : list DBKey) (d : gmap DBKey StoredTXO) :
  refreshAll wallet chainID (key :: keys) d
  = refreshAll wallet chainID keys (refreshAll wallet chainID [key] d).
Proof. reflexivity. Qed.

Lemma refreshAll_lookup (wallet : Wallet) (chainID : nat) (keys : list DBKey) : forall (d : gmap DBKey StoredTXO) (k : DBKey),
  NoDup keys ->
  refreshAll wallet chainID keys d !! k
  = if decide (k ∈ keys) then afterRead wallet chainID <$> d !! k else d !! k.
Proof.
  induction keys as [|key keys IH]; intros d k Hnd.
  - rewrite decide_False by apply not_elem_of_nil. reflexivity.
  - apply NoDup_cons in Hnd as [Hnin Hnd].
    rewrite refreshAll_cons, IH, refreshAll_one by exact Hnd.
    destruct (decide (k = key)) as [->|Hne].
    + rewrite decide_False by exact Hnin.
      rewrite decide_True by (left; reflexivity). reflexivity.
    + destruct (decide (k ∈ keys)) as [Hin|Hn].
      * rewrite decide_True by (now right). reflexivity.
      * rewrite decide_False; [reflexivity|].
        intros Hin. apply elem_of_cons in Hin as [?|?]; contradiction.
Qed.

Lemma mapRes_ext {A B} (f g : A -> Res B) (l : list A) :
  (forall x, x ∈ l -> f x = g x) -> Prover.mapRes f l = Prover.mapRes g l.
Proof.
  induction l as [|x l IH]; intros Hfg; [reflexivity|]. simpl.
  rewrite (Hfg x) by (left; reflexivity).
  rewrite IH; [reflexivity|]. intros y Hy. apply Hfg. now right.
Qed.

Lemma readResult_same (wallet : Wallet) (chainID : nat) (d d' : gmap DBKey StoredTXO) (key : DBKey) :
  d' !! key = d !! key ->
  readResult wallet chainID d' key = readResult wallet chainID d key.
Proof. unfold readResult. now intros ->. Qed.

(** All the reads of [TXOs], over keys that are all different. *)
Lemma readTXOs_spec (wallet : Wallet) (chainID : nat) (keys : list DBKey) : forall w,
  NoDup keys ->
  promiseAll (map (readTXO wallet chainID) keys) w
  = (Prover.mapRes (readResult wallet chainID (db w)) keys,
     set_db (refreshAll wallet chainID keys) w).
Proof.
  induction keys as [|key keys IH]; intros w Hnd.
  - simpl. unfold ret. now rewrite <- (set_db_id w) at 1.
  - apply NoDup_cons in Hnd as [Hnin Hnd]. simpl.
    rewrite readTXO_spec, IH by exact Hnd.
    rewrite set_db_set_db. cbn [db set_db].
    rewrite (mapRes_ext (readResult wallet chainID (refreshAll wallet chainID [key] (db w)))
               (readResult wallet chainID (db w))).
    + destruct (readResult wallet chainID (db w) key);
        destruct (Prover.mapRes (readResult wallet chainID (db w)) keys); reflexivity.
    + intros k Hk. apply readResult_same. rewrite refreshAll_one.
      rewrite decide_False; [reflexivity|]. intros ->. contradiction.
Qed.

Lemma TXOs_spec wallet chainID w :
  TXOs wallet chainID w
  = (Prover.mapRes (readResult wallet chainID (db w)) (streamNamespace (db w) chainID),
     set_db (refreshAll wallet chainID (streamNamespace (db w) chainID)) w).
Proof.
  unfold TXOs, bind, gets. apply readTXOs_spec, streamNamespace_NoDup.
Qed.

Lemma afterRead_cases wallet chainID UTXO :
  afterRead wallet chainID UTXO = UTXO
  \/ exists mt nullifierTX,
       unspentRecord UTXO = true
       /\ JSArray.get (merkletree wallet) chainID = Some mt
       /\ getNullified mt (st_nullifier UTXO) = Some nullifierTX
       /\ bytes.truthy nullifierTX = true
       /\ afterRead wallet chainID UTXO = withSpendtxid UTXO nullifierTX.
Proof.
  unfold afterRead, refreshed.
  destruct (unspentRecord UTXO) eqn:Hu; [|now left].
  destruct (JSArray.get (merkletree wallet) chainID) as [mt|]; [|now left].
  destruct (getNullified mt (st_nullifier UTXO)) as [nullifierTX|] eqn:Hn; [|now left].
  destruct (bytes.truthy nullifierTX) eqn:Ht; [|now left].
  right. exists mt, nullifierTX. auto.
Qed.

(** X12.  [TXOs] touches nothing but the store, adds no record and removes
    none, and changes a record in one way only: a record of the chain not
    yet marked as spent, whose nullifier the mirror reports with a spend
    txid, gets that txid; and every such record does get it, also when the
    call throws. *)
Theorem TXOs_only_sets_spend_txids wallet chainID w r w' :
  TXOs wallet chainID w = (r, w') ->
  store_only w w'
  /\ (forall k, db w !! k = None -> db w' !! k = None)
  /\ (forall k UTXO,
        db w !! k = Some UTXO ->
        db w' !! k = Some UTXO
        \/ exists mt nullifierTX,
             k.1.1 = chainID
             /\ unspentRecord UTXO = true
             /\ JSArray.get (merkletree wallet) chainID = Some mt
             /\ getNullified mt (st_nullifier UTXO) = Some nullifierTX
             /\ bytes.truthy nullifierTX = true
             /\ db w' !! k = Some (withSpendtxid UTXO nullifierTX))
  /\ (forall k UTXO mt nullifierTX,
        db w !! k = Some UTXO ->
        k.1.1 = chainID ->
        unspentRecord UTXO = true ->
        JSArray.get (merkletree wallet) chainID = Some mt ->
        getNullified mt (st_nullifier UTXO) = Some nullifierTX ->
        bytes.truthy nullifierTX = true ->
        db w' !! k = Some (withSpendtxid UTXO nullifierTX)).
Proof.
  rewrite TXOs_spec. intros [= <- <-]. cbn [db set_db].
  pose proof (streamNamespace_NoDup (db w) chainID) as Hnd.
  split; [repeat split|]. split; [|split].
  - intros k Hk. rewrite refreshAll_lookup, Hk by exact Hnd. now destruct (decide _).
  - intros k UTXO Hk. rewrite refreshAll_lookup, Hk by exact Hnd.
    destruct (decide (k ∈ streamNamespace (db w) chainID)) as [Hin|Hn]; [|now left].
    apply streamNamespace_elem in Hin as [Hc _]. simpl.
    destruct (afterRead_cases wallet chainID UTXO)
      as [->|(mt & tx & Hu & Hmt & Hnull & Ht & ->)]; [now left|].
    right. exists mt, tx. auto 10.
  - intros k UTXO mt tx Hk Hc Hu Hmt Hnull Ht.
    rewrite refreshAll_lookup, Hk by exact Hnd.
    rewrite decide_True by (apply streamNamespace_elem; eauto). simpl.
    unfold afterRead, refreshed. now rewrite Hu, Hmt, Hnull, Ht.
Qed.

Lemma mapRes_Ok_Forall2' {A B} (f : A -> Res B) (l : list A) : forall r,
  Prover.mapRes f l = Ok r -> Forall2 (fun x y => f x = Ok y) l r.
Proof.
  induction l as [|x l IH]; intros r; simpl.
  - intros [= <-]. constructor.
  - destruct (f x) as [y| |] eqn:Ex; try discriminate.
    destruct (Prover.mapRes f l) as [ys| |]; try discriminate.
    intros [= <-]. constructor; [exact Ex | now apply IH].
Qed.

(** X13.  [TXOs] answers with one TXO for every record of the chain, in
    the order of the keys (tree, then position): tree and position are those
    of the key, index, change flag, txid and spend txid those of the record
    the store holds after the call, the note the one read from that
    record. *)
Theorem TXOs_lists_the_records_of_the_chain wallet chainID w txos w' :
  TXOs wallet chainID w = (Ok txos, w') ->
  let keys := streamNamespace (db w) chainID in
  StronglySorted key_le keys
  /\ (forall k, k ∈ keys <-> k.1.1 = chainID /\ is_Some (db w !! k))
  /\ Forall2 (fun key txo =>
                exists UTXO note,
                  db w' !! key = Some UTXO
                  /\ note_deserialize (st_decrypted UTXO) = Ok note
                  /\ txo = toTXO key UTXO note)
       keys txos.
Proof.
  rewrite TXOs_spec. intros [= E <-] keys. cbn [db set_db].
  split; [apply streamNamespace_sorted|]. split; [intros k; apply streamNamespace_elem|].
  apply mapRes_Ok_Forall2' in E. fold keys in E.
  apply Forall2_same_length_lookup. split; [now apply Forall2_length in E|].
  intros i key txo Hkey Htxo.
  pose proof (Forall2_lookup_lr _ _ _ _ _ _ E Hkey Htxo) as Hr. cbv beta in Hr.
  unfold readResult in Hr.
  destruct (db w !! key) as [UTXO|] eqn:Ek; [|discriminate].
  rewrite refreshAll_lookup, Ek by apply streamNamespace_NoDup.
  rewrite decide_True by (eapply list_elem_of_lookup_2, Hkey). simpl.
  unfold afterRead.
  destruct (refreshed wallet chainID UTXO) as [UTXO'| |]; try discriminate.
  destruct (note_deserialize (st_decrypted UTXO')) as [note| |] eqn:En; try discriminate.
  injection Hr as <-. eauto.
Qed.

Lemma afterRead_idem wallet chainID UTXO :
  refreshed wallet chainID (afterRead wallet chainID UTXO)
  = match refreshed wallet chainID UTXO with
    | Ok _ => Ok (afterRead wallet chainID UTXO)
    | other => other
    end.
Proof.
  unfold afterRead.
  destruct (refreshed wallet chainID UTXO) as [UTXO'| |] eqn:E; try exact E.
  unfold refreshed in *.
  destruct (unspentRecord UTXO) eqn:Hu.
  - destruct (JSArray.get (merkletree wallet) chainID) as [mt|] eqn:Hmt; [|discriminate].
    destruct (getNullified mt (st_nullifier UTXO)) as [tx|] eqn:Hn.
    + destruct (bytes.truthy tx) eqn:Ht; injection E as <-.
      * unfold unspentRecord. simpl. now rewrite Ht.
      * now rewrite Hu, Hn, Ht.
    + injection E as <-. now rewrite Hu, Hn.
  - injection E as <-. now rewrite Hu.
Qed.

(** X14.  [TXOs] is idempotent: called again on the world it left, with
    the same mirror, it gives the same answer and leaves the world as it
    is. *)
Theorem TXOs_twice wallet chainID w r w' :
  TXOs wallet chainID w = (r, w') ->
  TXOs wallet chainID w' = (r, w').
Proof.
  rewrite TXOs_spec. intros [= <- <-]. rewrite TXOs_spec. cbn [db set_db].
  pose proof (streamNamespace_NoDup (db w) chainID) as Hnd.
  set (keys := streamNamespace (db w) chainID) in *.
  assert (Hlook : forall k, refreshAll wallet chainID keys (db w) !! k
                            = if decide (k ∈ keys) then afterRead wallet chainID <$> db w !! k
                              else db w !! k)
    by (intros k; now apply refreshAll_lookup).
  assert (Hkeys : streamNamespace (refreshAll wallet chainID keys (db w)) chainID = keys).
  { apply streamNamespace_same_keys. intros k. rewrite Hlook.
    destruct (decide _); [|reflexivity]. now rewrite fmap_is_Some. }
  rewrite Hkeys. f_equal.
  - apply mapRes_ext. intros k Hk. unfold readResult.
    rewrite Hlook, decide_True by exact Hk.
    destruct (db w !! k) as [UTXO|]; [|reflexivity]. simpl.
    rewrite afterRead_idem. unfold afterRead.
    now destruct (refreshed wallet chainID UTXO).
  - rewrite set_db_set_db. apply set_db_ext. apply map_eq. intros k.
    rewrite refreshAll_lookup by exact Hnd.
    rewrite Hlook. destruct (decide (k ∈ keys)); [|reflexivity].
    destruct (db w !! k) as [UTXO|]; [|reflexivity]. simpl. f_equal.
    unfold afterRead at 1. rewrite afterRead_idem.
    unfold afterRead. now destruct (refreshed wallet chainID UTXO).
Qed.

End TXOFacts.

(** ** Sparse arrays *)

Section JSArrayFacts.
Context {A : Type}.

Lemma JSArray_get_set (arr : JSArray.t A) (i j : nat) (v : A) :
  JSArray.get (JSArray.set i v arr) j
  = if decide (j = i) then Some v else JSArray.get arr j.
Proof.
  unfold JSArray.get, JSArray.set.
  destruct (decide (i < length arr)%nat) as [Hlt|Hge].
  - destruct (decide (j = i)) as [->|Hne].
    + now rewrite list_lookup_insert_eq.
    + now rewrite list_lookup_insert_ne by congruence.
  - destruct (decide (j = i)) as [->|Hne].
    + rewrite lookup_app_r by lia.
      rewrite lookup_app_r by (rewrite length_replicate; lia).
      rewrite length_replicate.
      now replace (i - length arr - (i - length arr))%nat with 0%nat by lia.
    + destruct (decide (j < length arr)%nat) as [Hj|Hj].
      * now rewrite lookup_app_l.
      * rewrite lookup_app_r by lia.
        rewrite (lookup_ge_None_2 arr j) by lia.
        destruct (decide (j - length arr < i - length arr)%nat) as [Hr|Hr].
        -- rewrite lookup_app_l by (rewrite length_replicate; lia).
           rewrite lookup_replicate_2 by lia. reflexivity.
        -- rewrite lookup_app_r by (rewrite length_replicate; lia).
           rewrite length_replicate.
           rewrite lookup_ge_None_2; [reflexivity|]. simpl. lia.
Qed.

End JSArrayFacts.

(** ** Wallet: balances *)

Section BalanceFacts.
Context {cr : Crypto}.
Import Wallet WalletBalances ERC20Transaction.

Lemma unspentOf_cons tok x l :
  unspentOf tok (x :: l)
  = if decide (unspent x = true /\ token (txo_note x) = tok)
    then x :: unspentOf tok l else unspentOf tok l.
Proof. unfold unspentOf. now rewrite filter_cons. Qed.

Lemma addToBalances_other (b : Balances) x tok :
  token (txo_note x) <> tok -> addToBalances b x !! tok = b !! tok.
Proof.
  intros Hne. unfold addToBalances.
  destruct (b !! token (txo_note x)) as [e|] eqn:Eb.
  - rewrite Eb. destruct (unspent x); [|reflexivity]. now rewrite lookup_insert_ne.
  - rewrite lookup_insert_eq. destruct (unspent x).
    + now rewrite !lookup_insert_ne.
    + now rewrite lookup_insert_ne.
Qed.

Lemma addToBalances_same (b : Balances) x :
  addToBalances b x !! token (txo_note x)
  = let e := default {| balance := 0; utxos := [] |} (b !! token (txo_note x)) in
    Some (if unspent x
          then {| balance := balance e + amount (txo_note x); utxos := utxos e ++ [x] |}
          else e).
Proof.
  unfold addToBalances.
  destruct (b !! token (txo_note x)) as [e|] eqn:Eb; simpl.
  - rewrite Eb. destruct (unspent x); [now rewrite lookup_insert_eq | exact Eb].
  - rewrite lookup_insert_eq. destruct (unspent x); now rewrite lookup_insert_eq.
Qed.

(** The entry of a token after the [forEach] of [balances]. *)
Lemma balances_fold (l : list TXO) : forall (b : Balances) tok,
  fold_left addToBalances l b !! tok
  = match b !! tok with
    | Some e =>
        Some {| balance := balance e + sumTXOs (unspentOf tok l);
                utxos := utxos e ++ unspentOf tok l |}
    | None =>
        if decide (Exists (fun t => token (txo_note t) = tok) l)
        then Some {| balance := sumTXOs (unspentOf tok l); utxos := unspentOf tok l |}
        else None
    end.
Proof.
  induction l as [|x l IH]; intros b tok.
  - cbn [fold_left]. destruct (b !! tok) as [[bal us]|].
    + unfold unspentOf, sumTXOs. simpl. rewrite app_nil_r. do 2 f_equal. lia.
    + destruct (decide _) as [H|H]; [inversion H | reflexivity].
  - cbn [fold_left]. rewrite IH, unspentOf_cons.
    destruct (decide (token (txo_note x) = tok)) as [<-|Hne].
    + rewrite addToBalances_same. cbv zeta.
      destruct (unspent x) eqn:Hu.
      * rewrite decide_True by auto. rewrite sumTXOs_cons.
        destruct (b !! token (txo_note x)) as [e|]; simpl.
        -- rewrite <- app_assoc. simpl. do 2 f_equal. lia.
        -- rewrite decide_True by (left; reflexivity). reflexivity.
      * rewrite decide_False by (intros [? _]; discriminate).
        destruct (b !! token (txo_note x)) as [e|]; simpl; [reflexivity|].
        rewrite decide_True by (left; reflexivity). reflexivity.
    + rewrite addToBalances_other by exact Hne.
      destruct (decide (unspent x = true /\ token (txo_note x) = tok)) as [[_ ?]|_];
        [contradiction|].
      destruct (b !! tok) as [e|]; [reflexivity|].
      destruct (decide (Exists _ l)) as [He|He].
      * rewrite decide_True by (now right). reflexivity.
      * rewrite decide_False; [reflexivity|].
        intros H. inversion H; contradiction.
Qed.

Lemma balances_sum_the_unspent_notes_aux wallet chainID w bs w' :
  balances wallet chainID w = (Ok bs, w') ->
  exists txos,
    TXOs wallet chainID w = (Ok txos, w')
    /\ forall tok,
         bs !! tok
         = if decide (Exists (fun txOutput => token (txo_note txOutput) = tok) txos)
           then Some {| balance := sumTXOs (unspentOf tok txos);
                        utxos := unspentOf tok txos |}
           else None.
Proof.
  unfold balances. intros E.
  apply bind_Ok_inv in E as (txos & w1 & Et & E). injection E as <- <-.
  exists txos. split; [exact Et|]. intros tok.
  rewrite balances_fold, lookup_empty. reflexivity.
Qed.

(** X15.  [balances] has an entry for exactly the tokens of the TXOs of the
    chain; the entry lists the unspent TXOs of the token, in the order of
    the TXO list, and its balance is the sum of their amounts.  A token all
    of whose notes are spent keeps an entry, with balance 0 and no UTXO. *)
Theorem balances_sum_the_unspent_notes wallet chainID w bs w' :
  balances wallet chainID w = (Ok bs, w') ->
  exists txos,
    TXOs wallet chainID w = (Ok txos, w')
    /\ forall tok,
         bs !! tok
         = if decide (Exists (fun txOutput => token (txo_note txOutput) = tok) txos)
           then Some {| balance := sumTXOs (unspentOf tok txos);
                        utxos := unspentOf tok txos |}
           else None.
Proof. apply balances_sum_the_unspent_notes_aux. Qed.

End BalanceFacts.

Section TreeBalanceFacts.
Context {cr : Crypto}.
Import Wallet WalletBalances ERC20Transaction.

Lemma inTree_cons tree x l :
  inTree tree (x :: l) = if decide (txo_tree x = tree) then x :: inTree tree l else inTree tree l.
Proof. unfold inTree. now rewrite filter_cons. Qed.

Lemma addToTree_get (trees : JSArray.t TokenBalance) (utxo : TXO) (tree : nat) :
  JSArray.get (addToTree trees utxo) tree
  = if decide (tree = txo_tree utxo)
    then Some (match JSArray.get trees tree with
               | Some entry => {| balance := balance entry + amount (txo_note utxo);
                                  utxos := utxos entry ++ [utxo] |}
               | None => {| balance := amount (txo_note utxo); utxos := [utxo] |}
               end)
    else JSArray.get trees tree.
Proof.
  unfold addToTree.
  destruct (JSArray.get trees (txo_tree utxo)) as [entry|] eqn:Eg;
    rewrite JSArray_get_set; destruct (decide (tree = txo_tree utxo)) as [->|Hne];
    try reflexivity; now rewrite Eg.
Qed.

(** The entry of a tree after the inner [forEach] of [balancesByTree]. *)
Lemma balancesByTree_fold (l : list TXO) : forall (trees : JSArray.t TokenBalance) tree,
  JSArray.get (fold_left addToTree l trees) tree
  = match JSArray.get trees tree with
    | Some entry =>
        Some {| balance := balance entry + sumTXOs (inTree tree l);
                utxos := utxos entry ++ inTree tree l |}
    | None =>
        match inTree tree l with
        | [] => None
        | us => Some {| balance := sumTXOs us; utxos := us |}
        end
    end.
Proof.
  induction l as [|x l IH]; intros trees tree.
  - cbn [fold_left]. destruct (JSArray.get trees tree) as [[bal us]|]; [|reflexivity].
    unfold inTree, sumTXOs. simpl. rewrite app_nil_r. do 2 f_equal. lia.
  - cbn [fold_left]. rewrite IH, addToTree_get, inTree_cons.
    destruct (decide (tree = txo_tree x)) as [->|Hne].
    + rewrite decide_True by reflexivity. rewrite sumTXOs_cons.
      destruct (JSArray.get trees (txo_tree x)) as [entry|]; simpl.
      * rewrite <- app_assoc. simpl. do 2 f_equal. lia.
      * reflexivity.
    + rewrite decide_False by congruence. reflexivity.
Qed.

Lemma sumBalances_from (arr : JSArray.t TokenBalance) : forall acc,
  fold_left (fun left right =>
               match right with
               | Some entry => left + balance entry
               | None => left
               end) arr acc
  = acc + sumBalances arr.
Proof.
  unfold sumBalances. induction arr as [|[e|] arr IH]; intros acc; simpl; [lia| |].
  - rewrite IH, (IH (0 + _)). lia.
  - apply IH.
Qed.

Lemma sumBalances_cons slot (arr : JSArray.t TokenBalance) :
  sumBalances (slot :: arr)
  = match slot with Some entry => balance entry | None => 0 end + sumBalances arr.
Proof.
  unfold sumBalances at 1. simpl. rewrite sumBalances_from. now destruct slot.
Qed.

Lemma sumBalances_app (a1 a2 : JSArray.t TokenBalance) :
  sumBalances (a1 ++ a2) = sumBalances a1 + sumBalances a2.
Proof.
  induction a1 as [|slot a1 IH]; [unfold sumBalances at 2; simpl; lia|].
  simpl. rewrite !sumBalances_cons, IH. lia.
Qed.

Lemma sumBalances_holes n : sumBalances (replicate n None) = 0.
Proof. induction n as [|n IH]; [reflexivity|]. simpl. now rewrite sumBalances_cons, IH. Qed.

Lemma sumBalances_set (arr : JSArray.t TokenBalance) : forall i v,
  sumBalances (JSArray.set i v arr)
  = sumBalances arr
    - match JSArray.get arr i with Some entry => balance entry | None => 0 end
    + balance v.
Proof.
  intros i v. unfold JSArray.set.
  destruct (decide (i < length arr)%nat) as [Hlt|Hge].
  - revert i Hlt. induction arr as [|slot arr IH]; intros i Hlt; [simpl in Hlt; lia|].
    destruct i as [|i]; simpl.
    + rewrite !sumBalances_cons. unfold JSArray.get. simpl. destruct slot; simpl; lia.
    + rewrite !sumBalances_cons, IH by (simpl in Hlt; lia).
      unfold JSArray.get. simpl. lia.
  - rewrite !sumBalances_app, sumBalances_holes, sumBalances_cons.
    unfold JSArray.get. rewrite lookup_ge_None_2 by lia. simpl.
    unfold sumBalances at 2. simpl. lia.
Qed.

Lemma sumBalances_addToTree (trees : JSArray.t TokenBalance) (utxo : TXO) :
  sumBalances (addToTree trees utxo) = sumBalances trees + amount (txo_note utxo).
Proof.
  unfold addToTree.
  destruct (JSArray.get trees (txo_tree utxo)) as [entry|] eqn:Eg;
    rewrite sumBalances_set, Eg; simpl; lia.
Qed.

Lemma sumBalances_fold (l : list TXO) : forall trees : JSArray.t TokenBalance,
  sumBalances (fold_left addToTree l trees) = sumBalances trees + sumTXOs l.
Proof.
  induction l as [|x l IH]; intros trees; cbn [fold_left].
  - unfold sumTXOs. simpl. lia.
  - rewrite IH, sumBalances_addToTree, sumTXOs_cons. lia.
Qed.

(** X16.  [balancesByTree] has an array for exactly the tokens [balances]
    has an entry for.  Slot [t] of the array of a token holds the UTXOs of
    the token that lie in tree [t], in their order, with the sum of their
    amounts, and is an empty slot when there is none; the balances of the
    slots add up to the balance of the token. *)
Theorem balancesByTree_splits_the_balance wallet chainID w byTree w' :
  balancesByTree wallet chainID w = (Ok byTree, w') ->
  exists bs,
    balances wallet chainID w = (Ok bs, w')
    /\ forall tok,
         match bs !! tok with
         | None => byTree !! tok = None
         | Some entry =>
             exists trees,
               byTree !! tok = Some trees
               /\ (forall tree,
                     JSArray.get trees tree
                     = match inTree tree (utxos entry) with
                       | [] => None
                       | us => Some {| balance := sumTXOs us; utxos := us |}
                       end)
               /\ sumBalances trees = balance entry
         end.
Proof.
  unfold balancesByTree. intros E.
  apply bind_Ok_inv in E as (bs & w1 & Eb & E). injection E as <- <-.
  exists bs. split; [exact Eb|]. intros tok. rewrite lookup_fmap.
  destruct (bs !! tok) as [entry|] eqn:Et; [|reflexivity]. simpl.
  eexists. split; [reflexivity|]. split.
  - intros tree. rewrite balancesByTree_fold. unfold JSArray.get. now rewrite lookup_nil.
  - rewrite sumBalances_fold.
    destruct (balances_sum_the_unspent_notes_aux _ _ _ _ _ Eb) as (txos & _ & Hbs).
    specialize (Hbs tok). rewrite Et in Hbs.
    destruct (decide _); [|discriminate]. injection Hbs as ->. reflexivity.
Qed.

End TreeBalanceFacts.

(** ** Wallet: the sweep, any number of passes *)

Section SweepLoopFacts.
Context {cr : Crypto}.
Import Wallet WalletSweep.

Variable wallet : Wallet.
Variable leaves : JSArray.t Commitment.
Variable change : bool.
Variables tree chainID : nat.

Local Abbreviation matched := (indexMatches wallet leaves change tree chainID).
Local Abbreviation readable := (indexReadable wallet leaves change tree chainID).
Local Abbreviation keysAt := (fun i : nat => (opsAt wallet leaves change tree chainID i).*1).
Local Abbreviation state := (sweepState wallet leaves change tree chainID).
Local Abbreviation visit := (WalletSweep.visit wallet leaves change tree chainID).

Lemma lastIndexOf_from_some l : forall i y,
  exists x, lastIndexOf_from l i (Some y) = Some x /\ (x = y \/ (i <= x)%nat).
Proof.
  induction l as [|b0 l IH]; intros i y; simpl; [eauto|].
  destruct b0.
  - destruct (IH (S i) i) as (x & -> & [->|Hx]); eexists; split; eauto; right; lia.
  - destruct (IH (S i) y) as (x & -> & [->|Hx]); eexists; split; eauto; right; lia.
Qed.

(** [lastIndexOf(true)] is at or after every [true] entry. *)
Lemma lastIndexOf_from_last l : forall i found j,
  l !! j = Some true ->
  exists x, lastIndexOf_from l i found = Some x /\ (i + j <= x)%nat.
Proof.
  induction l as [|b0 l IH]; intros i found j Hj; [inversion Hj|].
  destruct j as [|j]; simpl in Hj |- *.
  - injection Hj as ->.
    destruct (lastIndexOf_from_some l (S i) i) as (x & -> & [->|Hx]);
      eexists; split; eauto; lia.
  - destruct (IH (S i) (if b0 then Some i else found) j Hj) as (x & E & Hx).
    exists x. split; [exact E | lia].
Qed.

Lemma lastIndexOf_true_last l j :
  l !! j = Some true ->
  exists x, lastIndexOf_true l = Some x /\ (j <= x)%nat.
Proof. intros Hj. apply (lastIndexOf_from_last l 0 None j Hj). Qed.

(** The height the loop continues with after a pass: an index that holds a
    note, or 0, with no note at a scanned index after it. *)
Lemma next_height (n : nat) :
  let height := default 0%nat (lastIndexOf_true (map matched (seq 0 n))) in
  (matched height = true \/ height = 0%nat)
  /\ forall i, (height < i < n)%nat -> matched i = false.
Proof.
  cbv zeta. destruct (lastIndexOf_true (map matched (seq 0 n))) as [x|] eqn:E; simpl.
  - split.
    + left. apply lastIndexOf_true_found in E.
      rewrite list_lookup_fmap in E.
      destruct (seq 0 n !! x) as [y|] eqn:Ey; [|discriminate].
      apply lookup_seq in Ey as [-> _]. simpl in E. now injection E.
    + intros i Hi. destruct (matched i) eqn:Hm; [|reflexivity].
      destruct (lastIndexOf_true_last (map matched (seq 0 n)) i) as (x' & E' & Hx').
      { rewrite list_lookup_fmap, lookup_seq_lt by lia. simpl. now rewrite Hm. }
      rewrite E in E'. injection E' as <-. lia.
  - split; [now right|]. intros i Hi. destruct (matched i) eqn:Hm; [|reflexivity].
    destruct (lastIndexOf_true_last (map matched (seq 0 n)) i) as (x' & E' & _).
    { rewrite list_lookup_fmap, lookup_seq_lt by lia. simpl. now rewrite Hm. }
    rewrite E in E'. discriminate.
Qed.

(** The visits of one pass, looking back from a pass that completed. *)
Lemma visits_done (usedIndexes : list bool) (l : list nat) : forall w res w',
  promiseAll (map (visit usedIndexes) l) w = (Ok res, w') ->
  (forall i, i ∈ l -> usedIndexes !! i = Some true ->
             matched i = true /\ readable i
             /\ forall k : DBKey, k ∈ keysAt i -> is_Some (db w !! k)) ->
  res = map matched l
  /\ (forall i, i ∈ l -> readable i)
  /\ (forall i (k : DBKey), i ∈ l -> k ∈ keysAt i -> is_Some (db w' !! k))
  /\ db_grows w w'.
Proof.
  induction l as [|i l IH]; intros w res w' E Hused.
  - simpl in E. injection E as <- <-. split; [reflexivity|]. split; [|split].
    + intros i Hin. inversion Hin.
    + intros i k Hin. inversion Hin.
    + apply db_grows_refl.
  - cbn [map promiseAll] in E.
    destruct (visit usedIndexes i w) as [r w1] eqn:Ev.
    destruct (promiseAll (map (visit usedIndexes) l) w1) as [rs w2] eqn:Es.
    destruct r as [a| |]; try (injection E as E _; destruct rs; discriminate).
    destruct rs as [res'| |]; try (injection E as E _; discriminate).
    injection E as <- <-.
    assert (Hg1 : db_grows w w1).
    { unfold WalletSweep.visit in Ev. destruct (default false (usedIndexes !! i)).
      - injection Ev as _ <-. apply db_grows_refl.
      - eapply Grows_scanIndex, Ev. }
    destruct (IH w1 res' w2 Es) as (-> & Hr & Hk & Hg2).
    { intros j Hj Hu. destruct (Hused j) as (Hm & Hrd & Hks); [now constructor | exact Hu |].
      repeat split; try assumption. intros k Hkj. apply Hg1, Hks, Hkj. }
    assert (Hi : a = matched i /\ readable i
                 /\ forall k : DBKey, k ∈ keysAt i -> is_Some (db w1 !! k)).
    { unfold WalletSweep.visit in Ev.
      destruct (usedIndexes !! i) as [[|]|] eqn:Eu; simpl in Ev.
      - injection Ev as <- <-.
        destruct (Hused i) as (Hm & Hrd & Hks); [constructor | exact Eu |]. auto.
      - rewrite scanIndex_spec in Ev. unfold indexMatches, indexReadable, opsAt.
        destruct (indexBatch wallet leaves change tree chainID i) as [ops| |];
          try discriminate.
        injection Ev as <- <-. repeat split. intros k Hk'. cbn [db set_db].
        now apply batch_lookup_in.
      - rewrite scanIndex_spec in Ev. unfold indexMatches, indexReadable, opsAt.
        destruct (indexBatch wallet leaves change tree chainID i) as [ops| |];
          try discriminate.
        injection Ev as <- <-. repeat split. intros k Hk'. cbn [db set_db].
        now apply batch_lookup_in. }
    destruct Hi as (-> & Hri & Hki). repeat split.
    + intros j Hj. apply elem_of_cons in Hj as [->|Hj]; [exact Hri | now apply Hr].
    + intros j k Hj Hkj. apply elem_of_cons in Hj as [->|Hj].
      * apply Hg2, Hki, Hkj.
      * now apply (Hk j).
    + eapply db_grows_trans; eassumption.
Qed.

(** A pass that the loop runs and that completes. *)
Lemma scanPass_done usedIndexes height w used' w' :
  state usedIndexes w ->
  (length usedIndexes < height + gapLimit wallet)%nat ->
  scanPass wallet leaves change tree chainID usedIndexes height w = (Ok used', w') ->
  state used' w' /\ length used' = S (height + gapLimit wallet).
Proof.
  intros (Hu & Hr & Hk) Hlt E. unfold scanPass in E.
  apply bind_Ok_inv in E as (res & w1 & Ep & E). injection E as <- <-.
  rewrite drop_ge, app_nil_r by lia.
  change (promiseAll (map (visit usedIndexes) (seq 0 (S (height + gapLimit wallet)))) w = (Ok res, w1)) in Ep.
  destruct (visits_done usedIndexes _ _ _ _ Ep) as (-> & Hr' & Hk' & _).
  { intros i _ Hi. assert (Hil : (i < length usedIndexes)%nat) by (eapply lookup_lt_Some, Hi).
    repeat split; [|now apply Hr|intros k; now apply Hk].
    rewrite Hu, list_lookup_fmap, lookup_seq_lt in Hi by lia. simpl in Hi. now injection Hi. }
  rewrite length_map, length_seq. split; [|reflexivity].
  unfold sweepState. rewrite length_map, length_seq. repeat split.
  - intros i Hi. apply Hr', elem_of_seq. lia.
  - intros i k Hi. apply Hk', elem_of_seq. lia.
Qed.

(** The loop, looking back from its result. *)
Lemma scanLoop_done fuel : forall usedIndexes height w h w',
  state usedIndexes w ->
  (matched height = true \/ height = 0%nat) ->
  (forall i, (height < i < length usedIndexes)%nat -> matched i = false) ->
  scanLoop fuel wallet leaves change tree chainID usedIndexes height w = (Ok h, w') ->
  exists scanned,
    (length usedIndexes <= scanned)%nat
    /\ (h + gapLimit wallet <= scanned)%nat
    /\ (forall i, (i < scanned)%nat -> readable i)
    /\ (matched h = true \/ h = 0%nat)
    /\ (forall i, (h < i < scanned)%nat -> matched i = false)
    /\ (forall i (k : DBKey), (i < scanned)%nat -> k ∈ keysAt i -> is_Some (db w' !! k)).
Proof.
  induction fuel as [|fuel IH]; intros usedIndexes height w h w' Hs Hh Hafter E.
  - simpl in E. destruct (decide _) as [Hlt|Hge]; [discriminate|].
    injection E as <- <-. destruct Hs as (_ & Hr & Hk).
    exists (length usedIndexes). repeat split; try assumption; lia.
  - destruct (decide (length usedIndexes < height + gapLimit wallet)%nat) as [Hlt|Hge].
    + rewrite scanLoop_step in E by exact Hlt.
      apply bind_Ok_inv in E as (used' & w1 & Ep & E).
      destruct (scanPass_done _ _ _ _ _ Hs Hlt Ep) as [Hs' Hlen].
      assert (Hu' : used' = map matched (seq 0 (length used'))) by apply Hs'.
      destruct (next_height (length used')) as [Hh' Hafter']. cbv zeta in Hh', Hafter'.
      rewrite <- Hu' in Hh', Hafter'.
      destruct (IH _ _ _ _ _ Hs' Hh' Hafter' E) as (scanned & Hle & Hrest).
      exists scanned. split; [lia | exact Hrest].
    + rewrite scanLoop_exit in E by exact Hge. injection E as <- <-.
      destruct Hs as (_ & Hr & Hk).
      exists (length usedIndexes). repeat split; try assumption; lia.
Qed.

(** X17.  When a sweep that scans at all returns height [h], it has
    scanned the indexes below some bound that lies beyond
    [initialHeight + gapLimit] and is at least [h + gapLimit]: the key of
    each of them could read every leaf, every note addressed to one of them
    is recorded, [h] is an index that holds a note (or 0), and no index
    between [h] and the bound holds one - so at least [gapLimit - 1] unused
    indexes follow the height returned. *)
Theorem scanLeaves_returns_last_used_index fuel initialHeight w h w' :
  (0 < initialHeight + gapLimit wallet)%nat ->
  scanLeaves fuel wallet leaves change initialHeight tree chainID w = (Ok h, w') ->
  exists scanned,
    (initialHeight + gapLimit wallet < scanned)%nat
    /\ (h + gapLimit wallet <= scanned)%nat
    /\ (forall i, (i < scanned)%nat -> readable i)
    /\ (matched h = true \/ h = 0%nat)
    /\ (forall i, (h < i < scanned)%nat -> matched i = false)
    /\ (forall i (k : DBKey), (i < scanned)%nat -> k ∈ keysAt i -> is_Some (db w' !! k)).
Proof.
  intros Hpos E. unfold scanLeaves in E.
  destruct fuel as [|fuel].
  { cbn [scanLoop] in E. destruct (decide _) as [_|Hn]; [discriminate | simpl in Hn; lia]. }
  rewrite scanLoop_step in E by (simpl; lia).
  apply bind_Ok_inv in E as (used' & w1 & Ep & E).
  assert (Hs0 : state [] w).
  { repeat split; simpl; intros; lia. }
  assert (Hlt0 : (length (@nil bool) < initialHeight + gapLimit wallet)%nat) by (simpl; lia).
  destruct (scanPass_done _ _ _ _ _ Hs0 Hlt0 Ep) as [Hs' Hlen].
  assert (Hu' : used' = map matched (seq 0 (length used'))) by apply Hs'.
  destruct (next_height (length used')) as [Hh' Hafter']. cbv zeta in Hh', Hafter'.
  rewrite <- Hu' in Hh', Hafter'.
  destruct (scanLoop_done _ _ _ _ _ _ Hs' Hh' Hafter' E) as (scanned & Hle & Hrest).
  exists scanned. split; [lia | exact Hrest].
Qed.

(** The visits of one pass, when every key reads every leaf. *)
Lemma visits_run (usedIndexes : list bool) (l : list nat) : forall w,
  (forall i, readable i) ->
  (forall i, usedIndexes !! i = Some true -> matched i = true) ->
  exists w', promiseAll (map (visit usedIndexes) l) w = (Ok (map matched l), w').
Proof.
  induction l as [|i l IH]; intros w Hr Hu; [eexists; reflexivity|].
  cbn [map promiseAll].
  assert (Hv : exists w1, visit usedIndexes i w = (Ok (matched i), w1)).
  { unfold WalletSweep.visit. destruct (usedIndexes !! i) as [[|]|] eqn:Eu; simpl.
    - rewrite (Hu i Eu). eexists; reflexivity.
    - rewrite scanIndex_spec, (Hr i). eexists; reflexivity.
    - rewrite scanIndex_spec, (Hr i). eexists; reflexivity. }
  destruct Hv as [w1 ->]. destruct (IH w1 Hr Hu) as [w2 ->]. eexists; reflexivity.
Qed.

Lemma scanPass_run usedIndexes height w :
  (forall i, readable i) ->
  usedIndexes = map matched (seq 0 (length usedIndexes)) ->
  (length usedIndexes < height + gapLimit wallet)%nat ->
  exists w',
    scanPass wallet leaves change tree chainID usedIndexes height w
    = (Ok (map matched (seq 0 (S (height + gapLimit wallet)))), w').
Proof.
  intros Hr Hu Hlt. unfold scanPass, bind.
  change (fun index : nat =>
            if default false (usedIndexes !! index) then ret true
            else scanIndex wallet index change leaves tree chainID)
    with (visit usedIndexes).
  destruct (visits_run usedIndexes (seq 0 (S (height + gapLimit wallet))) w Hr) as [w' ->].
  - intros i Hi. assert (Hil : (i < length usedIndexes)%nat) by (eapply lookup_lt_Some, Hi).
    rewrite Hu, list_lookup_fmap, lookup_seq_lt in Hi by lia. simpl in Hi. now injection Hi.
  - exists w'. unfold ret. now rewrite drop_ge, app_nil_r by lia.
Qed.

Lemma next_height_bound (n bound : nat) :
  (forall i, (bound < i)%nat -> matched i = false) ->
  (default 0%nat (lastIndexOf_true (map matched (seq 0 n))) <= bound)%nat.
Proof.
  intros Hb. destruct (next_height n) as [[Hm|Hz] _]; cbv zeta in *; [|lia].
  destruct (decide (default 0%nat (lastIndexOf_true (map matched (seq 0 n))) <= bound)%nat)
    as [Hle|Hgt]; [exact Hle|].
  rewrite Hb in Hm by lia. discriminate.
Qed.

(** The loop, run with enough fuel. *)
Lemma scanLoop_run bound fuel : forall usedIndexes height w,
  (forall i, readable i) ->
  (forall i, (bound < i)%nat -> matched i = false) ->
  usedIndexes = map matched (seq 0 (length usedIndexes)) ->
  (height <= bound)%nat ->
  (bound + gapLimit wallet <= fuel + length usedIndexes)%nat ->
  exists h w',
    scanLoop fuel wallet leaves change tree chainID usedIndexes height w = (Ok h, w')
    /\ (h <= bound)%nat.
Proof.
  induction fuel as [|fuel IH]; intros usedIndexes height w Hr Hb Hu Hh Hf.
  - rewrite scanLoop_exit by lia. exists height, w. auto.
  - destruct (decide (length usedIndexes < height + gapLimit wallet)%nat) as [Hlt|Hge].
    + rewrite scanLoop_step by exact Hlt.
      destruct (scanPass_run usedIndexes height w Hr Hu Hlt) as [w1 Ep].
      unfold bind. rewrite Ep.
      apply IH; try assumption.
      * now rewrite length_map, length_seq.
      * now apply next_height_bound.
      * rewrite length_map, length_seq. lia.
    + rewrite scanLoop_exit by exact Hge. exists height, w. auto.
Qed.

(** X18.  A sweep ends when the notes end: if every key reads every leaf
    and no index above [bound] holds a note, then with more than [bound]
    units of fuel (one unit per pass) the sweep returns, and the height it
    returns is at most [bound]. *)
Theorem scanLeaves_terminates initialHeight bound fuel w :
  (forall i, readable i) ->
  (forall i, (bound < i)%nat -> matched i = false) ->
  (bound < fuel)%nat ->
  exists h w',
    scanLeaves fuel wallet leaves change initialHeight tree chainID w = (Ok h, w')
    /\ (h <= bound)%nat.
Proof.
  intros Hr Hb Hf. unfold scanLeaves.
  destruct (decide (length (@nil bool) < initialHeight + gapLimit wallet)%nat) as [Hlt|Hge].
  - destruct fuel as [|fuel]; [lia|].
    rewrite scanLoop_step by exact Hlt.
    destruct (scanPass_run [] initialHeight w Hr eq_refl Hlt) as [w1 Ep].
    unfold bind. rewrite Ep.
    apply (scanLoop_run bound); try assumption.
    + now rewrite length_map, length_seq.
    + now apply next_height_bound.
    + rewrite length_map, length_seq. lia.
  - rewrite scanLoop_exit by exact Hge. exists initialHeight, w.
    split; [reflexivity|]. simpl in Hge. lia.
Qed.

End SweepLoopFacts.

(** ** Address codec: one address, one key *)

Section EncodeFacts.
Context {b32 : Bech32Encode.Bech32}.
Import Bech32Encode.

(** bech32-buffer decodes what it encoded. *)
Hypothesis bech32_roundtrip : forall prefix data,
  bech32decode (bech32encode prefix data) = Ok (prefix, data).

Lemma decode_encode (pubkey : BytesData) (chain : option nat) :
  decode (encode pubkey chain)
  = Ok {| chainID := addressedChain chain; d_pubkey := bytes.hexlify pubkey |}.
Proof.
  unfold addressedChain. destruct chain as [c|].
  - destruct (knownChain c) eqn:Hk.
    + destruct (known_chain_prefix c Hk) as (prefix & Hp & Hi & Hx & Hz).
      unfold encode. destruct c as [|c]; [congruence|].
      rewrite Hp, combine_version, (decode_of_encoded bech32_roundtrip), Hi, Hx.
      reflexivity.
    + unfold encode. rewrite combine_version.
      destruct c as [|c].
      * now rewrite (decode_of_encoded bech32_roundtrip).
      * rewrite (unknown_chain_no_prefix _ Hk).
        now rewrite (decode_of_encoded bech32_roundtrip).
  - unfold encode. rewrite combine_version.
    now rewrite (decode_of_encoded bech32_roundtrip).
Qed.

(** X19.  With a bech32 library that decodes what it encodes, two
    addresses are equal only if they encode the same key bytes for the
    same chain of the prefix table (chains outside the table, chain 0 and
    no chain all counting as no chain): no two keys share an address. *)
Theorem encode_is_injective (pubkey1 pubkey2 : BytesData) (chain1 chain2 : option nat) :
  encode pubkey1 chain1 = encode pubkey2 chain2 ->
  bytes.hexlify pubkey1 = bytes.hexlify pubkey2
  /\ addressedChain chain1 = addressedChain chain2.
Proof.
  intros E. pose proof (decode_encode pubkey1 chain1) as H1.
  rewrite E, decode_encode in H1. injection H1 as Hc Hp. auto.
Qed.

End EncodeFacts.

(** ** Wallet: what scanning an index writes *)

Section ScanIndexWrites.
Context {cr : Crypto}.
Import Wallet.

Lemma writeBatch_sound key index change tree chainID leaves :
  forall position ops (k : DBKey),
  writeBatch key index change tree chainID leaves position = Ok ops ->
  k ∈ ops.*1 ->
  exists p leaf note,
    k = (chainID, tree, (position + p)%nat)
    /\ leaves !! p = Some (Some leaf)
    /\ readLeaf key leaf = Ok note
    /\ pubkey note = kp_pubkey key.
Proof.
  induction leaves as [|[leaf|] leaves IH]; intros position ops k E Hk; simpl in E.
  - injection E as <-. inversion Hk.
  - destruct (readLeaf key leaf) as [note| |] eqn:Er; try discriminate.
    destruct (writeBatch key index change tree chainID leaves (S position))
      as [ops'| |] eqn:Ew; try discriminate.
    assert (Hrest : k ∈ ops'.*1 ->
                    exists p leaf0 note0,
                      k = (chainID, tree, (position + p)%nat)
                      /\ (Some leaf :: leaves) !! p = Some (Some leaf0)
                      /\ readLeaf key leaf0 = Ok note0
                      /\ pubkey note0 = kp_pubkey key).
    { intros Hin. destruct (IH _ _ _ Ew Hin) as (p & leaf0 & note0 & -> & Hp & Hr & Hm).
      exists (S p), leaf0, note0. repeat split; try assumption. f_equal. lia. }
    destruct (decide (pubkey note = kp_pubkey key)) as [Hm|Hm].
    + injection E as <-. simpl in Hk. apply elem_of_cons in Hk as [->|Hk]; [|auto].
      exists 0%nat, leaf, note. repeat split; try assumption. f_equal. lia.
    + injection E as <-. auto.
  - destruct (IH _ _ _ E Hk) as (p & leaf0 & note0 & -> & Hp & Hr & Hm).
    exists (S p), leaf0, note0. repeat split; try assumption. f_equal. lia.
Qed.

Lemma writeBatch_holes key index change tree chainID leaves : forall position,
  Forall (fun slot => slot = None) leaves ->
  writeBatch key index change tree chainID leaves position = Ok [].
Proof.
  induction leaves as [|slot leaves IH]; intros position Hall; [reflexivity|].
  apply Forall_cons in Hall as [-> Hall]. simpl. now apply IH.
Qed.

(** X20.  [scanIndex] writes only to the store, and only records of notes
    addressed to the key of the index: a key whose record differs after the
    call is (chainID, tree, position) for a leaf at that position whose
    note carries the public key of the index.  It answers [true] exactly
    when there is such a leaf; on leaves that are all empty slots it
    answers [false] and changes nothing. *)
Theorem scanIndex_writes_only_own_notes (wallet : Wallet) (index : nat) (change : bool)
    (leaves : JSArray.t Commitment) (tree chainID : nat) (w : World) (found : bool)
    (w' : World) :
  scanIndex wallet index change leaves tree chainID w = (Ok found, w') ->
  let key := if change then changeNode wallet index else addressNode wallet index in
  let own := fun (position : nat) =>
               exists leaf note,
                 leaves !! position = Some (Some leaf)
                 /\ readLeaf key leaf = Ok note
                 /\ pubkey note = kp_pubkey key in
  store_only w w'
  /\ (forall k : DBKey,
        db w' !! k <> db w !! k ->
        exists position, k = (chainID, tree, position) /\ own position)
  /\ (found = true <-> exists position, own position)
  /\ (Forall (fun slot => slot = None) leaves -> found = false /\ w' = w).
Proof.
  intros E key own. pose proof (StoreOnly_scanIndex _ _ _ _ _ _ _ _ _ E) as Hso.
  rewrite scanIndex_spec in E. unfold indexBatch in E. fold key in E.
  destruct (writeBatch key index change tree chainID leaves 0) as [ops| |] eqn:Ew;
    try discriminate.
  injection E as <- <-. split; [exact Hso|]. split; [|split].
  - intros k Hk. cbn [db set_db] in Hk.
    destruct (decide (k ∈ ops.*1)) as [Hin|Hn].
    + destruct (writeBatch_sound _ _ _ _ _ _ _ _ _ Ew Hin)
        as (p & leaf & note & -> & Hp & Hr & Hm).
      exists p. split; [reflexivity | exists leaf, note; auto].
    + now rewrite batch_lookup_notin in Hk.
  - split.
    + intros Hf. apply Nat.ltb_lt in Hf.
      destruct ops as [|[k v] ops]; [simpl in Hf; lia|].
      destruct (writeBatch_sound _ _ _ _ _ _ _ _ k Ew) as (p & leaf & note & _ & Hown).
      { left. }
      exists p, leaf, note. exact Hown.
    + intros (p & leaf & note & Hp & Hr & Hm). apply Nat.ltb_lt.
      pose proof (writeBatch_records _ _ _ _ _ _ _ _ ∅ _ _ _ Ew Hp Hr Hm) as Hrec.
      destruct ops; [|simpl; lia]. simpl in Hrec. rewrite lookup_empty in Hrec.
      discriminate.
  - intros Hall. rewrite writeBatch_holes in Ew by exact Hall. injection Ew as <-.
    split; [reflexivity|]. simpl. apply set_db_id.
Qed.

End ScanIndexWrites.

(** ** Wallet: loading and unloading a tree *)

Section LoadTreeFacts.
Context {cr : Crypto}.
Import Wallet.

Lemma JSArray_get_delete {A} (arr : JSArray.t A) (i j : nat) :
  JSArray.get (JSArray.delete i arr) j
  = if decide (j = i) then None else JSArray.get arr j.
Proof.
  unfold JSArray.get, JSArray.delete.
  destruct (decide (j = i)) as [->|Hne].
  - destruct (decide (i < length arr)%nat) as [Hlt|Hge].
    + now rewrite list_lookup_insert_eq.
    + rewrite list_insert_ge by lia. now rewrite lookup_ge_None_2 by lia.
  - now rewrite list_lookup_insert_ne by congruence.
Qed.


End LoadTreeFacts.

(** ** AES: decrypting what was encrypted *)

Section AesFacts.
Context {cr : Crypto} {dc : Decipher}.

(** The decipher undoes the cipher, under the same key and initialization
    vector. *)
Hypothesis decipher_cipher : forall key iv blocks encrypted,
  aes256ctr key iv blocks = Ok encrypted ->
  aes256ctr_decipher key iv encrypted = Ok blocks.

Lemma map_hexlify_BStr (blocks : list Bytes) :
  map bytes.hexlify (map BStr blocks) = blocks.
Proof. induction blocks as [|b0 blocks IH]; simpl; congruence. Qed.

(** X22.  [aes.ctr.decrypt] gives back the blocks [aes.ctr.encrypt] was
    given, in byte form, under the same key, when the initialization vector
    has 16 bytes (the length of the default one); an explicit vector is
    returned in the bundle and costs no draw from the random source, the
    default one costs exactly one. *)
Theorem aes_decrypt_encrypt (plaintext : list BytesData) (key : BytesData)
    (iv0 : option BytesData) (w : World) (bundle : Ciphertext) (w' : World) :
  aes_ctr_encrypt plaintext key iv0 w = (Ok bundle, w') ->
  length (bytes.hexlify (iv bundle)) = 16%nat ->
  aes_ctr_decrypt bundle key = Ok (map (fun block => BStr (bytes.hexlify block)) plaintext)
  /\ match iv0 with
     | Some v => iv bundle = BStr (bytes.hexlify v) /\ w' = w
     | None => entropy w' = S (entropy w)
     end.
Proof.
  intros E Hlen. unfold aes_ctr_encrypt in E.
  apply bind_Ok_inv in E as (v & w1 & Eiv & E).
  apply bind_Ok_inv in E as (blocks & w2 & Eb & E).
  apply lift_Ok_inv in Eb as [Eb ->]. injection E as <- <-.
  simpl in Hlen. split.
  - unfold aes_ctr_decrypt, trim. simpl.
    rewrite Hlen, Nat.sub_diag, drop_0, map_hexlify_BStr.
    rewrite (decipher_cipher _ _ _ _ Eb). f_equal.
    now rewrite map_map.
  - destruct iv0 as [v0|].
    + injection Eiv as <- <-. auto.
    + apply bind_Ok_inv in Eiv as (r & w3 & Er & Eiv). injection Eiv as <- <-.
      unfold random_bytes in Er.
      apply bind_Ok_inv in Er as (draw & w4 & Ed & Er). injection Ed as <- <-.
      apply bind_Ok_inv in Er as ([] & w5 & Em & Er). injection Em as <-.
      injection Er as _ <-. reflexivity.
Qed.

End AesFacts.

(** ** Contract: scanning historical events *)

Section ContractFacts.
Import ERC20RailgunContract.

Variables GeneratedCommitmentArgs EncryptedCommitmentArgs NullifierArg : Type.
Variable formatGenerated : Bytes -> list GeneratedCommitmentArgs -> Res (list Commitment).
Variable formatEncrypted : Bytes -> list EncryptedCommitmentArgs -> Res (list Commitment).
Variable formatNullifier : Bytes -> NullifierArg -> Res Nullifier.
Variable outside : Outside GeneratedCommitmentArgs EncryptedCommitmentArgs NullifierArg.

Local Abbreviation debug := (debug _ _ _ outside).
Local Abbreviation scanEventsFrom := (scanEventsFrom _ _ _ outside).
Local Abbreviation scanEvents := (scanEvents _ _ _ outside).
Local Abbreviation processEvents :=
  (processEvents _ _ _ formatGenerated formatEncrypted formatNullifier outside).
Local Abbreviation forEachEvent :=
  (forEachEvent _ _ _ formatGenerated formatEncrypted formatNullifier).
Local Abbreviation historicalLoop :=
  (historicalLoop _ _ _ formatGenerated formatEncrypted formatNullifier outside).
Local Abbreviation getHistoricalEvents :=
  (getHistoricalEvents _ _ _ formatGenerated formatEncrypted formatNullifier outside).

Lemma queriesMade_app calls new :
  queriesMade (calls ++ new) = (queriesMade calls + queriesMade new)%nat.
Proof. unfold queriesMade. now rewrite List.filter_app, length_app. Qed.

Lemma queriesMade_debug lines : queriesMade (debug lines) = 0%nat.
Proof.
  unfold ERC20RailgunContract.debug. destruct (leptonDebugger _ _ _ outside); [|reflexivity].
  induction lines as [|line lines IH]; [reflexivity | exact IH].
Qed.

Lemma debug_no_query lines c : c ∈ debug lines -> isQuery c = false.
Proof.
  unfold ERC20RailgunContract.debug. destruct (leptonDebugger _ _ _ outside).
  - intros Hin. apply list_elem_of_fmap in Hin as (line & -> & _). reflexivity.
  - intros Hin. inversion Hin.
Qed.

Lemma debug_no_sync lines : List.filter isSync (debug lines) = [].
Proof.
  unfold ERC20RailgunContract.debug. destruct (leptonDebugger _ _ _ outside); [|reflexivity].
  induction lines as [|line lines IH]; [reflexivity | exact IH].
Qed.

Lemma debug_log lines c : c ∈ debug lines -> exists line, c = Log line.
Proof.
  unfold ERC20RailgunContract.debug. destruct (leptonDebugger _ _ _ outside).
  - intros Hin. apply list_elem_of_fmap in Hin as (line & -> & _). eauto.
  - intros Hin. inversion Hin.
Qed.

(** The retries of [scanEvents], as many as are left. *)
Lemma scanEventsFrom_spec startBlock : forall retriesLeft retryCount calls r calls',
  (retryCount + retriesLeft = MAX_SCAN_RETRIES)%nat ->
  scanEventsFrom retriesLeft startBlock retryCount calls = (r, calls') ->
  exists new,
    calls' = calls ++ new
    /\ (1 <= queriesMade new <= S retriesLeft)%nat
    /\ (forall c, c ∈ new ->
          c = QueryFilter startBlock (startBlock + SCAN_CHUNKS) \/ exists line, c = Log line)
    /\ (forall i, (i < queriesMade new - 1)%nat ->
                  exists err,
                    queryFilter _ _ _ outside (queriesMade calls + i) startBlock
                      (startBlock + SCAN_CHUNKS) = Rejected err)
    /\ r = settle (queryFilter _ _ _ outside (queriesMade calls + (queriesMade new - 1))
                     startBlock (startBlock + SCAN_CHUNKS))
    /\ ((queriesMade new <= retriesLeft)%nat -> exists events, r = Ok events).
Proof.
  assert (Hone : queriesMade [QueryFilter startBlock (startBlock + SCAN_CHUNKS)%N] = 1%nat)
    by reflexivity.
  induction retriesLeft as [|retriesLeft IH]; intros retryCount calls r calls' Hleft E;
    cbn [ERC20RailgunContract.scanEventsFrom] in E; cbv zeta in E;
    destruct (queryFilter _ _ _ outside (queriesMade calls) startBlock
                (startBlock + SCAN_CHUNKS)) as [events|err] eqn:Eq.
  - injection E as <- <-. exists [QueryFilter startBlock (startBlock + SCAN_CHUNKS)%N].
    rewrite Hone.
    split; [reflexivity|]. split; [lia|]. split; [|split; [|split]].
    + intros c Hc. left. now apply list_elem_of_singleton in Hc.
    + intros i Hi. lia.
    + simpl. now rewrite Nat.add_0_r, Eq.
    + intros. lia.
  - rewrite (proj2 (Nat.ltb_ge _ _)) in E by (unfold MAX_SCAN_RETRIES in *; lia).
    injection E as <- <-. rewrite <- app_assoc.
    eexists. split; [reflexivity|].
    rewrite queriesMade_app, queriesMade_debug, Hone.
    split; [lia|]. split; [|split; [|split]].
    + intros c Hc. apply elem_of_app in Hc as [Hc|Hc].
      * left. now apply list_elem_of_singleton in Hc.
      * right. now apply debug_log in Hc.
    + intros i Hi. lia.
    + simpl. now rewrite Nat.add_0_r, Eq.
    + intros. lia.
  - injection E as <- <-. exists [QueryFilter startBlock (startBlock + SCAN_CHUNKS)%N].
    rewrite Hone.
    split; [reflexivity|]. split; [lia|]. split; [|split; [|split]].
    + intros c Hc. left. now apply list_elem_of_singleton in Hc.
    + intros i Hi. lia.
    + simpl. now rewrite Nat.add_0_r, Eq.
    + eauto.
  - rewrite (proj2 (Nat.ltb_lt _ _)) in E by (unfold MAX_SCAN_RETRIES in *; lia).
    apply IH in E; [|lia].
    destruct E as (new & -> & Hn & Hq & Hfail & Hr & Hok).
    rewrite queriesMade_app, queriesMade_app, queriesMade_debug, Hone in Hfail, Hr.
    rewrite <- !app_assoc. eexists. split; [reflexivity|].
    rewrite !queriesMade_app, queriesMade_debug, Hone.
    split; [lia|]. split; [|split; [|split]].
    + intros c Hc. apply elem_of_app in Hc as [Hc|Hc];
        [left; now apply list_elem_of_singleton in Hc|].
      apply elem_of_app in Hc as [Hc|Hc]; [|now apply Hq].
      right. now apply debug_log in Hc.
    + intros i Hi. destruct i as [|i].
      * rewrite Nat.add_0_r. eauto.
      * destruct (Hfail i) as [err' He]; [lia|]. exists err'.
        rewrite <- He. f_equal. lia.
    + rewrite Hr. f_equal. f_equal. lia.
    + intros Hle. apply Hok. lia.
Qed.

(** X23.  [scanEvents] asks the provider for the events of the blocks
    [startBlock] to [startBlock + 500] at most six times: it stops at the
    first answer, which it returns, and after five retries it throws the
    error of the sixth failure.  It calls nothing but the provider and the
    debugger. *)
Theorem scanEvents_gives_up_after_five_retries startBlock calls r calls' :
  scanEvents startBlock 0 calls = (r, calls') ->
  exists new,
    calls' = calls ++ new
    /\ (1 <= queriesMade new <= 6)%nat
    /\ (forall c, c ∈ new ->
                  c = QueryFilter startBlock (startBlock + 500) \/ exists line, c = Log line)
    /\ (forall i, (i < queriesMade new - 1)%nat ->
                  exists err,
                    queryFilter _ _ _ outside (queriesMade calls + i) startBlock
                      (startBlock + 500) = Rejected err)
    /\ r = settle (queryFilter _ _ _ outside (queriesMade calls + (queriesMade new - 1))
                     startBlock (startBlock + 500))
    /\ ((queriesMade new < 6)%nat -> exists events, r = Ok events).
Proof.
  intros E. unfold ERC20RailgunContract.scanEvents in E.
  apply scanEventsFrom_spec in E; [|reflexivity].
  destruct E as (new & -> & Hn & Hq & Hfail & Hr & Hok).
  exists new. split; [reflexivity|]. split; [simpl in Hn; lia|].
  split; [exact Hq|]. split; [exact Hfail|]. split; [exact Hr|].
  intros Hlt. apply Hok. simpl. lia.
Qed.

Lemma settle_fuel {A} (p : Settled A) : settle p <> OutOfFuel.
Proof. now destruct p. Qed.

Lemma query_in_calls new :
  (1 <= queriesMade new)%nat -> exists a b, QueryFilter a b ∈ new.
Proof.
  unfold queriesMade. induction new as [|c new IH]; simpl; [lia|].
  destruct c; simpl; intros Hn;
    try (destruct (IH Hn) as (a & b & Hin); exists a, b; now right).
  eexists _, _. left.
Qed.

Lemma scanEvents_calls startBlock calls r calls' :
  scanEvents startBlock 0 calls = (r, calls') ->
  r <> OutOfFuel
  /\ exists new,
       calls' = calls ++ new
       /\ List.filter isSync new = []
       /\ QueryFilter startBlock (startBlock + SCAN_CHUNKS) ∈ new
       /\ (forall a b, QueryFilter a b ∈ new ->
                       a = startBlock /\ b = (a + SCAN_CHUNKS)%N).
Proof.
  intros E. unfold ERC20RailgunContract.scanEvents in E.
  apply scanEventsFrom_spec in E; [|reflexivity].
  destruct E as (new & -> & Hn & Hq & _ & -> & _).
  split; [apply settle_fuel|]. exists new. split; [reflexivity|].
  split; [|split].
  - clear Hn. induction new as [|c new IH]; [reflexivity|].
    destruct (Hq c) as [->|[line ->]]; [left| |]; simpl;
      apply IH; intros c' Hc'; apply Hq; now right.
  - destruct (query_in_calls new) as (a & b & Hin); [lia|].
    destruct (Hq _ Hin) as [<-|[line Hl]]; [exact Hin | discriminate Hl].
  - intros a b Hin. destruct (Hq _ Hin) as [Heq|[line Hl]]; [|discriminate Hl].
    injection Heq as -> ->. split; reflexivity.
Qed.

(** Each event starts at most one listener or gives one nullifier. *)
Lemma forEachEvent_spec events : forall nullifiers started final,
  forEachEvent events nullifiers = (started, final) ->
  Forall (fun c => exists event, c = EventsListener event) started
  /\ exists more,
       final = nullifiers ++ more
       /\ (length started + length more <= length events)%nat.
Proof.
  induction events as [|event events IH]; intros nullifiers started final E.
  - injection E as <- <-. split; [constructor|]. exists []. now rewrite app_nil_r.
  - cbn [ERC20RailgunContract.forEachEvent] in E.
    match type of E with
    | (let '(_, _) := ?step in _) = _ => destruct step as [first nullifiers'] eqn:Estep
    end.
    destruct (forEachEvent events nullifiers') as [later final'] eqn:Elater.
    injection E as <- <-.
    apply IH in Elater as (Hlater & more & -> & Hlen).
    assert (Hstep : Forall (fun c => exists event, c = EventsListener event) first
                    /\ exists one, nullifiers' = nullifiers ++ one
                                   /\ (length first + length one <= 1)%nat).
    { destruct (args _ _ _ event) as [[treeNumber startPosition commitments
                                      |treeNumber startPosition commitments
                                      |nullifier|]|].
      - destruct (formatGenerated _ _); injection Estep as <- <-;
          (split; [repeat constructor; eauto|exists []; rewrite app_nil_r; simpl; split; [reflexivity|lia]]).
      - destruct (formatEncrypted _ _); injection Estep as <- <-;
          (split; [repeat constructor; eauto|exists []; rewrite app_nil_r; simpl; split; [reflexivity|lia]]).
      - destruct (formatNullifier _ _); injection Estep as <- <-;
          (split; [constructor|]);
          [eexists [_]; simpl; split; [reflexivity|lia]
          |exists []; rewrite app_nil_r; simpl; split; [reflexivity|lia]..].
      - injection Estep as <- <-. split; [constructor|].
        exists []. rewrite app_nil_r. simpl. split; [reflexivity|lia].
      - injection Estep as <- <-. split; [constructor|].
        exists []. rewrite app_nil_r. simpl. split; [reflexivity|lia]. }
    destruct Hstep as (Hfirst & one & -> & Hone).
    split; [now apply Forall_app|].
    exists (one ++ more). rewrite <- app_assoc. split; [reflexivity|].
    rewrite !length_app. simpl. lia.
Qed.

(** X24.  [processEvents] calls the nullifier listener exactly once, as its
    last call and whatever the events are, and ends as that call ends: an
    exception of a formatter is never thrown to the caller.  Before it, each
    event started at most one commitment listener or gave one nullifier. *)
Theorem processEvents_reports_nullifiers_once commitmentEvents calls :
  exists started nullifiers,
    processEvents commitmentEvents calls
    = (settle (eventsNullifierListener _ _ _ outside nullifiers),
       calls ++ started ++ [EventsNullifierListener nullifiers])
    /\ Forall (fun c => exists event, c = EventsListener event) started
    /\ (length started + length nullifiers <= length commitmentEvents)%nat.
Proof.
  unfold ERC20RailgunContract.processEvents, call.
  destruct (forEachEvent commitmentEvents []) as [started nullifiers] eqn:E.
  apply forEachEvent_spec in E as (Hstarted & more & -> & Hlen).
  exists started, more. simpl. rewrite <- app_assoc. auto.
Qed.

Lemma processEvents_calls commitmentEvents calls r calls' :
  processEvents commitmentEvents calls = (r, calls') ->
  r <> OutOfFuel
  /\ exists new,
       calls' = calls ++ new
       /\ List.filter isSync new = []
       /\ (forall a b, QueryFilter a b ∉ new).
Proof.
  unfold ERC20RailgunContract.processEvents, call.
  destruct (forEachEvent commitmentEvents []) as [started nullifiers] eqn:E.
  apply forEachEvent_spec in E as (Hstarted & _).
  intros Heq. injection Heq as <- <-. split; [apply settle_fuel|].
  exists (started ++ [EventsNullifierListener nullifiers]).
  rewrite <- app_assoc. split; [reflexivity|]. split.
  - rewrite List.filter_app. simpl. rewrite app_nil_r.
    induction Hstarted as [|c started [event ->] _ IH]; [reflexivity | exact IH].
  - intros a b Hin. apply elem_of_app in Hin as [Hin|Hin].
    + rewrite Forall_forall in Hstarted. apply Hstarted in Hin as [event Hev].
      discriminate Hev.
    + apply list_elem_of_singleton in Hin. discriminate Hin.
Qed.

Lemma chunkCount_done current latest :
  (latest <= current)%N -> chunkCount current latest = 0%nat.
Proof.
  intros Hle. unfold chunkCount, SCAN_CHUNKS.
  replace (latest - current)%N with 0%N by lia. reflexivity.
Qed.

Lemma chunkCount_step current latest :
  (current < latest)%N ->
  chunkCount current latest = S (chunkCount (current + SCAN_CHUNKS) latest).
Proof.
  intros Hlt. unfold chunkCount, SCAN_CHUNKS. change (500 - 1)%N with 499%N.
  rewrite <- N2Nat.inj_succ. f_equal.
  symmetry.
  destruct (N.le_gt_cases (current + 500) latest) as [Hle|Hgt].
  - pose proof (N.div_mod (latest - (current + 500) + 499) 500 ltac:(discriminate)) as Hd.
    pose proof (N.mod_lt (latest - (current + 500) + 499) 500 ltac:(discriminate)) as Hm.
    apply N.div_unique with (r := ((latest - (current + 500) + 499) mod 500)%N);
      [exact Hm|].
    set (x := (latest - (current + 500) + 499)%N) in *.
    replace (latest - current + 499)%N with (x + 500)%N by lia.
    rewrite Hd at 1. lia.
  - replace (latest - (current + 500))%N with 0%N by lia.
    change ((0 + 499) / 500)%N with 0%N. change (N.succ 0) with 1%N.
    apply N.div_unique with (r := (latest - current - 1)%N); lia.
Qed.

Lemma chunkStarts_done current latest :
  (latest <= current)%N -> chunkStarts current latest = [].
Proof. intros Hle. unfold chunkStarts. now rewrite chunkCount_done. Qed.

Lemma chunkStarts_step current latest :
  (current < latest)%N ->
  chunkStarts current latest = current :: chunkStarts (current + SCAN_CHUNKS) latest.
Proof.
  intros Hlt. unfold chunkStarts. rewrite chunkCount_step by exact Hlt.
  cbn [seq map]. f_equal; [lia|].
  rewrite <- seq_shift, map_map. apply map_ext. intros i. lia.
Qed.

Lemma no_sync calls c :
  List.filter isSync calls = [] -> SetLastSyncedBlock c ∉ calls.
Proof.
  intros Hf Hin. apply list_elem_of_In in Hin.
  assert (Hin' : In (SetLastSyncedBlock c) (List.filter isSync calls))
    by (apply filter_In; split; [exact Hin | reflexivity]).
  rewrite Hf in Hin'. exact Hin'.
Qed.

Ltac mem :=
  repeat match goal with
         | H : _ ∈ _ ++ _ |- _ => apply elem_of_app in H as [H|H]
         | H : _ ∈ [_] |- _ => apply list_elem_of_singleton in H
         end.

(** The loop over the chunks, on as much fuel as there are chunks. *)
Lemma historicalLoop_spec startBlock : forall fuel current latest calls r calls',
  fuel = chunkCount current latest ->
  historicalLoop fuel startBlock current latest calls = (r, calls') ->
  r <> OutOfFuel
  /\ exists new,
       calls' = calls ++ new
       /\ List.filter isSync new `prefix_of`
            map SetLastSyncedBlock (chunkStarts current latest)
       /\ (r = Ok tt ->
           List.filter isSync new = map SetLastSyncedBlock (chunkStarts current latest))
       /\ (forall a b, QueryFilter a b ∈ new ->
                       a ∈ chunkStarts current latest /\ b = (a + SCAN_CHUNKS)%N)
       /\ (forall c, SetLastSyncedBlock c ∈ new ->
                     QueryFilter c (c + SCAN_CHUNKS) ∈ new).
Proof.
  induction fuel as [|fuel IH]; intros current latest calls r calls' Hfuel E;
    cbn [ERC20RailgunContract.historicalLoop] in E;
    destruct (current <? latest)%N eqn:Hlt.
  - apply N.ltb_lt in Hlt. rewrite chunkCount_step in Hfuel by exact Hlt. discriminate.
  - apply N.ltb_ge in Hlt. injection E as <- <-. split; [discriminate|].
    exists []. rewrite app_nil_r, chunkStarts_done by exact Hlt.
    split; [reflexivity|]. split; [reflexivity|]. split; [reflexivity|].
    split; [intros a b Hin | intros c Hin]; inversion Hin.
  - apply N.ltb_lt in Hlt.
    rewrite chunkCount_step in Hfuel by exact Hlt. injection Hfuel as Hfuel.
    rewrite chunkStarts_step by exact Hlt.
    unfold cbind in E at 1.
    set (said := if ((current - startBlock) mod 10000 =? 0)%N
                 then debug [ScanningNext current] else []) in *.
    assert (Esaid : (if ((current - startBlock) mod 10000 =? 0)%N
                     then logged _ _ _ outside (ScanningNext current)
                     else cret tt) calls = (Ok tt, calls ++ said)).
    { subst said. destruct ((current - startBlock) mod 10000 =? 0)%N;
        [reflexivity | unfold cret; now rewrite app_nil_r]. }
    rewrite Esaid in E. clear Esaid.
    assert (Hsaid : forall c, c ∈ said -> exists line, c = Log line).
    { subst said. destruct ((current - startBlock) mod 10000 =? 0)%N;
        [apply debug_log | intros c Hc; inversion Hc]. }
    assert (Hs0 : List.filter isSync said = []).
    { subst said. destruct ((current - startBlock) mod 10000 =? 0)%N;
        [apply debug_no_sync | reflexivity]. }
    clearbody said.
    assert (Hq0 : forall a b, QueryFilter a b ∉ said).
    { intros a b Hin. apply Hsaid in Hin as [line Hl]. discriminate Hl. }
    unfold cbind in E at 1.
    destruct (scanEvents current 0 (calls ++ said)) as [r1 calls1] eqn:E1.
    apply scanEvents_calls in E1 as (Hr1 & new1 & -> & Hs1 & Hin1 & Hq1).
    destruct r1 as [events|err|]; [| |contradiction].
    2:{ injection E as <- <-. split; [discriminate|].
        exists (said ++ new1). rewrite app_assoc. split; [reflexivity|].
        rewrite List.filter_app, Hs0, Hs1. simpl.
        split; [apply prefix_nil|]. split; [discriminate|]. split.
        - intros a b Hin. mem; [now apply Hq0 in Hin|].
          apply Hq1 in Hin as [-> ->]. split; [left | reflexivity].
        - intros c Hin. exfalso. apply (no_sync (said ++ new1) c); [|exact Hin].
          now rewrite List.filter_app, Hs0, Hs1. }
    unfold cbind in E at 1.
    destruct (processEvents events ((calls ++ said) ++ new1)) as [r2 calls2] eqn:E2.
    apply processEvents_calls in E2 as (Hr2 & new2 & -> & Hs2 & Hq2).
    destruct r2 as [[]|err|]; [| |contradiction].
    2:{ injection E as <- <-. split; [discriminate|].
        exists (said ++ new1 ++ new2). rewrite !app_assoc. split; [reflexivity|].
        rewrite !List.filter_app, Hs0, Hs1, Hs2. simpl.
        split; [apply prefix_nil|]. split; [discriminate|]. split.
        - intros a b Hin. mem; [now apply Hq0 in Hin| |now apply Hq2 in Hin].
          apply Hq1 in Hin as [-> ->]. split; [left | reflexivity].
        - intros c Hin. exfalso. apply (no_sync ((said ++ new1) ++ new2) c); [|exact Hin].
          now rewrite !List.filter_app, Hs0, Hs1, Hs2. }
    unfold cbind in E at 1. unfold call in E at 1.
    destruct (setLastSyncedBlock _ _ _ outside current) as [[]|err]; cbn [settle] in E.
    2:{ injection E as <- <-. split; [discriminate|].
        exists (said ++ new1 ++ new2 ++ [SetLastSyncedBlock current]).
        rewrite !app_assoc. split; [reflexivity|].
        rewrite !List.filter_app, Hs0, Hs1, Hs2. simpl.
        split; [apply prefix_cons, prefix_nil|]. split; [discriminate|]. split.
        - intros a b Hin. mem;
            [now apply Hq0 in Hin| |now apply Hq2 in Hin|discriminate Hin].
          apply Hq1 in Hin as [-> ->]. split; [left | reflexivity].
        - intros c Hin. mem.
          + exfalso. now apply (no_sync said c).
          + exfalso. now apply (no_sync new1 c).
          + exfalso. now apply (no_sync new2 c).
          + injection Hin as ->. rewrite !elem_of_app. auto. }
    apply IH in E as (Hr & new3 & -> & Hpre & Hall & Hq3 & Hsq3); [|exact Hfuel].
    split; [exact Hr|].
    exists (said ++ new1 ++ new2 ++ [SetLastSyncedBlock current] ++ new3).
    rewrite !app_assoc. split; [reflexivity|].
    rewrite !List.filter_app, Hs0, Hs1, Hs2. simpl.
    split; [now apply prefix_cons|]. split; [intros Hok; f_equal; now apply Hall|]. split.
    + intros a b Hin. mem;
        [now apply Hq0 in Hin| |now apply Hq2 in Hin|discriminate Hin|].
      * apply Hq1 in Hin as [-> ->]. split; [left | reflexivity].
      * apply Hq3 in Hin as [Ha ->]. split; [now right | reflexivity].
    + intros c Hin. mem.
      * exfalso. now apply (no_sync said c).
      * exfalso. now apply (no_sync new1 c).
      * exfalso. now apply (no_sync new2 c).
      * injection Hin as ->. rewrite !elem_of_app. auto 6.
      * apply Hsq3 in Hin. rewrite !elem_of_app. auto.
  - apply N.ltb_ge in Hlt. rewrite chunkCount_done in Hfuel by exact Hlt. discriminate.
Qed.


End ContractFacts.

(** ** Evaluations on the small collaborators *)

#[local] Existing Instances Toy.crypto Toy.snark Toy.bech32.

(** The accepting back end returns a proof; the rejecting one makes [prove]
    throw. *)
Lemma prove_returns_verified_proof_witness :
  (forall w0,
      Prover.verify Toy.accepting Prover.erc20small
        (Prover.privateToPublicInputs Toy.privateInputs0)
        (Prover.storedProof
           {| pi_a := ("1", "2"); pi_b := (("3", "4"), ("5", "6")); pi_c := ("7", "8") |}%string)
        w0 = (Ok true, w0))
  /\ Prover.prove Toy.rejecting Prover.erc20small Toy.privateInputs0 Toy.world0
     = (Throw ProofGenerationFailed,
        snd (Prover.generate Toy.rejecting Prover.erc20small Toy.privateInputs0 Toy.world0)).
Proof.
  split.
  - refine (proj2 (proj1 (prove_returns_verified_proof
                            Toy.accepting Prover.erc20small Toy.privateInputs0 Toy.world0)
                     _ _ (snd (Prover.prove Toy.accepting Prover.erc20small
                                 Toy.privateInputs0 Toy.world0)) _)).
    vm_compute. reflexivity.
  - apply (proj2 (prove_returns_verified_proof
                    Toy.rejecting Prover.erc20small Toy.privateInputs0 Toy.world0)
             (Prover.storedProof
                {| pi_a := ("1", "2"); pi_b := (("3", "4"), ("5", "6")); pi_c := ("7", "8") |}%string)
             (Prover.privateToPublicInputs Toy.privateInputs0)).
    + vm_compute. reflexivity.
    + vm_compute. reflexivity.
Defined.


Lemma toy_unhex_byte b0 s :
  Toy.unhex (String (Prover.hex_digit (Byte.to_N b0 / 16))
               (String (Prover.hex_digit (Byte.to_N b0 mod 16)) s))
  = match Toy.unhex s with
    | Ok (prefix, bs) => Ok (prefix, b0 :: bs)
    | _ => Throw (External "bech32")
    end.
Proof. destruct b0; reflexivity. Qed.

Lemma toy_bech32_roundtrip prefix data :
  Bech32Encode.bech32decode (Bech32Encode.bech32encode prefix data) = Ok (prefix, data).
Proof.
  simpl. induction data as [|b0 data IH]; [reflexivity|].
  change (Prover.hex_text (b0 :: data) +:+ String ":" prefix)%string
    with (String (Prover.hex_digit (Byte.to_N b0 / 16))
            (String (Prover.hex_digit (Byte.to_N b0 mod 16))
               (Prover.hex_text data +:+ String ":" prefix)))%string.
  now rewrite toy_unhex_byte, IH.
Qed.

(** The test vector's key on chain 1, and the same key on chain 2. *)
Lemma address_roundtrip_witness :
  Bech32Encode.decode (Bech32Encode.encode (BStr [x00; x00; x00; x00]) (Some 1%nat))
  = Ok {| Bech32Encode.chainID := Some 1%nat; Bech32Encode.d_pubkey := [x00; x00; x00; x00] |}
  /\ Bech32Encode.decode (Bech32Encode.encode (BStr [x00; x00; x00; x00]) (Some 2%nat))
     = Ok {| Bech32Encode.chainID := None; Bech32Encode.d_pubkey := [x00; x00; x00; x00] |}.
Proof.
  pose proof (address_roundtrip toy_bech32_roundtrip (BStr [x00; x00; x00; x00])) as [K U].
  split.
  - apply (K 1%nat). reflexivity.
  - apply (U (Some 2%nat)). reflexivity.
Defined.

(** *** Transaction builder *)

(** C3.  A transfer of 3 pinned to tree 1, from a wallet whose tree 0 holds
    a note of 5 and whose tree 1 holds a note of 1: [generateInputs]
    returns, with no nullifier at all (neither 2 nor 10), three output
    commitments and a change of -3; [prove] would route it to the large
    circuit. *)
Theorem pinned_tree_without_solution_builds_no_input :
  match ERC20Transaction.generateInputs (Toy.transfer 3 (Some 1%nat)) (Toy.wallet [])
          (BStr [x01]) (Toy.worldWith [(0%nat, 0%nat, 5); (1%nat, 0%nat, 1)]) with
  | (Ok g, _) =>
      Prover.nullifiers (ERC20Transaction.inputs g) = []
      /\ Prover.spendingKeys (ERC20Transaction.inputs g) = []
      /\ length (Prover.commitmentsOut (ERC20Transaction.inputs g)) = 3%nat
      /\ Prover.valuesOut (ERC20Transaction.inputs g) = [BBN 3; BBN (-3); BBN 0]
      /\ ERC20Transaction.circuitFor g = Prover.erc20large
  | _ => False
  end.
Proof. vm_compute. repeat split; reflexivity. Qed.


(** *** Scanning *)

(** One leaf, addressed to the key at index 5 = primaryHeight + gapLimit of
    a fresh wallet: one scan records it and lifts the height to 5. *)
Lemma note_at_height_plus_gap_is_detected :
  let wallet := Toy.wallet [[Toy.leafTo [x0a; x05]]] in
  Wallet.gapLimit wallet = 5%nat
  /\ primaryHeight (default Wallet.defaultDetails (details Toy.world0)) = 0%nat
  /\ fst (Wallet.scan 10 wallet 1 Toy.world0) = Ok tt
  /\ st_index <$> db (snd (Wallet.scan 10 wallet 1 Toy.world0)) !! (1%nat, 0%nat, 0%nat)
     = Some 5%nat
  /\ primaryHeight <$> details (snd (Wallet.scan 10 wallet 1 Toy.world0)) = Some 5%nat.
Proof. vm_compute. repeat split; reflexivity. Qed.

(** Two leaves, the first for the key at index 3, the second for nobody:
    the first scan ends with [primaryHeight] 3, a second scan of the same
    mirror with [primaryHeight] 0. *)
Lemma second_scan_changes_wallet_details :
  let wallet := Toy.wallet [[Toy.leafTo [x0a; x03]; Toy.leafTo [x0b]]] in
  let w1 := snd (Wallet.scan 10 wallet 1 Toy.world0) in
  let w2 := snd (Wallet.scan 10 wallet 1 w1) in
  fst (Wallet.scan 10 wallet 1 Toy.world0) = Ok tt
  /\ fst (Wallet.scan 10 wallet 1 w1) = Ok tt
  /\ details w1
     = Some {| treeScannedHeights := [1%nat]; primaryHeight := 3; changeHeight := 0 |}
  /\ details w2
     = Some {| treeScannedHeights := [1%nat]; primaryHeight := 0; changeHeight := 0 |}
  /\ details w2 <> details w1.
Proof. vm_compute. repeat split; try reflexivity. discriminate. Qed.

(** A leaf whose sender key is off the curve, then a deposit to the key at
    index 0: [scanIndex] for index 0 throws and records nothing, although
    the second leaf is read and carries that key; the whole scan throws. *)
Lemma unreadable_leaf_aborts_the_scan :
  let leaves := [Some Toy.badLeaf; Some (Toy.leafTo [x0a; x00])] in
  let wallet := Toy.wallet [[Toy.badLeaf; Toy.leafTo [x0a; x00]]] in
  let r := Wallet.scanIndex wallet 0 false leaves 0 1 Toy.world0 in
  Wallet.readLeaf (Wallet.addressNode wallet 0) Toy.badLeaf = Throw InvalidPoint
  /\ (pubkey <$> match Wallet.readLeaf (Wallet.addressNode wallet 0) (Toy.leafTo [x0a; x00]) with
                 | Ok note => Some note
                 | _ => None
                 end) = Some (Wallet.kp_pubkey (Wallet.addressNode wallet 0))
  /\ fst r = Throw InvalidPoint
  /\ db (snd r) !! (1%nat, 0%nat, 1%nat) = None
  /\ fst (Wallet.scan 10 wallet 1 Toy.world0) = Throw InvalidPoint
  /\ db (snd (Wallet.scan 10 wallet 1 Toy.world0)) !! (1%nat, 0%nat, 1%nat) = None.
Proof. vm_compute. repeat split; reflexivity. Qed.

(** *** The theorems above, on the small wallet *)

Lemma scanIndex_read_failure_aborts_witness :
  Wallet.scanIndex (Toy.wallet []) 0 false
    [Some Toy.badLeaf; Some (Toy.leafTo [x0a; x00])] 0 1 Toy.world0
  = (Throw InvalidPoint, Toy.world0)
  /\ exists found w',
       Wallet.scanIndex (Toy.wallet []) 0 false [Some (Toy.leafTo [x0a; x00])] 0 1 Toy.world0
       = (Ok found, w')
       /\ st_index <$> db w' !! (1%nat, 0%nat, 0%nat) = Some 0%nat.
Proof.
  split.
  - apply (proj1 (scanIndex_read_failure_aborts (Toy.wallet []) 0 false
                    [Some Toy.badLeaf; Some (Toy.leafTo [x0a; x00])] 0 1 Toy.world0)
             0%nat Toy.badLeaf InvalidPoint).
    + reflexivity.
    + reflexivity.
    + intros j leaf' Hj. lia.
  - destruct (proj2 (scanIndex_read_failure_aborts (Toy.wallet []) 0 false
                       [Some (Toy.leafTo [x0a; x00])] 0 1 Toy.world0))
      as (found & w' & E & Hrec).
    + intros [|[|i]] leaf Hl; try discriminate Hl.
      injection Hl as <-. eexists. reflexivity.
    + exists found, w'. split; [exact E|].
      rewrite (Hrec 0%nat (Toy.leafTo [x0a; x00])
                 {| pubkey := [x0a; x00]; random := [x05]; amount := 7; token := Toy.tokenA |});
        reflexivity.
Defined.

Lemma scanLeaves_closed_range_witness :
  let leaves := [Some (Toy.leafTo [x0a; x01]); Some (Toy.leafTo [x0a; x06])] in
  is_Some (db (snd (Wallet.scanLeaves 1 (Toy.wallet []) leaves false 0 0 1 Toy.world0))
           !! (1%nat, 0%nat, 0%nat))
  /\ fst (Wallet.scanLeaves 1 (Toy.wallet []) leaves false 0 0 1 Toy.world0) = Ok 1%nat
  /\ db (snd (Wallet.scanLeaves 1 (Toy.wallet []) leaves false 0 0 1 Toy.world0))
     !! (1%nat, 0%nat, 1%nat) = None.
Proof.
  intros leaves.
  assert (Hpos : (0 < 0 + Wallet.gapLimit (Toy.wallet []))%nat) by (simpl; lia).
  assert (Hread : forall i, (i <= 0 + Wallet.gapLimit (Toy.wallet []))%nat ->
                            Wallet.indexBatch (Toy.wallet []) leaves false 0 1 i
                            = Ok (Wallet.opsAt (Toy.wallet []) leaves false 0 1 i)).
  { intros i Hi. simpl in Hi.
    do 6 (destruct i as [|i]; [vm_compute; reflexivity|]). lia. }
  destruct (scanLeaves_closed_range (Toy.wallet []) leaves false 0 1 0 Toy.world0 Hpos Hread)
    as [Hdetect Hexact].
  assert (Hquiet : forall i, (0 + 1 < i <= 0 + Wallet.gapLimit (Toy.wallet []))%nat ->
                             Wallet.opsAt (Toy.wallet []) leaves false 0 1 i = []).
  { intros i Hi. simpl in Hi.
    do 6 (destruct i as [|i]; [try lia; vm_compute; reflexivity|]). lia. }
  destruct (Hexact Hquiet 0%nat) as [Hrun Hkeep].
  split; [|split].
  - apply (Hdetect 0%nat _ _ (surjective_pairing _) 1%nat); [simpl; lia|].
    vm_compute. left.
  - rewrite Hrun. vm_compute. reflexivity.
  - rewrite Hrun. cbn [snd]. rewrite Hkeep; [reflexivity|].
    intros i Hi. simpl in Hi.
    do 6 (destruct i as [|i]; [vm_compute; intros Hin;
                               repeat (apply elem_of_cons in Hin as [Hin|Hin];
                                       [discriminate Hin|]);
                               inversion Hin|]).
    lia.
Defined.

Lemma scan_twice_keeps_scanned_heights_witness :
  let wallet := Toy.wallet [[Toy.leafTo [x0a; x03]; Toy.leafTo [x0b]]] in
  let w1 := snd (Wallet.scan 10 wallet 1 Toy.world0) in
  let w2 := snd (Wallet.scan 10 wallet 1 w1) in
  treeScannedHeights <$> details w2 = treeScannedHeights <$> details w1
  /\ db_grows w1 w2.
Proof.
  intros wallet w1 w2.
  apply (scan_twice_keeps_scanned_heights 10 10 wallet 1 Toy.world0 w1 w2).
  - vm_compute. reflexivity.
  - vm_compute. reflexivity.
Defined.



(** *** The further properties, on the small collaborators *)

Lemma prove_touches_only_the_witness_file_witness :
  let r := Prover.prove Toy.accepting Prover.erc20small Toy.privateInputs0 Toy.world0 in
  db (snd r) = db Toy.world0
  /\ files (snd r) !! Prover.out_wtns = Some [x00]
  /\ entropy (snd r) = 1%nat.
Proof.
  intros r.
  destruct (prove_touches_only_the_witness_file Toy.accepting Prover.erc20small
              Toy.privateInputs0 Toy.world0 (fst r) (snd r) (surjective_pairing _))
    as ((Hdb & _ & _) & _ & _ & _ & Hfile).
  assert (F : match Prover.formatPrivateInputs Toy.privateInputs0 true with
              | Ok _ => True
              | _ => False
              end) by (vm_compute; exact I).
  destruct (Prover.formatPrivateInputs Toy.privateInputs0 true) as [f| |] eqn:Ef;
    try contradiction.
  destruct (Hfile _ f [x00] eq_refl eq_refl eq_refl) as [Hf He].
  split; [exact Hdb|]. split; [|exact He].
  rewrite Hf. apply lookup_insert_eq.
Defined.

Lemma generateInputs_succeeds_only_when_valid_witness :
  exists g w',
    ERC20Transaction.generateInputs (Toy.transfer 3 None) (Toy.wallet []) (BStr [x01])
      (Toy.worldWith [(0%nat, 0%nat, 5)]) = (Ok g, w')
    /\ (length (ERC20Transaction.outputs (Toy.transfer 3 None)) <= 2)%nat
    /\ bytes.hexlify (BStr [x01]) = bytes.hexlify (Wallet.encryptionKey (Toy.wallet [])).
Proof.
  assert (F : match ERC20Transaction.generateInputs (Toy.transfer 3 None) (Toy.wallet [])
                      (BStr [x01]) (Toy.worldWith [(0%nat, 0%nat, 5)]) with
              | (Ok g, _) => True
              | _ => False
              end) by (vm_compute; exact I).
  destruct (ERC20Transaction.generateInputs (Toy.transfer 3 None) (Toy.wallet [])
              (BStr [x01]) (Toy.worldWith [(0%nat, 0%nat, 5)]))
    as [[g| |] w'] eqn:E; try contradiction.
  exists g, w'. split; [reflexivity|].
  destruct (generateInputs_succeeds_only_when_valid _ _ _ _ _ _ E) as (Hout & _ & Hkey & _).
  split; assumption.
Defined.

Lemma generateInputs_unpinned_has_two_or_ten_inputs_witness :
  exists g w',
    ERC20Transaction.generateInputs (Toy.transfer 3 None) (Toy.wallet []) (BStr [x01])
      (Toy.worldWith [(0%nat, 0%nat, 5)]) = (Ok g, w')
    /\ (length (Prover.nullifiers (ERC20Transaction.inputs g)) = 2%nat
        \/ length (Prover.nullifiers (ERC20Transaction.inputs g)) = 10%nat).
Proof.
  assert (F : match ERC20Transaction.generateInputs (Toy.transfer 3 None) (Toy.wallet [])
                      (BStr [x01]) (Toy.worldWith [(0%nat, 0%nat, 5)]) with
              | (Ok g, _) => True
              | _ => False
              end) by (vm_compute; exact I).
  destruct (ERC20Transaction.generateInputs (Toy.transfer 3 None) (Toy.wallet [])
              (BStr [x01]) (Toy.worldWith [(0%nat, 0%nat, 5)]))
    as [[g| |] w'] eqn:E; try contradiction.
  exists g, w'. split; [reflexivity|].
  exact (proj1 (generateInputs_unpinned_has_two_or_ten_inputs _ _ _ _ _ _ E
                  (or_introl eq_refl))).
Defined.

Lemma generateInputs_conserves_value_witness :
  exists g w',
    ERC20Transaction.generateInputs (Toy.transfer 3 None) (Toy.wallet []) (BStr [x01])
      (Toy.worldWith [(0%nat, 0%nat, 5)]) = (Ok g, w')
    /\ ERC20Transaction.sumValues (Prover.valuesIn (ERC20Transaction.inputs g)) + 0
       = ERC20Transaction.sumValues (Prover.valuesOut (ERC20Transaction.inputs g)) + 0.
Proof.
  assert (F : match ERC20Transaction.generateInputs (Toy.transfer 3 None) (Toy.wallet [])
                      (BStr [x01]) (Toy.worldWith [(0%nat, 0%nat, 5)]) with
              | (Ok g, _) => True
              | _ => False
              end) by (vm_compute; exact I).
  destruct (ERC20Transaction.generateInputs (Toy.transfer 3 None) (Toy.wallet [])
              (BStr [x01]) (Toy.worldWith [(0%nat, 0%nat, 5)]))
    as [[g| |] w'] eqn:E; try contradiction.
  exists g, w'. split; [reflexivity|].
  exact (proj1 (generateInputs_conserves_value _ _ _ _ _ _ E)).
Defined.

Lemma solveTree_spends_each_note_once_witness :
  let treeBalance := {| Wallet.balance := 6; Wallet.utxos := [Toy.utxo 0 1; Toy.utxo 1 5] |} in
  exists solution w',
    ERC20Transaction.solveTree (Toy.transfer 3 None) 3 treeBalance 0 Toy.world0
    = (Ok solution, w')
    /\ (solution = []
        \/ exists real dummies,
             solution = real ++ dummies
             /\ real ⊆+ Wallet.utxos treeBalance
             /\ 3 <= ERC20Transaction.sumTXOs solution).
Proof.
  intros treeBalance.
  assert (F : match ERC20Transaction.solveTree (Toy.transfer 3 None) 3 treeBalance 0
                      Toy.world0 with
              | (Ok _, _) => True
              | _ => False
              end) by (vm_compute; exact I).
  destruct (ERC20Transaction.solveTree (Toy.transfer 3 None) 3 treeBalance 0 Toy.world0)
    as [[solution| |] w'] eqn:E; try contradiction.
  exists solution, w'. split; [reflexivity|].
  assert (Hpos : Forall (fun u => 0 <= amount (txo_note u)) (Wallet.utxos treeBalance)).
  { repeat constructor; simpl; lia. }
  destruct (solveTree_spends_each_note_once _ _ _ _ _ _ _ Hpos E)
    as [->|(real & dummies & -> & Hsub & _ & _ & _ & Hsum)]; [now left|].
  right. exists real, dummies. auto.
Defined.

Lemma completed_scan_commits_last_leaf_heights_witness :
  let wallet := Toy.wallet [[Toy.leafTo [x0a; x03]; Toy.leafTo [x0b]]] in
  exists w' d',
    Wallet.scan 10 wallet 1 Toy.world0 = (Ok tt, w')
    /\ details w' = Some d'
    /\ treeScannedHeights d' !! 0%nat = Some 1%nat
    /\ scanLockPerChain w' = scanLockPerChain Toy.world0.
Proof.
  intros wallet.
  assert (F : match Wallet.scan 10 wallet 1 Toy.world0 with
              | (Ok _, _) => True
              | _ => False
              end) by (vm_compute; exact I).
  destruct (Wallet.scan 10 wallet 1 Toy.world0) as [[[]| |] w'] eqn:E; try contradiction.
  assert (Hn : 1%nat ∉ scanLockPerChain Toy.world0) by apply not_elem_of_empty.
  destruct (completed_scan_commits_last_leaf_heights 10 wallet 1 Toy.world0 w' Hn E)
    as (mt & d' & Hmt & Hd & Hlen & Hh & Hl & _).
  exists w', d'. split; [reflexivity|]. split; [exact Hd|]. split; [|exact Hl].
  assert (Hmt' : mt = Toy.mirror [[Toy.leafTo [x0a; x03]; Toy.leafTo [x0b]]]).
  { vm_compute in Hmt. now injection Hmt. }
  rewrite Hh.
  - rewrite Hmt'. reflexivity.
  - rewrite Hlen, Hmt'. simpl. lia.
Defined.

Lemma TXOs_only_sets_spend_txids_witness :
  let w := Toy.worldWith [(0%nat, 0%nat, 5)] in
  let r := Wallet.TXOs Toy.spendingWallet 1 w in
  db (snd r) !! (1%nat, 0%nat, 0%nat)
  = Some (WalletRecords.withSpendtxid (Toy.stored 5) [x99])
  /\ db (snd r) !! (1%nat, 0%nat, 1%nat) = None.
Proof.
  intros w r.
  destruct (TXOs_only_sets_spend_txids Toy.spendingWallet 1 w (fst r) (snd r)
              (surjective_pairing _)) as (_ & Hnone & _ & Hspent).
  split.
  - apply (Hspent (1%nat, 0%nat, 0%nat) (Toy.stored 5) Toy.spendingMirror [x99]);
      reflexivity.
  - apply Hnone. reflexivity.
Defined.

Lemma TXOs_lists_the_records_of_the_chain_witness :
  let w := Toy.worldWith [(0%nat, 1%nat, 5); (0%nat, 0%nat, 2)] in
  exists txos w',
    Wallet.TXOs (Toy.wallet []) 1 w = (Ok txos, w')
    /\ length txos = 2%nat
    /\ StronglySorted Wallet.key_le (Wallet.streamNamespace (db w) 1).
Proof.
  intros w.
  assert (F : match Wallet.TXOs (Toy.wallet []) 1 w with
              | (Ok txos, _) => length txos = 2%nat
              | _ => False
              end) by (vm_compute; reflexivity).
  destruct (Wallet.TXOs (Toy.wallet []) 1 w) as [[txos| |] w'] eqn:E; try contradiction.
  exists txos, w'. split; [reflexivity|]. split; [exact F|].
  exact (proj1 (TXOs_lists_the_records_of_the_chain _ _ _ _ _ E)).
Defined.

Lemma TXOs_twice_witness :
  let w := Toy.worldWith [(0%nat, 0%nat, 5)] in
  let r := Wallet.TXOs Toy.spendingWallet 1 w in
  Wallet.TXOs Toy.spendingWallet 1 (snd r) = r.
Proof.
  intros w r. rewrite (surjective_pairing r) at 2.
  apply (TXOs_twice Toy.spendingWallet 1 w). apply surjective_pairing.
Defined.

Lemma balances_sum_the_unspent_notes_witness :
  let w := Toy.worldWith [(0%nat, 0%nat, 5); (1%nat, 0%nat, 2)] in
  exists bs w',
    Wallet.balances (Toy.wallet []) 1 w = (Ok bs, w')
    /\ Wallet.balance <$> bs !! Toy.tokenA = Some 7.
Proof.
  intros w.
  assert (F : match Wallet.balances (Toy.wallet []) 1 w with
              | (Ok _, _) => True
              | _ => False
              end) by (vm_compute; exact I).
  destruct (Wallet.balances (Toy.wallet []) 1 w) as [[bs| |] w'] eqn:E; try contradiction.
  exists bs, w'. split; [reflexivity|].
  destruct (balances_sum_the_unspent_notes _ _ _ _ _ E) as (txos & Et & Hbs).
  assert (G : match Wallet.TXOs (Toy.wallet []) 1 w with
              | (Ok txos, _) =>
                  Exists (fun t => token (txo_note t) = Toy.tokenA) txos
                  /\ ERC20Transaction.sumTXOs (WalletBalances.unspentOf Toy.tokenA txos) = 7
              | _ => False
              end).
  { vm_compute. split; [left; reflexivity | reflexivity]. }
  rewrite Et in G. destruct G as [Hex Hsum].
  rewrite Hbs, decide_True by exact Hex. simpl. now rewrite Hsum.
Defined.

Lemma balancesByTree_splits_the_balance_witness :
  let w := Toy.worldWith [(0%nat, 0%nat, 5); (1%nat, 0%nat, 2)] in
  exists byTree w' trees,
    Wallet.balancesByTree (Toy.wallet []) 1 w = (Ok byTree, w')
    /\ byTree !! Toy.tokenA = Some trees
    /\ ERC20Transaction.sumBalances trees = 7.
Proof.
  intros w.
  assert (F : match Wallet.balancesByTree (Toy.wallet []) 1 w with
              | (Ok _, _) => True
              | _ => False
              end) by (vm_compute; exact I).
  destruct (Wallet.balancesByTree (Toy.wallet []) 1 w) as [[byTree| |] w'] eqn:E;
    try contradiction.
  destruct (balancesByTree_splits_the_balance _ _ _ _ _ E) as (bs & Eb & Hby).
  assert (G : match Wallet.balances (Toy.wallet []) 1 w with
              | (Ok bs, _) => Wallet.balance <$> bs !! Toy.tokenA = Some 7
              | _ => False
              end) by (vm_compute; reflexivity).
  rewrite Eb in G. specialize (Hby Toy.tokenA).
  destruct (bs !! Toy.tokenA) as [entry|]; [|discriminate G].
  destruct Hby as (trees & Ht & _ & Hsum).
  exists byTree, w', trees. split; [reflexivity|]. split; [exact Ht|].
  rewrite Hsum. simpl in G. now injection G.
Defined.

Lemma toy_byte_of_N (n : N) (b : byte) :
  bytes.byte_of_N n = b -> b <> x00 -> n = Byte.to_N b.
Proof.
  unfold bytes.byte_of_N. destruct (Byte.of_N n) as [b'|] eqn:E; simpl.
  - intros <- _. symmetry. now apply Byte.to_of_N.
  - intros <- Hne. now destruct Hne.
Qed.

(** One deposit, to the key at address index 3: every key reads it, and
    only index 3 holds a note. *)
Lemma toy_sweep_readable i :
  Wallet.indexReadable (Toy.wallet []) [Some (Toy.leafTo [x0a; x03])] false 0 1 i.
Proof.
  unfold Wallet.indexReadable, Wallet.opsAt, Wallet.indexBatch. simpl.
  now destruct (decide _).
Qed.

Lemma toy_sweep_matched i :
  (3 < i)%nat ->
  Wallet.indexMatches (Toy.wallet []) [Some (Toy.leafTo [x0a; x03])] false 0 1 i = false.
Proof.
  intros Hi. unfold Wallet.indexMatches, Wallet.opsAt, Wallet.indexBatch. simpl.
  destruct (decide _) as [E|_]; [|reflexivity].
  injection E as E. symmetry in E. apply toy_byte_of_N in E; [|discriminate].
  simpl in E. lia.
Qed.

Lemma scanLeaves_returns_last_used_index_witness :
  let leaves := [Some (Toy.leafTo [x0a; x03])] in
  exists h w' scanned,
    Wallet.scanLeaves 5 (Toy.wallet []) leaves false 0 0 1 Toy.world0 = (Ok h, w')
    /\ h = 3%nat
    /\ (h + 5 <= scanned)%nat
    /\ forall i, (h < i < scanned)%nat ->
                 Wallet.indexMatches (Toy.wallet []) leaves false 0 1 i = false.
Proof.
  intros leaves.
  assert (F : match Wallet.scanLeaves 5 (Toy.wallet []) leaves false 0 0 1 Toy.world0 with
              | (Ok h, _) => h = 3%nat
              | _ => False
              end) by (vm_compute; reflexivity).
  destruct (Wallet.scanLeaves 5 (Toy.wallet []) leaves false 0 0 1 Toy.world0)
    as [[h| |] w'] eqn:E; try contradiction.
  assert (Hpos : (0 < 0 + Wallet.gapLimit (Toy.wallet []))%nat) by (simpl; lia).
  destruct (scanLeaves_returns_last_used_index (Toy.wallet []) leaves false 0 1 5 0
              Toy.world0 h w' Hpos E) as (scanned & _ & Hgap & _ & _ & Hafter & _).
  exists h, w', scanned. split; [reflexivity|]. split; [exact F|].
  split; [exact Hgap | exact Hafter].
Defined.

Lemma scanLeaves_terminates_witness :
  exists h w',
    Wallet.scanLeaves 4 (Toy.wallet []) [Some (Toy.leafTo [x0a; x03])] false 0 0 1 Toy.world0
    = (Ok h, w')
    /\ (h <= 3)%nat.
Proof.
  apply (scanLeaves_terminates (Toy.wallet []) [Some (Toy.leafTo [x0a; x03])] false 0 1
           0 3 4 Toy.world0).
  - apply toy_sweep_readable.
  - apply toy_sweep_matched.
  - lia.
Defined.

Lemma encode_is_injective_witness :
  Bech32Encode.addressedChain (Some 0%nat) = Bech32Encode.addressedChain None.
Proof.
  apply (encode_is_injective toy_bech32_roundtrip (BStr [x05]) (BStr [x05]) (Some 0%nat) None).
  vm_compute. reflexivity.
Defined.

Lemma scanIndex_writes_only_own_notes_witness :
  let leaves := [Some (Toy.leafTo [x0a; x03]); Some (Toy.leafTo [x0a; x04])] in
  exists w',
    Wallet.scanIndex (Toy.wallet []) 3 false leaves 0 1 Toy.world0 = (Ok true, w')
    /\ forall k : DBKey,
         db w' !! k <> db Toy.world0 !! k -> exists position, k = (1%nat, 0%nat, position).
Proof.
  intros leaves.
  assert (F : match Wallet.scanIndex (Toy.wallet []) 3 false leaves 0 1 Toy.world0 with
              | (Ok found, _) => found = true
              | _ => False
              end) by (vm_compute; reflexivity).
  destruct (Wallet.scanIndex (Toy.wallet []) 3 false leaves 0 1 Toy.world0)
    as [[found| |] w'] eqn:E; try contradiction.
  destruct (scanIndex_writes_only_own_notes (Toy.wallet []) 3 false leaves 0 1
              Toy.world0 found w' E) as (_ & Hkeys & _).
  exists w'. split; [now rewrite F|].
  intros k Hk. destruct (Hkeys k Hk) as (position & -> & _). now exists position.
Defined.

#[local] Existing Instance Toy.decipher.

Lemma toy_decipher_cipher (key iv : Bytes) (blocks encrypted : list Bytes) :
  aes256ctr key iv blocks = Ok encrypted ->
  aes256ctr_decipher key iv encrypted = Ok blocks.
Proof. simpl. intros E. injection E as <-. reflexivity. Qed.

Lemma aes_decrypt_encrypt_witness :
  let iv0 := BStr (replicate 16 x07) in
  exists bundle w',
    aes_ctr_encrypt [BStr [x01; x02]; BBN 258] (BStr [x0b]) (Some iv0) Toy.world0
    = (Ok bundle, w')
    /\ aes_ctr_decrypt bundle (BStr [x0b])
       = Ok (map (fun block => BStr (bytes.hexlify block)) [BStr [x01; x02]; BBN 258])
    /\ w' = Toy.world0.
Proof.
  intros iv0.
  assert (F : match aes_ctr_encrypt [BStr [x01; x02]; BBN 258] (BStr [x0b]) (Some iv0)
                      Toy.world0 with
              | (Ok bundle, _) => length (bytes.hexlify (iv bundle)) = 16%nat
              | _ => False
              end) by (vm_compute; reflexivity).
  destruct (aes_ctr_encrypt [BStr [x01; x02]; BBN 258] (BStr [x0b]) (Some iv0) Toy.world0)
    as [[bundle| |] w'] eqn:E; try contradiction.
  destruct (aes_decrypt_encrypt toy_decipher_cipher _ _ _ _ _ _ E F) as (Hd & _ & Hw).
  exists bundle, w'. auto.
Defined.

Lemma scanEvents_gives_up_after_five_retries_witness :
  let run := ERC20RailgunContract.scanEvents _ _ _ Toy.provider 0 0 [] in
  (1 <= ERC20RailgunContract.queriesMade (snd run) <= 6)%nat
  /\ ((ERC20RailgunContract.queriesMade (snd run) < 6)%nat ->
      exists events, fst run = Ok events).
Proof.
  intros run.
  destruct (scanEvents_gives_up_after_five_retries _ _ _ Toy.provider 0 [] (fst run) (snd run)
              (surjective_pairing run)) as (new & Hc & Hn & _ & _ & _ & Hok).
  change ([] ++ new) with new in Hc. rewrite Hc. auto.
Defined.

